(** * node-debugprotocol-client: framing, classification and correlation

    A shallow embedding of [src/protocol.ts], [src/base-debug-client.ts],
    [src/stream-debug-client.ts] and [src/socket-debug-client.ts],
    together with the pieces of the JavaScript runtime those files call
    (strings, [Buffer], [JSON], [Map], [EventEmitter], promises, a
    socket), and the properties of the transport framing and message
    correlation core proved about it. *)

From Stdlib Require Import ZArith NArith List Lia Bool.
From Stdlib Require Import Strings.String Strings.Ascii Strings.Byte.
From stdpp Require Import base option list gmap countable.

Local Open Scope Z_scope.
Local Open Scope list_scope.

(** ** JavaScript strings

    A JavaScript string is a sequence of UTF-16 code units; [length] counts
    code units.  Code units are kept as [N]; every function below is total
    on [N] and only values below [0x10000] occur in strings built from
    literals, decoders and parsers. *)

Module JS.

Definition jsstring := list N.

(** An ASCII literal as a JavaScript string. *)
Definition js (s : string) : jsstring :=
  map N_of_ascii (list_ascii_of_string s).

Global Arguments js : simpl never.

Definition str_eqb (a b : jsstring) : bool := bool_decide (a = b).

(** [s.startsWith(p)] and the remainder after the prefix. *)
Fixpoint strip_prefix (p s : jsstring) : option jsstring :=
  match p, s with
  | [], _ => Some s
  | c :: p', d :: s' => if N.eqb c d then strip_prefix p' s' else None
  | _ :: _, [] => None
  end.

(** *** Decimal digits of a non-negative integer

    [`${n}`] for a non-negative integer below [10^21], as in the template
    string of [encodeMessage].  Digits are produced least significant
    first by repeated division; the fuel is the binary size of the
    number, which bounds the number of decimal digits. *)

Definition digit_char (d : N) : N := (48 + d)%N.

Fixpoint digits_rev (fuel : nat) (n : N) : list N :=
  match fuel with
  | O => []
  | S f =>
      if (n <? 10)%N then [digit_char n]
      else digit_char (n mod 10) :: digits_rev f (n / 10)
  end.

Definition decimal (n : N) : jsstring :=
  rev (digits_rev (S (N.to_nat (N.log2 n))) n).

Definition is_digit (c : N) : bool := (48 <=? c)%N && (c <=? 57)%N.

(** The longest prefix of decimal digits and what follows it. *)
Fixpoint span_digits (s : jsstring) : list N * jsstring :=
  match s with
  | c :: r =>
      if is_digit c
      then let '(ds, rest) := span_digits r in ((c - 48)%N :: ds, rest)
      else ([], s)
  | [] => ([], [])
  end.

Definition digits_value (ds : list N) : N :=
  fold_left (fun acc d => (acc * 10 + d)%N) ds 0%N.

(** *** UTF-8

    [stream.write(string)] encodes with UTF-8; a surrogate pair becomes one
    four-byte sequence and a lone surrogate becomes U+FFFD. *)

Definition byte_of_N (n : N) : byte :=
  match Byte.of_N (n mod 256) with
  | Some b => b
  | None => x00
  end.

Definition is_high_surrogate (u : N) : bool := (0xD800 <=? u)%N && (u <=? 0xDBFF)%N.
Definition is_low_surrogate (u : N) : bool := (0xDC00 <=? u)%N && (u <=? 0xDFFF)%N.

Definition utf8_replacement : list byte := [xef; xbf; xbd].

Definition utf8_of_codepoint (c : N) : list byte :=
  if (c <? 0x80)%N then [byte_of_N c]
  else if (c <? 0x800)%N then
    [byte_of_N (0xC0 + c / 64); byte_of_N (0x80 + c mod 64)]
  else if (c <? 0x10000)%N then
    [byte_of_N (0xE0 + c / 4096); byte_of_N (0x80 + (c / 64) mod 64);
     byte_of_N (0x80 + c mod 64)]
  else
    [byte_of_N (0xF0 + c / 262144); byte_of_N (0x80 + (c / 4096) mod 64);
     byte_of_N (0x80 + (c / 64) mod 64); byte_of_N (0x80 + c mod 64)].

Fixpoint utf8_encode (s : jsstring) : list byte :=
  match s with
  | [] => []
  | u :: r =>
      if is_high_surrogate u then
        match r with
        | lo :: r' =>
            if is_low_surrogate lo
            then utf8_of_codepoint (0x10000 + (u - 0xD800) * 1024 + (lo - 0xDC00))
                   ++ utf8_encode r'
            else utf8_replacement ++ utf8_encode r
        | [] => utf8_replacement
        end
      else if is_low_surrogate u then utf8_replacement ++ utf8_encode r
      else utf8_of_codepoint u ++ utf8_encode r
  end.

(** [Buffer.byteLength(s, "utf8")]. *)
Definition utf8_length (s : jsstring) : nat := length (utf8_encode s).

(** Decoding, as [buffer.toString("utf8")] does it: every maximal ill-formed
    subsequence is replaced by one U+FFFD, and a code point above U+FFFF
    becomes a surrogate pair. *)

Definition in_range (b : byte) (lo hi : N) : bool :=
  (lo <=? Byte.to_N b)%N && (Byte.to_N b <=? hi)%N.

Definition cont_bits (b : byte) : N := (Byte.to_N b mod 64)%N.

Definition units_of_codepoint (c : N) : list N :=
  if (c <? 0x10000)%N then [c]
  else [(0xD800 + (c - 0x10000) / 1024)%N; (0xDC00 + (c - 0x10000) mod 1024)%N].

Definition REPLACEMENT : N := 0xFFFD%N.

Fixpoint utf8_decode (bs : list byte) : jsstring :=
  match bs with
  | [] => []
  | b0 :: r0 =>
      let c0 := Byte.to_N b0 in
      if (c0 <? 0x80)%N then c0 :: utf8_decode r0
      else if in_range b0 0xC2 0xDF then
        match r0 with
        | b1 :: r1 =>
            if in_range b1 0x80 0xBF
            then ((c0 - 0xC0) * 64 + cont_bits b1)%N :: utf8_decode r1
            else REPLACEMENT :: utf8_decode r0
        | [] => [REPLACEMENT]
        end
      else if in_range b0 0xE0 0xEF then
        let lo := if (c0 =? 0xE0)%N then 0xA0%N else 0x80%N in
        let hi := if (c0 =? 0xED)%N then 0x9F%N else 0xBF%N in
        match r0 with
        | b1 :: r1 =>
            if in_range b1 lo hi then
              match r1 with
              | b2 :: r2 =>
                  if in_range b2 0x80 0xBF
                  then ((c0 - 0xE0) * 4096 + cont_bits b1 * 64 + cont_bits b2)%N
                         :: utf8_decode r2
                  else REPLACEMENT :: utf8_decode r1
              | [] => [REPLACEMENT]
              end
            else REPLACEMENT :: utf8_decode r0
        | [] => [REPLACEMENT]
        end
      else if in_range b0 0xF0 0xF4 then
        let lo := if (c0 =? 0xF0)%N then 0x90%N else 0x80%N in
        let hi := if (c0 =? 0xF4)%N then 0x8F%N else 0xBF%N in
        match r0 with
        | b1 :: r1 =>
            if in_range b1 lo hi then
              match r1 with
              | b2 :: r2 =>
                  if in_range b2 0x80 0xBF then
                    match r2 with
                    | b3 :: r3 =>
                        if in_range b3 0x80 0xBF
                        then units_of_codepoint
                               ((c0 - 0xF0) * 262144 + cont_bits b1 * 4096
                                + cont_bits b2 * 64 + cont_bits b3)%N
                               ++ utf8_decode r3
                        else REPLACEMENT :: utf8_decode r2
                    | [] => [REPLACEMENT]
                    end
                  else REPLACEMENT :: utf8_decode r1
              | [] => [REPLACEMENT]
              end
            else REPLACEMENT :: utf8_decode r0
        | [] => [REPLACEMENT]
        end
      else REPLACEMENT :: utf8_decode r0
  end.

(** *** [String.prototype.split]

    [s.split(sep)] for a non-empty separator string.  [skip] counts the code
    units of a separator that has just been matched and is still to be
    passed over. *)

Fixpoint split_on (sep s cur : jsstring) (skip : nat) : list jsstring :=
  match s with
  | [] => [rev cur]
  | c :: r =>
      match skip with
      | S k => split_on sep r cur k
      | O =>
          match strip_prefix sep s with
          | Some _ => rev cur :: split_on sep r [] (length sep - 1)
          | None => split_on sep r (c :: cur) 0
          end
      end
  end.

Definition split (s sep : jsstring) : list jsstring := split_on sep s [] 0.

(** [s.split(/: +/)]: the separator is a colon followed by one or more
    spaces, matched greedily.  [in_sep] says that the colon of a match has
    been read and its spaces are being passed over. *)

Fixpoint split_colon_spaces_from (s cur : jsstring) (in_sep : bool) : list jsstring :=
  match s with
  | [] => [rev cur]
  | c :: r =>
      if in_sep && (c =? 32)%N then split_colon_spaces_from r cur true
      else if (c =? 58)%N && match r with d :: _ => (d =? 32)%N | [] => false end
      then rev cur :: split_colon_spaces_from r [] true
      else split_colon_spaces_from r (c :: cur) false
  end.

Definition split_colon_spaces (s : jsstring) : list jsstring :=
  split_colon_spaces_from s [] false.

(** ** Numbers

    A JavaScript number is [NaN], an infinity, or a finite value.  Finite
    values are kept exactly, as an integer or as a decimal fraction
    [m / 10^k] that is not an integer ([m] has no trailing zero); rounding
    to binary64 and the sign of zero are outside this model. *)

Inductive number :=
  | NaN
  | Infinity (negative : bool)
  | Int (z : Z)
  | Dec (m : Z) (k : positive).

Global Instance number_eq_dec : EqDecision number.
Proof. solve_decision. Defined.

Global Instance number_countable : Countable number.
Proof.
  refine (inj_countable'
    (fun n => match n with
              | NaN => inl (inl tt)
              | Infinity b => inl (inr b)
              | Int z => inr (inl z)
              | Dec m k => inr (inr (m, k))
              end)
    (fun x => match x with
              | inl (inl _) => NaN
              | inl (inr b) => Infinity b
              | inr (inl z) => Int z
              | inr (inr (m, k)) => Dec m k
              end) _).
  intros []; reflexivity.
Defined.

(** The number [m * 10^(-k)] for [k >= 0], in canonical form. *)
Fixpoint strip_zeros (fuel : nat) (m k : Z) : number :=
  match fuel with
  | O => Int m
  | S f =>
      if k <=? 0 then Int m
      else if m mod 10 =? 0 then strip_zeros f (m / 10) (k - 1)
      else Dec m (Z.to_pos k)
  end.

(** The number [m * 10^e]. *)
Definition scale10 (m e : Z) : number :=
  if 0 <=? e then Int (m * 10 ^ e) else strip_zeros (Z.to_nat (- e)) m (- e).

Definition of_nat (n : nat) : number := Int (Z.of_nat n).

(** [x >= 0]. *)
Definition ge0 (x : number) : bool :=
  match x with
  | NaN => false
  | Infinity negative => negb negative
  | Int z => 0 <=? z
  | Dec m _ => 0 <=? m
  end.

(** [len >= x] for an integer [len]. *)
Definition int_ge (len : Z) (x : number) : bool :=
  match x with
  | NaN => false
  | Infinity negative => negative
  | Int z => z <=? len
  | Dec m k => m <=? len * 10 ^ Z.pos k
  end.

(** [x > len] for an integer [len]. *)
Definition gt_int (x : number) (len : Z) : bool :=
  match x with
  | NaN => false
  | Infinity negative => negb negative
  | Int z => len <? z
  | Dec m k => len * 10 ^ Z.pos k <? m
  end.

(** [Math.trunc]. *)
Definition trunc (x : number) : number :=
  match x with
  | Dec m k => Int (Z.quot m (10 ^ Z.pos k))
  | _ => x
  end.

(** *** [Number::toString]

    With [s] the decimal digits of the value without trailing zeros, [k]
    their count and [n] the position of the decimal point, as in
    ECMAScript's Number::toString for radix 10. *)

Definition zeros (n : nat) : jsstring := repeat 48%N n.

Fixpoint drop_trailing_zeros_rev (ds : jsstring) : jsstring :=
  match ds with
  | d :: r => if (d =? 48)%N then drop_trailing_zeros_rev r else ds
  | [] => []
  end.

Definition exponent_suffix (e : Z) : jsstring :=
  101%N :: (if e <? 0 then 45%N else 43%N) :: decimal (Z.to_N (Z.abs e)).

Definition positive_toString (digits : jsstring) (n : Z) : jsstring :=
  let k := Z.of_nat (length digits) in
  if (k <=? n) && (n <=? 21) then digits ++ zeros (Z.to_nat (n - k))
  else if (0 <? n) && (n <=? 21)
  then take (Z.to_nat n) digits ++ 46%N :: drop (Z.to_nat n) digits
  else if (-6 <? n) && (n <=? 0)
  then 48%N :: 46%N :: zeros (Z.to_nat (- n)) ++ digits
  else match digits with
       | [d] => d :: exponent_suffix (n - 1)
       | d :: more => d :: 46%N :: more ++ exponent_suffix (n - 1)
       | [] => []
       end.

Definition Number_toString (x : number) : jsstring :=
  match x with
  | NaN => js "NaN"
  | Infinity negative => if negative then js "-Infinity" else js "Infinity"
  | Int z =>
      if z =? 0 then js "0"
      else
        let all := decimal (Z.to_N (Z.abs z)) in
        let digits := rev (drop_trailing_zeros_rev (rev all)) in
        (if z <? 0 then [45%N] else [])
          ++ positive_toString digits (Z.of_nat (length all))
  | Dec m k =>
      let digits := decimal (Z.to_N (Z.abs m)) in
      (if m <? 0 then [45%N] else [])
        ++ positive_toString digits (Z.of_nat (length digits) - Z.pos k)
  end.

Definition is_finite (x : number) : bool :=
  match x with
  | Int _ | Dec _ _ => true
  | _ => false
  end.

(** *** String to number

    [+s] for a string (ECMAScript's StringToNumber): surrounding white
    space is dropped, the empty string is [0], a decimal literal with
    optional sign, fraction and exponent, [Infinity], or an unsigned
    hexadecimal, octal or binary literal gives its value, and anything else
    is [NaN]. *)

Definition is_whitespace (c : N) : bool :=
  ((9 <=? c) && (c <=? 13) || (c =? 32) || (c =? 0xA0) || (c =? 0x1680)
   || (0x2000 <=? c) && (c <=? 0x200A) || (c =? 0x2028) || (c =? 0x2029)
   || (c =? 0x202F) || (c =? 0x205F) || (c =? 0x3000) || (c =? 0xFEFF))%N.

Fixpoint trim_start (s : jsstring) : jsstring :=
  match s with
  | c :: r => if is_whitespace c then trim_start r else s
  | [] => []
  end.

Definition trim (s : jsstring) : jsstring := rev (trim_start (rev (trim_start s))).

(** An optional sign: [true] when negative. *)
Definition read_sign (s : jsstring) : bool * jsstring :=
  match s with
  | c :: r =>
      if (c =? 45)%N then (true, r)
      else if (c =? 43)%N then (false, r)
      else (false, s)
  | [] => (false, s)
  end.

(** An optional exponent part [e], [E] with sign and digits; [None] when
    the text is not an exponent part. *)
Definition read_exponent (s : jsstring) : option Z :=
  match s with
  | [] => Some 0
  | c :: r =>
      if (c =? 101)%N || (c =? 69)%N then
        let '(neg, r1) := read_sign r in
        match span_digits r1 with
        | ((_ :: _) as ds, []) =>
            Some (if neg then - Z.of_N (digits_value ds) else Z.of_N (digits_value ds))
        | _ => None
        end
      else None
  end.

Definition apply_sign (neg : bool) (x : number) : number :=
  match x with
  | Int z => if neg then Int (- z) else x
  | Dec m k => if neg then Dec (- m) k else x
  | Infinity b => if neg then Infinity (negb b) else x
  | NaN => NaN
  end.

(** Unsigned decimal literal: digits, optional fraction, optional
    exponent. *)
Definition decimal_literal (s : jsstring) : number :=
  let '(ip, r) := span_digits s in
  let '(fp, r1, has_point) :=
    match r with
    | 46%N :: r' => let '(fp, r1) := span_digits r' in (fp, r1, true)
    | _ => ([], r, false)
    end in
  match ip, fp with
  | [], [] => NaN
  | _, _ =>
      match read_exponent r1 with
      | Some e =>
          scale10 (Z.of_N (digits_value (ip ++ fp))) (e - Z.of_nat (length fp))
      | None => NaN
      end
  end.

Definition radix_digit (radix c : N) : option N :=
  let v :=
    if is_digit c then Some (c - 48)%N
    else if (97 <=? c)%N && (c <=? 102)%N then Some (c - 87)%N
    else if (65 <=? c)%N && (c <=? 70)%N then Some (c - 55)%N
    else None in
  match v with
  | Some d => if (d <? radix)%N then Some d else None
  | None => None
  end.

Fixpoint radix_value (radix : N) (s : jsstring) (acc : N) : option N :=
  match s with
  | [] => Some acc
  | c :: r =>
      match radix_digit radix c with
      | Some d => radix_value radix r (acc * radix + d)%N
      | None => None
      end
  end.

Definition radix_literal (radix : N) (s : jsstring) : number :=
  match s with
  | [] => NaN
  | _ => match radix_value radix s 0%N with
         | Some v => Int (Z.of_N v)
         | None => NaN
         end
  end.

(** A decimal literal with its optional sign, or [Infinity]. *)
Definition signed_literal (t : jsstring) : number :=
  let '(neg, r) := read_sign t in
  if str_eqb r (js "Infinity") then Infinity neg
  else apply_sign neg (decimal_literal r).

Definition StringToNumber (s : jsstring) : number :=
  match trim s with
  | [] => Int 0
  | c0 :: c1 :: r =>
      if (c0 =? 48)%N && ((c1 =? 120) || (c1 =? 88))%N then radix_literal 16 r
      else if (c0 =? 48)%N && ((c1 =? 111) || (c1 =? 79))%N then radix_literal 8 r
      else if (c0 =? 48)%N && ((c1 =? 98) || (c1 =? 66))%N then radix_literal 2 r
      else signed_literal (c0 :: c1 :: r)
  | t => signed_literal t
  end.

(** Unary plus on a value that is a string or [undefined]. *)
Definition ToNumber (v : option jsstring) : number :=
  match v with
  | Some s => StringToNumber s
  | None => NaN
  end.

(** ** Values

    The values that take part in the protocol are the ones JSON can carry.
    An object is the list of its own properties in enumeration order, with
    no key twice; [undefined] is the [None] of [option value]. *)

#[local] Unset Elimination Schemes.
Inductive value :=
  | Null
  | Bool (b : bool)
  | Num (n : number)
  | Str (s : jsstring)
  | Arr (xs : list value)
  | Obj (fs : list (jsstring * value)).
#[local] Set Elimination Schemes.

Fixpoint assoc (k : jsstring) (fs : list (jsstring * value)) : option value :=
  match fs with
  | [] => None
  | (k', v) :: r => if str_eqb k k' then Some v else assoc k r
  end.

(** [o[k] = v] on an object: an existing property keeps its place. *)
Fixpoint obj_set (k : jsstring) (v : value) (fs : list (jsstring * value))
  : list (jsstring * value) :=
  match fs with
  | [] => [(k, v)]
  | (k', v') :: r => if str_eqb k k' then (k, v) :: r else (k', v') :: obj_set k v r
  end.

(** A property of an object literal whose value may be [undefined]:
    [JSON.stringify] leaves such a property out. *)
Definition opt_field (k : string) (v : option value) : list (jsstring * value) :=
  match v with
  | Some x => [(js k, x)]
  | None => []
  end.

(** ** Thrown values *)

Inductive ErrorKind := PlainError | TypeError | SyntaxError.

Inductive thrown :=
  | ErrorObject (kind : ErrorKind) (message : jsstring)
  | Thrown (v : option value).

(** A call either returns or throws.  For an [async] method, [Throw] stands
    for the rejection of the promise it returns. *)
Inductive result (A : Type) :=
  | Normal (a : A)
  | Throw (e : thrown).
Arguments Normal {A} a.
Arguments Throw {A} e.

(** [ToString] of a value, as template strings and [new Error(x)] apply
    it.  An object is converted by its [toString] method.  An array has
    the one of [Array.prototype], which joins the conversions of its
    elements, [null] counting as the empty string.  An object that has no
    property of that name has the one of [Object.prototype]; an object
    that has one holds a value there that cannot be called, the inherited
    [valueOf] returns the object itself, and the conversion throws a
    TypeError. *)
Definition cannot_convert : thrown :=
  ErrorObject TypeError (js "Cannot convert object to primitive value").

Fixpoint ToString (v : value) : result jsstring :=
  match v with
  | Null => Normal (js "null")
  | Bool b => Normal (if b then js "true" else js "false")
  | Num n => Normal (Number_toString n)
  | Str s => Normal s
  | Arr xs =>
      (fix join (l : list value) : result jsstring :=
         match l with
         | [] => Normal []
         | x :: r =>
             match (match x with Null => Normal [] | _ => ToString x end) with
             | Throw e => Throw e
             | Normal s =>
                 match r with
                 | [] => Normal s
                 | _ =>
                     match join r with
                     | Throw e => Throw e
                     | Normal t => Normal (s ++ 44%N :: t)
                     end
                 end
             end
         end) xs
  | Obj fs =>
      match assoc (js "toString") fs with
      | Some _ => Throw cannot_convert
      | None => Normal (js "[object Object]")
      end
  end.

(** [`${x}`]: [undefined] is converted to a string as well. *)
Definition interpolate (x : option value) : result jsstring :=
  match x with
  | None => Normal (js "undefined")
  | Some v => ToString v
  end.

(** The interpolations of a template string are converted from left to
    right before the string is passed on.  Below, the interpolations that
    are strings or numbers by construction are left out. *)
Fixpoint interpolations (parts : list (option value)) : result unit :=
  match parts with
  | [] => Normal tt
  | x :: more =>
      match interpolate x with
      | Throw e => Throw e
      | Normal _ => interpolations more
      end
  end.

(** [new Error(x).message]: no message for [undefined]. *)
Definition Error_message (x : option value) : result jsstring :=
  match x with
  | None => Normal []
  | Some v => ToString v
  end.

(** ** JSON *)

Module JSON.

Definition hex_digit (d : N) : N :=
  if (d <? 10)%N then (48 + d)%N else (87 + d)%N.

Definition unicode_escape (c : N) : jsstring :=
  [92; 117; hex_digit (c / 4096); hex_digit ((c / 256) mod 16);
   hex_digit ((c / 16) mod 16); hex_digit (c mod 16)]%N.

(** QuoteJSONString without the enclosing quotes. *)
Fixpoint escape (s : jsstring) : jsstring :=
  match s with
  | [] => []
  | c :: r =>
      if (c =? 8)%N then 92%N :: 98%N :: escape r
      else if (c =? 9)%N then 92%N :: 116%N :: escape r
      else if (c =? 10)%N then 92%N :: 110%N :: escape r
      else if (c =? 12)%N then 92%N :: 102%N :: escape r
      else if (c =? 13)%N then 92%N :: 114%N :: escape r
      else if (c =? 34)%N then 92%N :: 34%N :: escape r
      else if (c =? 92)%N then 92%N :: 92%N :: escape r
      else if (c <? 32)%N then unicode_escape c ++ escape r
      else if is_high_surrogate c then
        match r with
        | lo :: r' =>
            if is_low_surrogate lo then c :: lo :: escape r'
            else unicode_escape c ++ escape r
        | [] => unicode_escape c
        end
      else if is_low_surrogate c then unicode_escape c ++ escape r
      else c :: escape r
  end.

Definition quote (s : jsstring) : jsstring := 34%N :: escape s ++ [34%N].

(** [JSON.stringify(v)] with no replacer and no indentation. *)
Fixpoint stringify (v : value) : jsstring :=
  match v with
  | Null => js "null"
  | Bool b => if b then js "true" else js "false"
  | Num n => if is_finite n then Number_toString n else js "null"
  | Str s => quote s
  | Arr xs =>
      91%N ::
      (fix elements (l : list value) : jsstring :=
         match l with
         | [] => []
         | x :: r =>
             stringify x ++ match r with [] => [] | _ => 44%N :: elements r end
         end) xs ++ [93%N]
  | Obj fs =>
      123%N ::
      (fix members (l : list (jsstring * value)) : jsstring :=
         match l with
         | [] => []
         | (k, x) :: r =>
             quote k ++ 58%N :: stringify x
               ++ match r with [] => [] | _ => 44%N :: members r end
         end) fs ++ [125%N]
  end.

(** [JSON.parse]: a recursive-descent reader.  The fuel bounds the number
    of nested calls; each call of [parse_value] reads at least one code
    unit before the next one, so twice the length of the text is enough. *)

Definition is_ws (c : N) : bool :=
  ((c =? 9) || (c =? 10) || (c =? 13) || (c =? 32))%N.

Fixpoint skip_ws (s : jsstring) : jsstring :=
  match s with
  | c :: r => if is_ws c then skip_ws r else s
  | [] => []
  end.

Definition hex_value (c : N) : option N := radix_digit 16 c.

(** The character a one-letter escape stands for. *)
Definition unescape (e : N) : option N :=
  if (e =? 34)%N then Some 34%N
  else if (e =? 92)%N then Some 92%N
  else if (e =? 47)%N then Some 47%N
  else if (e =? 98)%N then Some 8%N
  else if (e =? 102)%N then Some 12%N
  else if (e =? 110)%N then Some 10%N
  else if (e =? 114)%N then Some 13%N
  else if (e =? 116)%N then Some 9%N
  else None.

(** The rest of a string literal after its opening quote. *)
Fixpoint parse_string (s acc : jsstring) : option (jsstring * jsstring) :=
  match s with
  | [] => None
  | c :: r =>
      if (c =? 34)%N then Some (rev acc, r)
      else if (c =? 92)%N then
        match r with
        | e :: r1 =>
            if (e =? 117)%N then
              match r1 with
              | h1 :: h2 :: h3 :: h4 :: r5 =>
                  match hex_value h1, hex_value h2, hex_value h3, hex_value h4 with
                  | Some a, Some b, Some c', Some d =>
                      parse_string r5 ((a * 4096 + b * 256 + c' * 16 + d)%N :: acc)
                  | _, _, _, _ => None
                  end
              | _ => None
              end
            else
              match unescape e with
              | Some x => parse_string r1 (x :: acc)
              | None => None
              end
        | [] => None
        end
      else if (c <? 32)%N then None
      else parse_string r (c :: acc)
  end.

(** An optional fraction: its digits and what follows. *)
Definition parse_fraction (s : jsstring) : option (list N * jsstring) :=
  match s with
  | c :: r =>
      if (c =? 46)%N then
        match span_digits r with
        | ([], _) => None
        | (fp, rest) => Some (fp, rest)
        end
      else Some ([], s)
  | [] => Some ([], s)
  end.

(** An optional exponent: its value and what follows. *)
Definition parse_exponent (s : jsstring) : option (Z * jsstring) :=
  match s with
  | c :: r =>
      if (c =? 101)%N || (c =? 69)%N then
        let '(eneg, r1) := read_sign r in
        match span_digits r1 with
        | ([], _) => None
        | (ds, rest) =>
            Some (if eneg then - Z.of_N (digits_value ds) else Z.of_N (digits_value ds),
                  rest)
        end
      else Some (0, s)
  | [] => Some (0, s)
  end.

Definition parse_number (s : jsstring) : option (number * jsstring) :=
  let '(neg, r) :=
    match s with
    | c :: r => if (c =? 45)%N then (true, r) else (false, s)
    | [] => (false, s)
    end in
  let '(ip, r1) := span_digits r in
  match ip with
  | [] => None
  | d :: more =>
      if (d =? 0)%N && negb (match more with [] => true | _ => false end) then None
      else
        match parse_fraction r1 with
        | None => None
        | Some (fp, r2) =>
            match parse_exponent r2 with
            | None => None
            | Some (e, rest) =>
                Some (apply_sign neg
                        (scale10 (Z.of_N (digits_value (ip ++ fp)))
                                 (e - Z.of_nat (length fp))),
                      rest)
            end
        end
  end.

(** [true], [false], [null] or a number. *)
Definition parse_atom (t : jsstring) : option (value * jsstring) :=
  match strip_prefix (js "true") t with
  | Some r => Some (Bool true, r)
  | None =>
      match strip_prefix (js "false") t with
      | Some r => Some (Bool false, r)
      | None =>
          match strip_prefix (js "null") t with
          | Some r => Some (Null, r)
          | None =>
              match parse_number t with
              | Some (n, r) => Some (Num n, r)
              | None => None
              end
          end
      end
  end.

Fixpoint parse_value (fuel : nat) (s : jsstring) : option (value * jsstring) :=
  match fuel with
  | O => None
  | S f =>
      match skip_ws s with
      | [] => None
      | c :: r =>
          if (c =? 123)%N then
            match skip_ws r with
            | [] => None
            | d :: r' =>
                if (d =? 125)%N then Some (Obj [], r')
                else parse_members f (d :: r') []
            end
          else if (c =? 91)%N then
            match skip_ws r with
            | [] => None
            | d :: r' =>
                if (d =? 93)%N then Some (Arr [], r')
                else parse_elements f (d :: r') []
            end
          else if (c =? 34)%N then
            match parse_string r [] with
            | Some (str, r') => Some (Str str, r')
            | None => None
            end
          else parse_atom (c :: r)
      end
  end
with parse_elements (fuel : nat) (s : jsstring) (acc : list value)
  : option (value * jsstring) :=
  match fuel with
  | O => None
  | S f =>
      match parse_value f s with
      | Some (v, r) =>
          match skip_ws r with
          | c :: r' =>
              if (c =? 44)%N then parse_elements f r' (v :: acc)
              else if (c =? 93)%N then Some (Arr (rev (v :: acc)), r')
              else None
          | [] => None
          end
      | None => None
      end
  end
with parse_members (fuel : nat) (s : jsstring) (acc : list (jsstring * value))
  : option (value * jsstring) :=
  match fuel with
  | O => None
  | S f =>
      match skip_ws s with
      | c :: r =>
          if (c =? 34)%N then
            match parse_string r [] with
            | Some (k, r1) =>
                match skip_ws r1 with
                | d :: r2 =>
                    if (d =? 58)%N then
                      match parse_value f r2 with
                      | Some (v, r3) =>
                          match skip_ws r3 with
                          | e :: r4 =>
                              if (e =? 44)%N then parse_members f r4 (obj_set k v acc)
                              else if (e =? 125)%N then Some (Obj (obj_set k v acc), r4)
                              else None
                          | [] => None
                          end
                      | None => None
                      end
                    else None
                | [] => None
                end
            | None => None
            end
          else None
      | [] => None
      end
  end.

(** [JSON.parse(text)]; [None] stands for the SyntaxError it throws. *)
Definition parse (text : jsstring) : option value :=
  match parse_value (2 * length text + 2) text with
  | Some (v, rest) =>
      match skip_ws rest with
      | [] => Some v
      | _ => None
      end
  | None => None
  end.

End JSON.

(** ** Reading properties *)

(** [v.k] for a property name that no prototype defines: reading a
    property of [null] throws a TypeError, a primitive or an array has no
    such property. *)
Definition get (v : value) (k : string) : result (option value) :=
  match v with
  | Null => Throw (ErrorObject TypeError (js "Cannot read properties of null"))
  | Obj fs => Normal (assoc (js k) fs)
  | _ => Normal None
  end.

Inductive type_tag := TUndefined | TObject | TBoolean | TNumber | TString.

Definition typeof (v : option value) : type_tag :=
  match v with
  | None => TUndefined
  | Some (Bool _) => TBoolean
  | Some (Num _) => TNumber
  | Some (Str _) => TString
  | Some _ => TObject
  end.

Definition tag_eqb (a b : type_tag) : bool :=
  match a, b with
  | TUndefined, TUndefined | TObject, TObject | TBoolean, TBoolean
  | TNumber, TNumber | TString, TString => true
  | _, _ => false
  end.

(** [v === "literal"]. *)
Definition is_string (v : option value) (s : string) : bool :=
  match v with
  | Some (Str t) => str_eqb t (js s)
  | _ => false
  end.

(** Truthiness of a condition. *)
Definition truthy (v : option value) : bool :=
  match v with
  | None | Some Null => false
  | Some (Bool b) => b
  | Some (Num NaN) => false
  | Some (Num (Int z)) => negb (z =? 0)
  | Some (Num _) => true
  | Some (Str s) => match s with [] => false | _ => true end
  | Some _ => true
  end.

(** [error.message] for a caught value. *)
Definition message_of (error : thrown) : result (option value) :=
  match error with
  | ErrorObject _ m => Normal (Some (Str m))
  | Thrown None => Throw (ErrorObject TypeError (js "Cannot read properties of undefined"))
  | Thrown (Some v) => get v "message"
  end.

(** ** Buffers *)

Module Buffer.

Definition alloc (n : nat) : list byte := repeat x00 n.

Definition concat (parts : list (list byte)) : list byte := List.concat parts.

Fixpoint starts_with (pat buf : list byte) : bool :=
  match pat, buf with
  | [], _ => true
  | p :: pat', b :: buf' => Byte.eqb p b && starts_with pat' buf'
  | _ :: _, [] => false
  end.

Fixpoint index_from (pat buf : list byte) (i : Z) : Z :=
  match buf with
  | [] => match pat with [] => i | _ => -1 end
  | _ :: rest => if starts_with pat buf then i else index_from pat rest (i + 1)
  end.

(** [buf.indexOf(str)]: the offset of the first occurrence of the UTF-8
    bytes of [str], or [-1]. *)
Definition indexOf (buf : list byte) (str : jsstring) : Z :=
  index_from (utf8_encode str) buf 0.

(** The offset an index argument of [slice] denotes. *)
Definition adjustOffset (offset : number) (len : nat) : nat :=
  match trunc offset with
  | Int z =>
      if z =? 0 then O
      else if z <? 0 then Z.to_nat (Z.max 0 (z + Z.of_nat len))
      else if z <? Z.of_nat len then Z.to_nat z
      else len
  | Infinity negative => if negative then O else len
  | _ => O
  end.

(** [buf.slice(start)]. *)
Definition slice (buf : list byte) (start : number) : list byte :=
  drop (adjustOffset start (length buf)) buf.

(** [buf.toString("utf8", 0, end)]. *)
Definition toString (buf : list byte) (end_ : number) : jsstring :=
  let len := length buf in
  let e :=
    if gt_int end_ (Z.of_nat len) then Z.of_nat len
    else match trunc end_ with
         | Int z => z
         | Infinity _ => -1
         | _ => 0
         end in
  if e <=? 0 then [] else utf8_decode (take (Z.to_nat e) buf).

End Buffer.

End JS.

Import JS.

(** ** [src/protocol.ts] *)

Module Protocol.

Definition TWO_CRLF : jsstring := [13; 10; 13; 10]%N.
Definition CONTENT_LENGTH_HEADER : jsstring := js "Content-Length".

(** The short-circuit [a && b] of two checks that may throw. *)
Definition and_then (a : result bool) (b : result bool) : result bool :=
  match a with
  | Normal true => b
  | other => other
  end.

Definition check (v : result (option value)) (p : option value -> bool) : result bool :=
  match v with
  | Normal x => Normal (p x)
  | Throw e => Throw e
  end.

Definition isRequest (message : value) : result bool :=
  and_then (check (get message "type") (fun t => is_string t "request"))
    (and_then (check (get message "command") (fun c => tag_eqb (typeof c) TString))
       (check (get message "seq") (fun s => tag_eqb (typeof s) TNumber))).

Definition isResponse (message : value) : result bool :=
  and_then (check (get message "type") (fun t => is_string t "response"))
    (and_then (check (get message "request_seq") (fun s => tag_eqb (typeof s) TNumber))
       (check (get message "success") (fun s => tag_eqb (typeof s) TBoolean))).

Definition isEvent (message : value) : result bool :=
  and_then (check (get message "type") (fun t => is_string t "event"))
    (and_then (check (get message "event") (fun e => tag_eqb (typeof e) TString))
       (check (get message "seq") (fun s => tag_eqb (typeof s) TNumber))).

(** The template string prints [body.length], the number of UTF-16 code
    units of the body, in decimal. *)
Definition encodeMessage (message : value) : jsstring :=
  let body := JSON.stringify message in
  let header := CONTENT_LENGTH_HEADER ++ js ": " ++ decimal (N.of_nat (length body)) in
  header ++ TWO_CRLF ++ body.

End Protocol.


(** ** The client

    The fields of [BaseDebugClient] and [StreamDebugClient], followed by the
    part of the world the client acts on: the promises it has handed out,
    the lines given to the logger, the data written to streams, and the
    application callbacks it has invoked.

    Application code is seen from the client's side.  An event listener or
    a reverse-request handler is a function of its argument that does not
    call back into the client; a listener returns or throws; a handler is
    an [async] function, so it fails by rejecting its promise and not by
    throwing.  What writing a log line does is a parameter of the methods
    ([Logger]); the properties are about a client whose log lines are
    written without an exception ([returning]) wherever no other logger is
    named.  The sequence counter is an integer: the client is taken to
    send fewer than [2^53] messages, so that [nextSeq++] is exact.  The
    promise chain
    [handler(args).then(..).catch(..)] of a reverse request is kept in
    [replies] until [run_reply] runs it as one step.  The [calls] trace is
    not a field of the class; it records what was invoked.
    [SocketDebugClient], which opens a socket and hands it to
    [connectAdapter], has a record of its own, after [StreamDebugClient]. *)

Inductive LogLevel := Off | On | Verbose.

Inductive PromiseState :=
  | Pending
  | Fulfilled (v : option value)
  | Rejected (e : thrown).

(** A log line, by the call of [this.log] that produces it; the wording of
    the line is not modelled. *)
Inductive LogEntry :=
  | LogDisconnecting
  | LogUnmatchedResponse (message : value)
  | LogReceivedEvent (message : value)
  | LogReceivedRequest (message : value)
  | LogNoHandler (message : value)
  | LogUnknownType (message : value)
  | LogSendingRequest (request : value)
  | LogReceivedResponse (response : value)
  | LogReceivedErrorResponse (response : value)
  | LogSendingResponse (response : value)
  | LogSendingErrorResponse (response : value)
  | LogErrorHandlingMessage (body : jsstring) (e : thrown).

(** What [this.log] does with a line that the level lets through: the
    detail is serialised and [config.logger], an application callback, is
    called with the line.  This returns ([None]) or throws. *)
Class Logger := logger : LogEntry -> option thrown.

(** An event listener: what calling it with the event body does, as far as
    the client can tell (it returns, or it throws). *)
Record Listener := mkListener {
  listener_id : nat;
  listener_once : bool;
  listener_fn : option value -> option thrown
}.

(** The promise an asynchronous reverse-request handler returns is
    fulfilled with a response body or rejected. *)
Inductive HandlerOutcome :=
  | Fulfils (body : option value)
  | Rejects (reason : thrown).

Record ReverseRequestHandler := mkHandler {
  handler_id : nat;
  handler_fn : option value -> HandlerOutcome
}.

(** The trace of what the client handed on: a decoded message given to
    [handleMessage] by the decode loop, a listener or a handler invoked. *)
Inductive Call :=
  | Decoded (message : value)
  | ListenerCalled (id : nat) (body : option value)
  | HandlerCalled (id : nat) (args : option value).

Record Connection := mkConnection {
  outStream : nat;
  inStream : nat
}.

Record Client := mkClient {
  logLevel : LogLevel; (* [config.logLevel] *)
  nextSeq : Z;
  pendingRequests : gmap number nat; (* the callback of a request, named by the promise it settles *)
  reverseRequestHandlers : gmap jsstring ReverseRequestHandler;
  eventEmitter : gmap jsstring (list Listener);
  connection : option Connection;
  buffer : list byte;
  contentLength : number;
  promises : list PromiseState; (* the promises returned by [sendRequest] *)
  logged : list LogEntry; (* what reached [config.logger] *)
  written : list (nat * jsstring); (* [write] calls, by stream *)
  calls : list Call; (* invocations of application callbacks *)
  replies : list (value * HandlerOutcome) (* promise chains of reverse requests that have not run yet *)
}.

Definition set_nextSeq (x : Z) (c : Client) : Client :=
  {| logLevel := logLevel c; nextSeq := x;
     pendingRequests := pendingRequests c;
     reverseRequestHandlers := reverseRequestHandlers c;
     eventEmitter := eventEmitter c; connection := connection c;
     buffer := buffer c; contentLength := contentLength c;
     promises := promises c; logged := logged c; written := written c;
     calls := calls c; replies := replies c |}.

Definition set_pendingRequests (x : gmap number nat) (c : Client) : Client :=
  {| logLevel := logLevel c; nextSeq := nextSeq c; pendingRequests := x;
     reverseRequestHandlers := reverseRequestHandlers c;
     eventEmitter := eventEmitter c; connection := connection c;
     buffer := buffer c; contentLength := contentLength c;
     promises := promises c; logged := logged c; written := written c;
     calls := calls c; replies := replies c |}.

Definition set_reverseRequestHandlers (x : gmap jsstring ReverseRequestHandler) (c : Client) : Client :=
  {| logLevel := logLevel c; nextSeq := nextSeq c;
     pendingRequests := pendingRequests c; reverseRequestHandlers := x;
     eventEmitter := eventEmitter c; connection := connection c;
     buffer := buffer c; contentLength := contentLength c;
     promises := promises c; logged := logged c; written := written c;
     calls := calls c; replies := replies c |}.

Definition set_eventEmitter (x : gmap jsstring (list Listener)) (c : Client) : Client :=
  {| logLevel := logLevel c; nextSeq := nextSeq c;
     pendingRequests := pendingRequests c;
     reverseRequestHandlers := reverseRequestHandlers c; eventEmitter := x;
     connection := connection c; buffer := buffer c;
     contentLength := contentLength c; promises := promises c;
     logged := logged c; written := written c; calls := calls c;
     replies := replies c |}.

Definition set_connection (x : option Connection) (c : Client) : Client :=
  {| logLevel := logLevel c; nextSeq := nextSeq c;
     pendingRequests := pendingRequests c;
     reverseRequestHandlers := reverseRequestHandlers c;
     eventEmitter := eventEmitter c; connection := x; buffer := buffer c;
     contentLength := contentLength c; promises := promises c;
     logged := logged c; written := written c; calls := calls c;
     replies := replies c |}.

Definition set_buffer (x : list byte) (c : Client) : Client :=
  {| logLevel := logLevel c; nextSeq := nextSeq c;
     pendingRequests := pendingRequests c;
     reverseRequestHandlers := reverseRequestHandlers c;
     eventEmitter := eventEmitter c; connection := connection c;
     buffer := x; contentLength := contentLength c; promises := promises c;
     logged := logged c; written := written c; calls := calls c;
     replies := replies c |}.

Definition set_contentLength (x : number) (c : Client) : Client :=
  {| logLevel := logLevel c; nextSeq := nextSeq c;
     pendingRequests := pendingRequests c;
     reverseRequestHandlers := reverseRequestHandlers c;
     eventEmitter := eventEmitter c; connection := connection c;
     buffer := buffer c; contentLength := x; promises := promises c;
     logged := logged c; written := written c; calls := calls c;
     replies := replies c |}.

Definition set_promises (x : list PromiseState) (c : Client) : Client :=
  {| logLevel := logLevel c; nextSeq := nextSeq c;
     pendingRequests := pendingRequests c;
     reverseRequestHandlers := reverseRequestHandlers c;
     eventEmitter := eventEmitter c; connection := connection c;
     buffer := buffer c; contentLength := contentLength c; promises := x;
     logged := logged c; written := written c; calls := calls c;
     replies := replies c |}.

Definition set_logged (x : list LogEntry) (c : Client) : Client :=
  {| logLevel := logLevel c; nextSeq := nextSeq c;
     pendingRequests := pendingRequests c;
     reverseRequestHandlers := reverseRequestHandlers c;
     eventEmitter := eventEmitter c; connection := connection c;
     buffer := buffer c; contentLength := contentLength c;
     promises := promises c; logged := x; written := written c;
     calls := calls c; replies := replies c |}.

Definition set_written (x : list (nat * jsstring)) (c : Client) : Client :=
  {| logLevel := logLevel c; nextSeq := nextSeq c;
     pendingRequests := pendingRequests c;
     reverseRequestHandlers := reverseRequestHandlers c;
     eventEmitter := eventEmitter c; connection := connection c;
     buffer := buffer c; contentLength := contentLength c;
     promises := promises c; logged := logged c; written := x;
     calls := calls c; replies := replies c |}.

Definition set_calls (x : list Call) (c : Client) : Client :=
  {| logLevel := logLevel c; nextSeq := nextSeq c;
     pendingRequests := pendingRequests c;
     reverseRequestHandlers := reverseRequestHandlers c;
     eventEmitter := eventEmitter c; connection := connection c;
     buffer := buffer c; contentLength := contentLength c;
     promises := promises c; logged := logged c; written := written c;
     calls := x; replies := replies c |}.

Definition set_replies (x : list (value * HandlerOutcome)) (c : Client) : Client :=
  {| logLevel := logLevel c; nextSeq := nextSeq c;
     pendingRequests := pendingRequests c;
     reverseRequestHandlers := reverseRequestHandlers c;
     eventEmitter := eventEmitter c; connection := connection c;
     buffer := buffer c; contentLength := contentLength c;
     promises := promises c; logged := logged c; written := written c;
     calls := calls c; replies := x |}.

(** ** Computations on the client

    A method is a function of the client state that returns or throws and
    leaves a new state. *)

Definition JSM (A : Type) : Type := Client -> result A * Client.

Definition ret {A} (a : A) : JSM A := fun c => (Normal a, c).

Definition bind {A B} (m : JSM A) (k : A -> JSM B) : JSM B :=
  fun c =>
    match m c with
    | (Normal a, c') => k a c'
    | (Throw e, c') => (Throw e, c')
    end.

Definition throw {A} (e : thrown) : JSM A := fun c => (Throw e, c).

(** [try { m } catch (e) { handler }]. *)
Definition try_catch {A} (m : JSM A) (handler : thrown -> JSM A) : JSM A :=
  fun c =>
    match m c with
    | (Normal a, c') => (Normal a, c')
    | (Throw e, c') => handler e c'
    end.

Definition gets {A} (f : Client -> A) : JSM A := fun c => (Normal (f c), c).
Definition modify (f : Client -> Client) : JSM unit := fun c => (Normal tt, f c).
Definition lift {A} (r : result A) : JSM A := fun c => (r, c).

Declare Scope jsm_scope.
Delimit Scope jsm_scope with jsm.
Notation "'let*' x ':=' m 'in' k" := (bind m (fun x => k))
  (at level 10, x name, m at level 100, k at level 200) : jsm_scope.
Notation "m ';;' k" := (bind m (fun _ => k))
  (at level 100, k at level 200, right associativity) : jsm_scope.
Local Open Scope jsm_scope.

Definition new_Error (message : string) : thrown := ErrorObject PlainError (js message).

(** ** [src/base-debug-client.ts] *)

Module BaseDebugClient.

Definition getNextSeq : JSM Z :=
  fun c => (Normal (nextSeq c), set_nextSeq (nextSeq c + 1) c).

Section Logging.

Context `{Logger}.

(** [this.log(...)]: nothing reaches the logger at [LogLevel.Off]. *)
Definition log (entry : LogEntry) : JSM unit :=
  fun c =>
    match logLevel c with
    | Off => (Normal tt, c)
    | _ =>
        match logger entry with
        | None => (Normal tt, set_logged (logged c ++ [entry]) c)
        | Some e => (Throw e, set_logged (logged c ++ [entry]) c)
        end
    end.

(** [new Promise(executor)] for an executor that only stores its
    [resolve] and [reject]: the new promise is pending. *)
Definition new_Promise : JSM nat :=
  fun c => (Normal (length (promises c)), set_promises (promises c ++ [Pending]) c).

(** Settling a promise has an effect only while it is pending. *)
Definition settle (p : nat) (s : PromiseState) : JSM unit :=
  modify (fun c =>
    match promises c !! p with
    | Some Pending => set_promises (<[p := s]> (promises c)) c
    | _ => c
    end).

Definition resolve (p : nat) (v : option value) : JSM unit := settle p (Fulfilled v).
Definition reject (p : nat) (e : thrown) : JSM unit := settle p (Rejected e).

(** [map.get(key)], [map.delete(key)] on a map whose keys are numbers. *)
Definition Map_get {A} (m : gmap number A) (key : option value) : option A :=
  match key with
  | Some (Num n) => m !! n
  | _ => None
  end.

Definition Map_delete {A} (m : gmap number A) (key : option value) : gmap number A :=
  match key with
  | Some (Num n) => delete n m
  | _ => m
  end.

(** ... and on a map whose keys are strings. *)
Definition Map_get_str {A} (m : gmap jsstring A) (key : option value) : option A :=
  match key with
  | Some (Str s) => m !! s
  | _ => None
  end.

(** The callback [sendRequest] stores under the request's [seq]; [p] is the
    promise whose [resolve] and [reject] it holds. *)
Definition pending_callback (p : nat) (response : value) : JSM unit :=
  let* success := lift (get response "success") in
  if truthy success then
    let* command := lift (get response "command") in
    let* request_seq := lift (get response "request_seq") in
    lift (interpolations [command; request_seq]);;
    log (LogReceivedResponse response);;
    let* body := lift (get response "body") in
    resolve p body
  else
    let* command := lift (get response "command") in
    let* request_seq := lift (get response "request_seq") in
    lift (interpolations [command; request_seq]);;
    log (LogReceivedErrorResponse response);;
    let* message := lift (get response "message") in
    let* text := lift (Error_message message) in
    reject p (ErrorObject PlainError text).

(** *** [EventEmitter] *)

(** The wrapper that [once] puts around a callback takes itself out of
    the list when it is called.  It is the first [once] registration of
    the callback there: the wrappers in front of it were called before it
    and are gone.  An event that loses its last listener is forgotten.
    The ["removeListener"] event the emitter emits on its own behalf is
    not modelled. *)
Fixpoint remove_once (id : nat) (ls : list Listener) : list Listener :=
  match ls with
  | [] => []
  | l :: rest =>
      if listener_once l && bool_decide (listener_id l = id) then rest
      else l :: remove_once id rest
  end.

Definition drop_once (type : jsstring) (id : nat)
  (emitter : gmap jsstring (list Listener)) : gmap jsstring (list Listener) :=
  match emitter !! type with
  | Some ls =>
      match remove_once id ls with
      | [] => delete type emitter
      | ls' => <[type := ls']> emitter
      end
  | None => emitter
  end.

Definition remove_listener (type : jsstring) (id : nat) (c : Client) : Client :=
  set_eventEmitter (drop_once type id (eventEmitter c)) c.

Definition record_call (k : Call) (c : Client) : Client :=
  set_calls (calls c ++ [k]) c.

(** The listeners registered when [emit] starts are called in order; a
    [once] listener is removed just before it is called; the first
    listener that throws ends the emission. *)
Fixpoint call_listeners (type : jsstring) (ls : list Listener) (arg : option value)
  : JSM unit :=
  match ls with
  | [] => ret tt
  | l :: rest =>
      (if listener_once l then modify (remove_listener type (listener_id l)) else ret tt);;
      modify (record_call (ListenerCalled (listener_id l) arg));;
      match listener_fn l arg with
      | Some e => throw e
      | None => call_listeners type rest arg
      end
  end.

(** [emitter.emit(type, arg)].  An ["error"] event without listeners
    throws. *)
Definition emit (type : option value) (arg : option value) : JSM bool :=
  let* listeners := gets (fun c => Map_get_str (eventEmitter c) type) in
  match listeners with
  | Some (l :: ls) =>
      match type with
      | Some (Str t) => call_listeners t (l :: ls) arg;; ret true
      | _ => ret true
      end
  | _ =>
      if is_string type "error" then throw (new_Error "Unhandled error.")
      else ret false
  end.

Definition push_reply (message : value) (o : HandlerOutcome) (c : Client) : Client :=
  set_replies (replies c ++ [(message, o)]) c.

(** The branches of [handleMessage]. *)

Definition on_unmatched (message : value) : JSM unit :=
  let* command := lift (get message "command") in
  let* request_seq := lift (get message "request_seq") in
  lift (interpolations [command; request_seq]);;
  log (LogUnmatchedResponse message).

Definition on_response (message : value) : JSM unit :=
  let* request_seq := lift (get message "request_seq") in
  let* callback := gets (fun c => Map_get (pendingRequests c) request_seq) in
  match callback with
  | Some p =>
      modify (fun c => set_pendingRequests (Map_delete (pendingRequests c) request_seq) c);;
      pending_callback p message
  | None => on_unmatched message
  end.

Definition on_event (message : value) : JSM unit :=
  let* event := lift (get message "event") in
  let* seq := lift (get message "seq") in
  lift (interpolations [event; seq]);;
  log (LogReceivedEvent message);;
  let* body := lift (get message "body") in
  emit event body;;
  ret tt.

Definition on_request (message : value) : JSM unit :=
  let* command := lift (get message "command") in
  let* handler := gets (fun c => Map_get_str (reverseRequestHandlers c) command) in
  let* seq := lift (get message "seq") in
  match handler with
  | Some h =>
      lift (interpolations [command; seq]);;
      log (LogReceivedRequest message);;
      let* arguments := lift (get message "arguments") in
      modify (record_call (HandlerCalled (handler_id h) arguments));;
      modify (push_reply message (handler_fn h arguments))
  | None =>
      lift (interpolations [command; seq]);;
      log (LogNoHandler message)
  end.

Definition on_unknown (message : value) : JSM unit :=
  let* type := lift (get message "type") in
  lift (interpolations [type]);;
  log (LogUnknownType message).

Definition handleMessage (message : value) : JSM unit :=
  let* is_response := lift (Protocol.isResponse message) in
  if is_response then on_response message
  else
    let* is_event := lift (Protocol.isEvent message) in
    if is_event then on_event message
    else
      let* is_request := lift (Protocol.isRequest message) in
      if is_request then on_request message
      else on_unknown message.

Section Abstract.

(** [protected abstract sendMessage(message): void] *)
Variable sendMessage : value -> JSM unit.

Definition sendRequest (command : jsstring) (args : option value) : JSM nat :=
  let* seq := getNextSeq in
  let request :=
    Obj ([(js "seq", Num (Int seq)); (js "type", Str (js "request"));
          (js "command", Str command)] ++ opt_field "arguments" args) in
  log (LogSendingRequest request);;
  let* responsePromise := new_Promise in
  modify (fun c =>
    set_pendingRequests (<[Int seq := responsePromise]> (pendingRequests c)) c);;
  sendMessage request;;
  ret responsePromise.

Definition sendResponse (request : value) (responseBody : option value) : JSM unit :=
  let* seq := getNextSeq in
  let* command := lift (get request "command") in
  let* request_seq := lift (get request "seq") in
  let response :=
    Obj ([(js "type", Str (js "response")); (js "seq", Num (Int seq))]
           ++ opt_field "command" command
           ++ opt_field "request_seq" request_seq
           ++ [(js "success", Bool true)]
           ++ opt_field "body" responseBody) in
  lift (interpolations [command]);;
  log (LogSendingResponse response);;
  sendMessage response.

Definition sendErrorResponse (request : value) (message error : option value)
  : JSM unit :=
  let* seq := getNextSeq in
  let* command := lift (get request "command") in
  let* request_seq := lift (get request "seq") in
  let response :=
    Obj ([(js "type", Str (js "response")); (js "seq", Num (Int seq))]
           ++ opt_field "command" command
           ++ opt_field "request_seq" request_seq
           ++ [(js "success", Bool false)]
           ++ opt_field "message" message
           ++ [(js "body", Obj (opt_field "error" error))]) in
  lift (interpolations [command; message]);;
  log (LogSendingErrorResponse response);;
  sendMessage response.

End Abstract.

End Logging.

(** [onEvent(event, callback, once)]. *)
Definition onEvent (event : jsstring) (callback : Listener) : JSM unit :=
  modify (fun c =>
    set_eventEmitter
      (<[event := default [] (eventEmitter c !! event) ++ [callback]]> (eventEmitter c)) c).

(** [onReverseRequest(command, callback)]. *)
Definition onReverseRequest (command : jsstring) (callback : ReverseRequestHandler)
  : JSM unit :=
  modify (fun c =>
    set_reverseRequestHandlers (<[command := callback]> (reverseRequestHandlers c)) c).

End BaseDebugClient.

(** ** [src/stream-debug-client.ts] *)

Module StreamDebugClient.

Definition not_connected : thrown := new_Error "not connected".

Definition connectAdapter (readable writable : nat) : JSM unit :=
  let* connection := gets connection in
  match connection with
  | Some _ => throw (new_Error "already connected")
  | None =>
      modify (set_connection
                (Some {| outStream := writable; inStream := readable |}))
  end.

Section Logging.

Context `{Logger}.

Definition disconnectAdapter : JSM unit :=
  let* connection := gets connection in
  match connection with
  | Some _ =>
      BaseDebugClient.log LogDisconnecting;;
      modify (set_connection None);;
      modify (set_buffer (Buffer.alloc 0));;
      modify (set_contentLength (Int (-1)))
  | None => ret tt
  end.

Definition sendMessage (message : value) : JSM unit :=
  let* connection := gets connection in
  match connection with
  | None => throw not_connected
  | Some k =>
      modify (fun c =>
        set_written (written c ++ [(outStream k, Protocol.encodeMessage message)]) c)
  end.

Definition sendRequest (command : jsstring) (args : option value) : JSM nat :=
  let* connection := gets connection in
  match connection with
  | None => throw not_connected
  | Some _ => BaseDebugClient.sendRequest sendMessage command args
  end.

Definition sendResponse (request : value) (responseBody : option value) : JSM unit :=
  let* connection := gets connection in
  match connection with
  | None => throw not_connected
  | Some _ => BaseDebugClient.sendResponse sendMessage request responseBody
  end.

Definition sendErrorResponse (request : value) (message error : option value)
  : JSM unit :=
  let* connection := gets connection in
  match connection with
  | None => throw not_connected
  | Some _ => BaseDebugClient.sendErrorResponse sendMessage request message error
  end.

(** [JSON.parse(body)] throws a SyntaxError on a text that is not JSON. *)
Definition JSON_parse (text : jsstring) : JSM value :=
  match JSON.parse text with
  | Some v => ret v
  | None => throw (ErrorObject SyntaxError (js "Unexpected token in JSON"))
  end.

(** The [for] loop over the header lines: the last [Content-Length] line
    decides. *)
Fixpoint read_header_lines (lines : list jsstring) : JSM unit :=
  match lines with
  | [] => ret tt
  | line :: more =>
      let pair := split_colon_spaces line in
      (if bool_decide (pair !! 0%nat = Some Protocol.CONTENT_LENGTH_HEADER)
       then modify (set_contentLength (ToNumber (pair !! 1%nat)))
       else ret tt);;
      read_header_lines more
  end.

(** [this.handleMessage(JSON.parse(body))]; the decoded message is noted in
    the trace before it is handled. *)
Definition parse_and_handle (body : jsstring) : JSM unit :=
  let* message := JSON_parse body in
  modify (BaseDebugClient.record_call (Decoded message));;
  BaseDebugClient.handleMessage message.

(** The block [if (body.length > 0) { try { ... } catch (e) { ... } }]. *)
Definition handle_body (body : jsstring) : JSM unit :=
  if (0 <? length body)%nat then
    try_catch (parse_and_handle body)
      (fun e => BaseDebugClient.log (LogErrorHandlingMessage body e))
  else ret tt.

(** One turn of the [for (;;)] loop of [handleData]: [true] for
    [continue], [false] for [break]. *)
Definition iteration : JSM bool :=
  let* contentLength := gets contentLength in
  let* buffer := gets buffer in
  if ge0 contentLength then
    if int_ge (Z.of_nat (length buffer)) contentLength then
      let body := Buffer.toString buffer contentLength in
      modify (set_buffer (Buffer.slice buffer contentLength));;
      modify (set_contentLength (Int (-1)));;
      handle_body body;;
      ret true
    else ret false
  else
    let idx := Buffer.indexOf buffer Protocol.TWO_CRLF in
    if negb (idx =? -1) then
      let header := Buffer.toString buffer (Int idx) in
      let lines := split header [13; 10]%N in
      read_header_lines lines;;
      modify (set_buffer
                (Buffer.slice buffer (Int (idx + Z.of_nat (length Protocol.TWO_CRLF)))));;
      ret true
    else ret false.

Fixpoint loop (fuel : nat) : JSM unit :=
  match fuel with
  | O => ret tt
  | S f =>
      let* continue := iteration in
      if continue then loop f else ret tt
  end.

(** Every turn that continues either removes a header (at least four
    bytes) or turns an expected length into none, so this many turns
    suffice; see [loop_fuel]. *)
Definition turns (c : Client) : nat :=
  2 * length (buffer c) + (if ge0 (contentLength c) then 1 else 0).

Definition handleData (data : list byte) : JSM unit :=
  modify (fun c => set_buffer (Buffer.concat [buffer c; data]) c);;
  fun c => loop (S (turns c)) c.

(** The promise chain [handler(args).then(...).catch(...)] of
    [handleMessage], run when the handler's promise is settled.  [this]
    is a [StreamDebugClient], so [sendResponse] and [sendErrorResponse]
    are the ones above. *)
Definition run_reply (message : value) (o : HandlerOutcome) : JSM unit :=
  match o with
  | Fulfils success =>
      try_catch (sendResponse message success)
        (fun error =>
           let* m := lift (message_of error) in
           sendErrorResponse message m None)
  | Rejects error =>
      let* m := lift (message_of error) in
      sendErrorResponse message m None
  end.

(** The oldest promise chain that has not run yet runs. *)
Definition settle_reply : JSM unit :=
  let* pending := gets replies in
  match pending with
  | [] => ret tt
  | (message, o) :: more => modify (set_replies more);; run_reply message o
  end.

End Logging.

(** [new StreamDebugClient({ logLevel })]. *)
Definition new (level : LogLevel) : Client :=
  {| logLevel := level; nextSeq := 1; pendingRequests := ∅;
     reverseRequestHandlers := ∅; eventEmitter := ∅; connection := None;
     buffer := Buffer.alloc 0; contentLength := Int (-1);
     promises := []; logged := []; written := []; calls := []; replies := [] |}.

End StreamDebugClient.

(** ** The [Unsubscribable] objects

    [onEvent] and [onReverseRequest] return an object whose [unsubscribe]
    undoes the registration.  A callback is known by its identity
    ([listener_id], [handler_id]), which is what [off] and [===] compare. *)

(** The list without the last registration of the callback [id], if there
    is one. *)
Fixpoint remove_last (id : nat) (ls : list Listener) : option (list Listener) :=
  match ls with
  | [] => None
  | l :: rest =>
      match remove_last id rest with
      | Some rest' => Some (l :: rest')
      | None => if decide (listener_id l = id) then Some rest else None
      end
  end.

(** [emitter.off(type, listener)]: the most recently added registration of
    the listener for [type] is removed; an event that loses its last
    listener is forgotten. *)
Definition off (type : jsstring) (id : nat) : JSM unit :=
  modify (fun c =>
    match eventEmitter c !! type with
    | Some ls =>
        match remove_last id ls with
        | Some [] => set_eventEmitter (delete type (eventEmitter c)) c
        | Some ls' => set_eventEmitter (<[type := ls']> (eventEmitter c)) c
        | None => c
        end
    | None => c
    end).

(** [unsubscribe: () => this.eventEmitter.off(event, callback)] *)
Definition unsubscribe_event (event : jsstring) (callback : Listener) : JSM unit :=
  off event (listener_id callback).

(** [unsubscribe: () => { if (this.reverseRequestHandlers.get(command) ===
    callback) { this.reverseRequestHandlers.delete(command); } }] *)
Definition unsubscribe_reverse_request (command : jsstring)
  (callback : ReverseRequestHandler) : JSM unit :=
  modify (fun c =>
    match reverseRequestHandlers c !! command with
    | Some h =>
        if decide (handler_id h = handler_id callback)
        then set_reverseRequestHandlers (delete command (reverseRequestHandlers c)) c
        else c
    | None => c
    end).

(** ** The logger that returns

    From here on, wherever no logger is named, log lines are written
    without an exception. *)

#[global] Instance returning : Logger := fun _ => None.

(** ** [src/socket-debug-client.ts]

    A [SocketDebugClient] is a [StreamDebugClient] with a connection state
    and a socket of its own.  [connectAdapter] is an [async] method that
    waits for the socket to connect, so it is given in the pieces in which
    it runs: the part up to the [await], and what the socket's [connect]
    and [error] events set off.  The rest of the method behind the
    [await] is taken to run as soon as the promise it waits on is settled,
    with nothing in between.  [net.createConnection] is taken to return a
    socket; which host and port it is given is not modelled.  The sockets
    are numbered in the order of their making; each stands for both
    streams of the connection, and [sockets] keeps, per socket, the state
    of the promise that waits for it.  The lines this class gives to the
    logger are kept in a trace of their own, and the logger is taken to
    return. *)

Inductive ConnectionState := Disconnected | Connecting | Connected.

(** The promise [connectAdapter] waits on. *)
Inductive Attempt :=
  | Waiting
  | Succeeded
  | Failed (e : thrown).

Inductive SocketLogEntry :=
  | LogConnecting
  | LogSocketError (e : thrown)
  | LogConnected.

Record SocketClient := mkSocketClient {
  base : Client; (* the fields of [StreamDebugClient] and [BaseDebugClient] *)
  state : ConnectionState;
  socket : option nat;
  sockets : list Attempt; (* the sockets made so far *)
  destroyed : list nat; (* [socket.destroy()] calls *)
  socket_logged : list SocketLogEntry
}.

Definition set_base (x : Client) (s : SocketClient) : SocketClient :=
  {| base := x; state := state s; socket := socket s; sockets := sockets s;
     destroyed := destroyed s; socket_logged := socket_logged s |}.

Definition set_state (x : ConnectionState) (s : SocketClient) : SocketClient :=
  {| base := base s; state := x; socket := socket s; sockets := sockets s;
     destroyed := destroyed s; socket_logged := socket_logged s |}.

Definition set_socket (x : option nat) (s : SocketClient) : SocketClient :=
  {| base := base s; state := state s; socket := x; sockets := sockets s;
     destroyed := destroyed s; socket_logged := socket_logged s |}.

Definition set_sockets (x : list Attempt) (s : SocketClient) : SocketClient :=
  {| base := base s; state := state s; socket := socket s; sockets := x;
     destroyed := destroyed s; socket_logged := socket_logged s |}.

Definition set_destroyed (x : list nat) (s : SocketClient) : SocketClient :=
  {| base := base s; state := state s; socket := socket s; sockets := sockets s;
     destroyed := x; socket_logged := socket_logged s |}.

Definition set_socket_logged (x : list SocketLogEntry) (s : SocketClient)
  : SocketClient :=
  {| base := base s; state := state s; socket := socket s; sockets := sockets s;
     destroyed := destroyed s; socket_logged := x |}.

Module SocketDebugClient.

(** [ConnectionState[state]]: the name of a member of the enum. *)
Definition state_name (s : ConnectionState) : string :=
  match s with
  | Disconnected => "Disconnected"
  | Connecting => "Connecting"
  | Connected => "Connected"
  end.

(** [this.log(...)] called from this class. *)
Definition log (entry : SocketLogEntry) (s : SocketClient) : SocketClient :=
  match logLevel (base s) with
  | Off => s
  | _ => set_socket_logged (socket_logged s ++ [entry]) s
  end.

(** The [finally] block of [connectAdapter]. *)
Definition finally (s : SocketClient) : SocketClient :=
  match state s with
  | Connecting => set_state Disconnected s
  | _ => s
  end.

(** An inherited method runs on the inherited fields. *)
Definition inherited {A} (m : JSM A) (s : SocketClient) : result A * SocketClient :=
  (fst (m (base s)), set_base (snd (m (base s))) s).

(** [connectAdapter()] up to its [await].  [Normal n]: socket [n] has been
    made and the returned promise waits for it; [Throw e]: the promise is
    rejected with [e]. *)
Definition connectAdapter (s : SocketClient) : result nat * SocketClient :=
  match state s with
  | Disconnected =>
      let s1 := set_state Connecting (log LogConnecting s) in
      (Normal (length (sockets s1)), set_sockets (sockets s1 ++ [Waiting]) s1)
  | other =>
      (Throw (ErrorObject PlainError
                (js "already '" ++ js (state_name other) ++ js "'")),
       finally s)
  end.

(** Socket [n] connects: the callback given to [net.createConnection]
    runs, and if the promise was still waiting, the rest of
    [connectAdapter] behind the [await] with it.  [Throw e]: the callback
    threw. *)
Definition on_connect (n : nat) (s : SocketClient) : result unit * SocketClient :=
  match inherited (StreamDebugClient.connectAdapter n n) s with
  | (Throw e, s1) => (Throw e, s1)
  | (Normal _, s1) =>
      match sockets s1 !! n with
      | Some Waiting =>
          let s2 := set_socket (Some n) (set_sockets (<[n := Succeeded]> (sockets s1)) s1) in
          (Normal tt, finally (set_state Connected (log LogConnected s2)))
      | _ => (Normal tt, s1)
      end
  end.

(** Socket [n] emits ["error"] with an [Error] of the given message: the
    listener logs and rejects, and if the promise was still waiting, the
    [await] throws and the [finally] block runs. *)
Definition on_error (n : nat) (message : jsstring) (s : SocketClient) : SocketClient :=
  let e := ErrorObject PlainError message in
  let s1 := log (LogSocketError e) s in
  match sockets s1 !! n with
  | Some Waiting => finally (set_sockets (<[n := Failed e]> (sockets s1)) s1)
  | _ => s1
  end.

Definition disconnectAdapter (s : SocketClient) : result unit * SocketClient :=
  match socket s with
  | Some n =>
      match inherited StreamDebugClient.disconnectAdapter s with
      | (Throw e, s1) => (Throw e, s1)
      | (Normal _, s1) =>
          (Normal tt, set_socket None (set_destroyed (destroyed s1 ++ [n]) s1))
      end
  | None => (Normal tt, s)
  end.

Definition sendRequest (command : jsstring) (args : option value) (s : SocketClient)
  : result nat * SocketClient :=
  match state s with
  | Connected => inherited (StreamDebugClient.sendRequest command args) s
  | _ => (Throw StreamDebugClient.not_connected, s)
  end.

(** [new SocketDebugClient({ port, host, logLevel })]. *)
Definition new (level : LogLevel) : SocketClient :=
  {| base := StreamDebugClient.new level; state := Disconnected; socket := None;
     sockets := []; destroyed := []; socket_logged := [] |}.

End SocketDebugClient.

(** * Notions used in the statements *)

Import StreamDebugClient.
Local Open Scope jsm_scope.

(** ** The decode state and the decode loop

    The two fields of the decode state taken together, what a turn of the
    loop leaves behind, and the loop run to its end. *)

Definition with_stream (b : list byte) (n : number) (c : Client) : Client :=
  set_contentLength n (set_buffer b c).

Definition stream_indep {A} (m : JSM A) : Prop :=
  forall c b n, m (with_stream b n c) = (fst (m c), with_stream b n (snd (m c))).

(** The state a turn leaves behind when it takes one message body out of
    the buffer, and when it takes a header out. *)
Definition after_body (c : Client) : Client :=
  snd (handle_body (Buffer.toString (buffer c) (contentLength c))
         (with_stream (Buffer.slice (buffer c) (contentLength c)) (Int (-1)) c)).

Definition header_end (c : Client) : Z := Buffer.indexOf (buffer c) Protocol.TWO_CRLF.

Definition after_header (c : Client) : Client :=
  set_buffer
    (Buffer.slice (buffer c) (Int (header_end c + 4)))
    (snd (read_header_lines
            (split (Buffer.toString (buffer c) (Int (header_end c))) [13; 10]%N) c)).

(** The whole number of bytes a non-negative length that fits in [len]
    bytes stands for. *)
Definition whole (n : number) : nat :=
  match trunc n with
  | Int z => Z.to_nat z
  | _ => O
  end.

(** The loop run to its [break]. *)
Definition drain : JSM unit := fun c => loop (S (turns c)) c.

(** The bytes of a chunk arrive. *)
Definition append (data : list byte) (c : Client) : Client :=
  set_buffer (buffer c ++ data) c.

(** Chunks delivered one after another. *)
Definition feed (chunks : list (list byte)) (c : Client) : Client :=
  fold_left (fun c data => snd (handleData data c)) chunks c.

(** ** Frames

    Headers as [encodeMessage] writes them and byte sequences built from
    them. *)

Definition ascii (s : jsstring) : Prop := Forall (fun u => (u < 128)%N) s.

Definition numeral (s : jsstring) : Prop := Forall (fun u => (48 <= u <= 57)%N) s.

(** The value of digits given least significant first. *)
Definition value_rev (ds : list N) : N :=
  fold_right (fun d acc => (acc * 10 + d)%N) 0%N ds.

(** The header [encodeMessage] writes for a length. *)
Definition header_text (n : N) : jsstring :=
  Protocol.CONTENT_LENGTH_HEADER ++ js ": " ++ decimal n.

(** ASCII text without a carriage return. *)
Definition one_line (s : jsstring) : Prop :=
  Forall (fun u => (u < 128)%N /\ u <> 13%N) s.

Definition crlf_crlf : list byte := [x0d; x0a; x0d; x0a].

(** A payload behind the header that announces its length in bytes. *)
Definition frame (payload : list byte) : list byte :=
  map byte_of_N (header_text (N.of_nat (length payload))) ++ crlf_crlf ++ payload.

(** Payloads handled one after another by the [try]/[catch] block. *)
Definition deliver `{Logger} (payloads : list (list byte)) (c : Client) : Client :=
  fold_left (fun c payload => snd (handle_body (utf8_decode payload) c)) payloads c.

(** Two computations that do the same in every state. *)
Definition agree {A} (m m' : JSM A) : Prop := forall c, m c = m' c.

(** The bytes [sendMessage] puts on the stream for a message. *)
Definition wire (message : value) : list byte :=
  utf8_encode (Protocol.encodeMessage message).

(** The wire format as the specification words it: the header carries the
    number of bytes of the UTF-8 encoding of the body. *)
Definition encode_with_byte_length (message : value) : jsstring :=
  let body := JSON.stringify message in
  header_text (N.of_nat (utf8_length body)) ++ Protocol.TWO_CRLF ++ body.

(** ** Kinds of messages *)

Inductive Kind := Response | Event | Request | Unknown.

(** The order in which [handleMessage] asks [isResponse], [isEvent] and
    [isRequest]. *)
Definition classify (message : value) : result Kind :=
  match Protocol.isResponse message with
  | Throw e => Throw e
  | Normal true => Normal Response
  | Normal false =>
      match Protocol.isEvent message with
      | Throw e => Throw e
      | Normal true => Normal Event
      | Normal false =>
          match Protocol.isRequest message with
          | Throw e => Throw e
          | Normal true => Normal Request
          | Normal false => Normal Unknown
          end
      end
  end.

(** A property of a message that is not [null]. *)
Definition field (message : value) (k : string) : option value :=
  match message with
  | Obj fs => assoc (js k) fs
  | _ => None
  end.

Definition is_number (v : option value) : bool := tag_eqb (typeof v) TNumber.
Definition is_boolean (v : option value) : bool := tag_eqb (typeof v) TBoolean.
Definition is_a_string (v : option value) : bool := tag_eqb (typeof v) TString.

Definition is_integer (v : option value) : bool :=
  match v with
  | Some (Num (Int _)) => true
  | _ => false
  end.

(** The classifier of the specification: it asks for integers. *)
Definition classify_integers (message : value) : Kind :=
  if is_string (field message "type") "response"
     && is_integer (field message "request_seq")
     && is_boolean (field message "success")
  then Response
  else if is_string (field message "type") "event"
          && is_a_string (field message "event")
          && is_integer (field message "seq")
  then Event
  else if is_string (field message "type") "request"
          && is_a_string (field message "command")
          && is_integer (field message "seq")
  then Request
  else Unknown.

(** What the code checks: numbers, whole or not. *)
Definition classify_numbers (message : value) : Kind :=
  if is_string (field message "type") "response"
     && is_number (field message "request_seq")
     && is_boolean (field message "success")
  then Response
  else if is_string (field message "type") "event"
          && is_a_string (field message "event")
          && is_number (field message "seq")
  then Event
  else if is_string (field message "type") "request"
          && is_a_string (field message "command")
          && is_number (field message "seq")
  then Request
  else Unknown.

(** ** The life of a client *)

Definition grows (c c' : Client) : Prop :=
  nextSeq c <= nextSeq c' /\
  forall k p, pendingRequests c' !! k = Some p ->
    pendingRequests c !! k = Some p \/
    exists z, k = Int z /\ nextSeq c <= z < nextSeq c'.

Definition evolves {A} (m : JSM A) : Prop := forall c, grows c (snd (m c)).

(** What [sendRequest] does on a connected client, step by step. *)
Definition request_of (seq : Z) (command : jsstring) (args : option value) : value :=
  Obj ([(js "seq", Num (Int seq)); (js "type", Str (js "request"));
        (js "command", Str command)] ++ opt_field "arguments" args).

Definition after_sendRequest (k : Connection) (command : jsstring)
  (args : option value) (c : Client) : Client :=
  let request := request_of (nextSeq c) command args in
  let c1 := snd (BaseDebugClient.log (LogSendingRequest request)
                   (set_nextSeq (nextSeq c + 1) c)) in
  set_written (written c1 ++ [(outStream k, Protocol.encodeMessage request)])
    (set_pendingRequests (<[Int (nextSeq c) := length (promises c)]> (pendingRequests c))
       (set_promises (promises c ++ [Pending]) c1)).

(** Writing one message on the output stream of connection [k], after a
    sequence number has been taken and the logger told. *)
Definition after_send (k : Connection) (entry : LogEntry) (message : value)
  (c : Client) : Client :=
  let c1 := snd (BaseDebugClient.log entry (set_nextSeq (nextSeq c + 1) c)) in
  set_written (written c1 ++ [(outStream k, Protocol.encodeMessage message)]) c1.

Inductive action :=
  | Connect (readable writable : nat)
  | Disconnect
  | SendRequest (command : jsstring) (args : option value)
  | SendResponse (request : value) (body : option value)
  | SendErrorResponse (request : value) (message error : option value)
  | SendMessage (message : value)
  | OnEvent (event : jsstring) (listener : Listener)
  | OnReverseRequest (command : jsstring) (handler : ReverseRequestHandler)
  | Data (chunk : list byte)
  | HandleMessage (message : value)
  | SettleReply.

Definition perform (a : action) (c : Client) : Client :=
  match a with
  | Connect r w => snd (connectAdapter r w c)
  | Disconnect => snd (disconnectAdapter c)
  | SendRequest command args => snd (sendRequest command args c)
  | SendResponse request body => snd (sendResponse request body c)
  | SendErrorResponse request message error =>
      snd (sendErrorResponse request message error c)
  | SendMessage message => snd (sendMessage message c)
  | OnEvent event l => snd (BaseDebugClient.onEvent event l c)
  | OnReverseRequest command h => snd (BaseDebugClient.onReverseRequest command h c)
  | Data chunk => snd (handleData chunk c)
  | HandleMessage message => snd (BaseDebugClient.handleMessage message c)
  | SettleReply => snd (settle_reply c)
  end.

Definition perform_all (actions : list action) (c : Client) : Client :=
  fold_left (fun c a => perform a c) actions c.

Definition reachable (c : Client) : Prop :=
  exists level actions, c = perform_all actions (new level).

Definition pending_sound (c : Client) : Prop :=
  forall k p, pendingRequests c !! k = Some p ->
    promises c !! p = Some Pending /\
    forall k', pendingRequests c !! k' = Some p -> k' = k.

(** A computation that leaves the table of pending requests and the
    promises alone. *)
Definition same_table {A} (m : JSM A) : Prop :=
  forall c, pendingRequests (snd (m c)) = pendingRequests c /\
            promises (snd (m c)) = promises c.

Definition keeps_sound {A} (m : JSM A) : Prop :=
  forall c, pending_sound c -> pending_sound (snd (m c)).

(** ** Requests and responses *)

(** [message] passes [isResponse] and its [request_seq] is [seq]. *)
Definition response_for (message : value) (seq : option value) : Prop :=
  Protocol.isResponse message = Normal true /\
  get message "request_seq" = Normal seq.

(** A value that a template string can take: converting it to a string
    does not throw.  Every value is printable but an object that has a
    property named [toString], and an array that holds such an object. *)
Definition printable (x : option value) : bool :=
  match interpolate x with
  | Normal _ => true
  | Throw _ => false
  end.

(** Handling [response] in [c] settles promise [p], provided the
    [command] of the response is printable: fulfilled with the [body] when
    [success] is [true], rejected with an Error made from the [message]
    when it is [false] and the message can be converted to a string. *)
Definition settles (c : Client) (p : nat) (response : value) : Prop :=
  printable (field response "command") = true ->
  (forall body,
     get response "success" = Normal (Some (Bool true)) ->
     get response "body" = Normal body ->
     fst (BaseDebugClient.handleMessage response c) = Normal tt /\
     promises (snd (BaseDebugClient.handleMessage response c)) !! p
     = Some (Fulfilled body)) /\
  (forall message text,
     get response "success" = Normal (Some (Bool false)) ->
     get response "message" = Normal message ->
     Error_message message = Normal text ->
     fst (BaseDebugClient.handleMessage response c) = Normal tt /\
     promises (snd (BaseDebugClient.handleMessage response c)) !! p
     = Some (Rejected (ErrorObject PlainError text))).

(** The responses [sendResponse] and [sendErrorResponse] build. *)
Definition success_response_of (seq : Z) (command request_seq body : option value)
  : value :=
  Obj ([(js "type", Str (js "response")); (js "seq", Num (Int seq))]
         ++ opt_field "command" command
         ++ opt_field "request_seq" request_seq
         ++ [(js "success", Bool true)]
         ++ opt_field "body" body).

Definition error_response_of (seq : Z) (command request_seq message error : option value)
  : value :=
  Obj ([(js "type", Str (js "response")); (js "seq", Num (Int seq))]
         ++ opt_field "command" command
         ++ opt_field "request_seq" request_seq
         ++ [(js "success", Bool false)]
         ++ opt_field "message" message
         ++ [(js "body", Obj (opt_field "error" error))]).

(** Invoking handler [h] for [message] and keeping its promise chain. *)
Definition push_reply_of (message : value) (h : ReverseRequestHandler) (c : Client)
  : Client :=
  BaseDebugClient.push_reply message (handler_fn h (field message "arguments"))
    (BaseDebugClient.record_call
       (HandlerCalled (handler_id h) (field message "arguments")) c).

(** The claim that disconnecting clears every piece of connection state. *)
Definition disconnect_clears_everything (c : Client) : Prop :=
  let c' := snd (disconnectAdapter c) in
  buffer c' = [] /\ contentLength c' = Int (-1) /\
  pendingRequests c' = ∅ /\ nextSeq c' = 1.

(** ** Example clients and messages *)

(** A client that has connected and sent one request. *)
Definition one_request_sent : Client :=
  snd (sendRequest (js "threads") None (snd (connectAdapter 0 1 (new Off)))).

(** A response whose [request_seq] is 1.5. *)
Definition response_one_and_a_half : value :=
  Obj [(js "type", Str (js "response")); (js "seq", Num (Int 1));
       (js "request_seq", Num (Dec 15 1)); (js "success", Bool true)].

(** A success response whose [command] is an object that cannot be
    converted to a string, and a failure response whose [message] is. *)
Definition unprintable_response (request_seq : Z) : value :=
  Obj [(js "seq", Num (Int 1)); (js "type", Str (js "response"));
       (js "request_seq", Num (Int request_seq)); (js "success", Bool true);
       (js "command", Obj [(js "toString", Num (Int 0))]);
       (js "body", Obj [(js "x", Num (Int 1))])].

Definition unprintable_failure (request_seq : Z) : value :=
  Obj [(js "seq", Num (Int 1)); (js "type", Str (js "response"));
       (js "request_seq", Num (Int request_seq)); (js "success", Bool false);
       (js "command", Str (js "foo"));
       (js "message", Obj [(js "toString", Num (Int 0))])].

(** The responses of the specification's example: success with body
    [{x: 1}], failure with message "bad". *)
Definition success_response (request_seq : Z) : value :=
  Obj [(js "seq", Num (Int 1)); (js "type", Str (js "response"));
       (js "request_seq", Num (Int request_seq)); (js "success", Bool true);
       (js "command", Str (js "foo")); (js "body", Obj [(js "x", Num (Int 1))])].

Definition failure_response (request_seq : Z) : value :=
  Obj [(js "seq", Num (Int 1)); (js "type", Str (js "response"));
       (js "request_seq", Num (Int request_seq)); (js "success", Bool false);
       (js "command", Str (js "foo")); (js "message", Str (js "bad"))].

(** A "stopped" event and a listener for it that throws. *)
Definition stopped_event : value :=
  Obj [(js "seq", Num (Int 3)); (js "type", Str (js "event"));
       (js "event", Str (js "stopped"));
       (js "body", Obj [(js "reason", Str (js "breakpoint"))])].

Definition throwing_listener : Listener :=
  {| listener_id := 7; listener_once := false;
     listener_fn := fun _ => Some (new_Error "boom") |}.

Definition listening : Client :=
  snd (BaseDebugClient.onEvent (js "stopped") throwing_listener one_request_sent).

(** The request [{"seq":1,"type":"request","command":"é"}]. *)
Definition e_acute_request : value := request_of 1 [233%N] None.

(** The specification's example of a reverse request: a handler for
    "runInTerminal" that answers [{processId: 123}]. *)
Definition terminal_handler : ReverseRequestHandler :=
  {| handler_id := 0;
     handler_fn := fun _ => Fulfils (Some (Obj [(js "processId", Num (Int 123))])) |}.

Definition runInTerminal_request : value :=
  Obj [(js "seq", Num (Int 5)); (js "type", Str (js "request"));
       (js "command", Str (js "runInTerminal"));
       (js "arguments", Obj [(js "cwd", Str (js "/tmp"))])].

Definition serving : Client :=
  snd (BaseDebugClient.onReverseRequest (js "runInTerminal") terminal_handler
         (snd (connectAdapter 0 1 (new Off)))).

(** A connected client, and the same after [sendRequest("foo")]. *)
Definition connected : Client := snd (connectAdapter 0 1 (new Off)).

Definition foo_sent : Client := snd (sendRequest (js "foo") None connected).

(** [one_request_sent] after the response to its request has been handled
    and one more request sent. *)
Definition after_first_response : Client :=
  perform_all [SendRequest (js "next") None]
    (snd (BaseDebugClient.handleMessage (success_response 1) one_request_sent)).

(** The bytes of an encoded response, whole and cut in three. *)
Definition response_bytes : list byte := wire (success_response 1).

Definition response_chunks : list (list byte) :=
  [take 10 response_bytes; take 30 (drop 10 response_bytes); drop 40 response_bytes].

(** Three payloads: text that is not JSON, an event whose listener throws,
    and a response. *)
Definition mixed_payloads : list (list byte) :=
  [utf8_encode (js "{oops");
   utf8_encode (JSON.stringify stopped_event);
   utf8_encode (JSON.stringify (success_response 1))].

(** [serving] after the reverse request has been handled. *)
Definition request_received : Client :=
  snd (BaseDebugClient.handleMessage runInTerminal_request serving).

(** A connected client that logs, after the bytes of [e_acute_request]
    arrived as one chunk. *)
Definition e_acute_received : Client :=
  snd (handleData (wire e_acute_request) (snd (connectAdapter 0 1 (new On)))).

(** ** JSON texts

    The values [JSON.stringify] and [JSON.parse] agree on: [null],
    booleans, integers below [10^21] in absolute value, strings, and arrays
    and objects of such values where no object has a key twice.  [ok] is
    what is asked of every string and key. *)

Definition code_units (s : jsstring) : Prop := Forall (fun u => (u < 65536)%N) s.

(** What may follow a value inside a text: nothing, a comma or a closing
    bracket. *)
Definition closes (rest : jsstring) : Prop :=
  match rest with
  | [] => True
  | c :: _ => c = 44%N \/ c = 93%N \/ c = 125%N
  end.

Section WellFormed.

Variable ok : jsstring -> Prop.

Fixpoint well_formed (v : value) : Prop :=
  match v with
  | Null | Bool _ => True
  | Num n => match n with Int z => Z.abs z < 10 ^ 21 | _ => False end
  | Str s => ok s
  | Arr xs =>
      (fix all (l : list value) : Prop :=
         match l with
         | [] => True
         | x :: r => well_formed x /\ all r
         end) xs
  | Obj fs =>
      NoDup (map fst fs) /\
      (fix all (l : list (jsstring * value)) : Prop :=
         match l with
         | [] => True
         | (k, x) :: r => ok k /\ well_formed x /\ all r
         end) fs
  end.

End WellFormed.

Definition plain : value -> Prop := well_formed code_units.
Definition plain_ascii : value -> Prop := well_formed ascii.

Fixpoint elements_text (l : list value) : jsstring :=
  match l with
  | [] => []
  | x :: r =>
      JSON.stringify x ++ match r with [] => [] | _ => 44%N :: elements_text r end
  end.

Fixpoint members_text (l : list (jsstring * value)) : jsstring :=
  match l with
  | [] => []
  | (k, x) :: r =>
      JSON.quote k ++ 58%N :: JSON.stringify x
        ++ match r with [] => [] | _ => 44%N :: members_text r end
  end.

(** What the round trip says of one value, inside a larger text. *)
Definition reads_back (v : value) : Prop :=
  forall fuel rest,
    (2 * length (JSON.stringify v) <= fuel)%nat -> closes rest ->
    JSON.parse_value fuel (JSON.stringify v ++ rest) = Some (v, rest).

(** Induction on a value, with the hypothesis for every element of an
    array and every property of an object. *)
Section ValueInduction.

Variable P : value -> Prop.
Hypothesis HNull : P Null.
Hypothesis HBool : forall b, P (Bool b).
Hypothesis HNum : forall n, P (Num n).
Hypothesis HStr : forall s, P (Str s).
Hypothesis HArr : forall xs, Forall P xs -> P (Arr xs).
Hypothesis HObj : forall fs, Forall (fun kv => P (snd kv)) fs -> P (Obj fs).

Fixpoint value_induction (v : value) : P v :=
  match v with
  | Null => HNull
  | Bool b => HBool b
  | Num n => HNum n
  | Str s => HStr s
  | Arr xs =>
      HArr xs
        ((fix go (l : list value) : Forall P l :=
            match l with
            | [] => List.Forall_nil P
            | x :: r => @List.Forall_cons _ P x r (value_induction x) (go r)
            end) xs)
  | Obj fs =>
      HObj fs
        ((fix go (l : list (jsstring * value)) : Forall (fun kv => P (snd kv)) l :=
            match l with
            | [] => List.Forall_nil _
            | kv :: r => @List.Forall_cons _ _ kv r (value_induction (snd kv)) (go r)
            end) fs)
  end.

End ValueInduction.

(** ** What a computation leaves alone

    [R c c'] relates a state to a later one.  A computation respects [R]
    when the state it leaves is related to the state it started from.  The
    records say which elementary steps of the client respect [R]: those
    that handling a message takes, those that sending and registering take
    as well, and those that any operation takes. *)

Definition respects {A} (R : Client -> Client -> Prop) (m : JSM A) : Prop :=
  forall c, R c (snd (m c)).

Record dispatch_steps (R : Client -> Client -> Prop) : Prop := {
  step_refl : forall c, R c c;
  step_trans : forall c1 c2 c3, R c1 c2 -> R c2 c3 -> R c1 c3;
  step_log : forall entry c, R c (snd (BaseDebugClient.log entry c));
  step_settle : forall p s c, R c (snd (BaseDebugClient.settle p s c));
  step_pendingRequests : forall x c, R c (set_pendingRequests x c);
  step_eventEmitter : forall x c, R c (set_eventEmitter x c);
  step_calls : forall x c, R c (set_calls x c);
  step_replies : forall x c, R c (set_replies x c);
  step_buffer : forall x c, R c (set_buffer x c);
  step_contentLength : forall x c, R c (set_contentLength x c)
}.

Record send_steps (R : Client -> Client -> Prop) : Prop := {
  steps_dispatch : dispatch_steps R;
  step_nextSeq : forall x c, R c (set_nextSeq x c);
  step_written : forall x c, R c (set_written x c);
  step_reverseRequestHandlers : forall x c, R c (set_reverseRequestHandlers x c);
  step_new_Promise : forall c, R c (snd (BaseDebugClient.new_Promise c))
}.

Record client_steps (R : Client -> Client -> Prop) : Prop := {
  steps_send : send_steps R;
  step_connection : forall x c, R c (set_connection x c)
}.

(** The later state shows the same [f] as the earlier one. *)
Definition unchanged {X} (f : Client -> X) (c c' : Client) : Prop := f c' = f c.

(** What the logger has been given, as far as a client at [LogLevel.Off]
    is concerned. *)
Definition quiet_view (c : Client) : LogLevel * list LogEntry :=
  (logLevel c, match logLevel c with Off => logged c | _ => [] end).

(** Promises that are settled in the earlier state are settled the same
    way in the later one. *)
Definition settled_kept (c c' : Client) : Prop :=
  forall p s, promises c !! p = Some s -> s <> Pending -> promises c' !! p = Some s.

(** ** Events and their listeners *)

(** The listeners registered for an event, oldest first. *)
Definition listeners_of (c : Client) (type : jsstring) : list Listener :=
  default [] (eventEmitter c !! type).

(** No listener is registered for the emitter's own events, which it emits
    when a listener is added or removed. *)
Definition no_meta_listeners (c : Client) : Prop :=
  listeners_of c (js "newListener") = [] /\ listeners_of c (js "removeListener") = [].

(** The listeners an emission calls: all of them up to and including the
    first that throws; and what that one throws. *)
Fixpoint called (ls : list Listener) (arg : option value) : list Listener :=
  match ls with
  | [] => []
  | l :: rest =>
      l :: match listener_fn l arg with
           | Some _ => []
           | None => called rest arg
           end
  end.

Fixpoint first_thrown (ls : list Listener) (arg : option value) : option thrown :=
  match ls with
  | [] => None
  | l :: rest =>
      match listener_fn l arg with
      | Some e => Some e
      | None => first_thrown rest arg
      end
  end.

(** The event emitter after the [once] listeners among [ls] have been
    taken out of the listeners of [type]. *)
Definition without_once (type : jsstring) (ls : list Listener)
  (emitter : gmap jsstring (list Listener)) : gmap jsstring (list Listener) :=
  fold_left
    (fun em l =>
       if listener_once l then BaseDebugClient.drop_once type (listener_id l) em
       else em)
    ls emitter.


(** ** Messages on the stream *)

(** What the decode loop does with one decoded message: it is noted and
    handled inside the [try]/[catch] block. *)
Definition receive (message : value) (c : Client) : Client :=
  snd (try_catch
         (modify (BaseDebugClient.record_call (Decoded message));;
          BaseDebugClient.handleMessage message)
         (fun e => BaseDebugClient.log
                     (LogErrorHandlingMessage (JSON.stringify message) e)) c).

Definition receive_all (messages : list value) (c : Client) : Client :=
  fold_left (fun c message => receive message c) messages c.

(** The bytes of a frame in front of its payload. *)
Definition frame_header (payload : list byte) : list byte :=
  map byte_of_N (header_text (N.of_nat (length payload))) ++ crlf_crlf.

(** ** Headers with several fields *)

(** Header lines with a line break between them. *)
Fixpoint join_lines (lines : list jsstring) : jsstring :=
  match lines with
  | [] => []
  | [line] => line
  | line :: more => line ++ [13; 10]%N ++ join_lines more
  end.

(** A line of ASCII text that is not empty and has no carriage return. *)
Definition header_line (line : jsstring) : Prop := one_line line /\ line <> [].

(** A header line that the decoder does not take for the length: the text
    in front of its first colon-and-spaces is not [Content-Length]. *)
Definition other_field (line : jsstring) : Prop :=
  header_line line /\
  split_colon_spaces line !! 0%nat <> Some Protocol.CONTENT_LENGTH_HEADER.

(** A payload behind a header that has fields in front of and behind its
    [Content-Length] line. *)
Definition frame_with (before after : list jsstring) (payload : list byte)
  : list byte :=
  map byte_of_N
    (join_lines (before ++ [header_text (N.of_nat (length payload))] ++ after))
    ++ crlf_crlf ++ payload.

(** ** Two clients back to back *)

(** An optional argument or body that, if given, is made of integers,
    booleans and ASCII strings. *)
Definition plain_ascii_opt (v : option value) : Prop :=
  match v with
  | Some x => plain_ascii x
  | None => True
  end.

(** ** The life of a socket client *)

(** What can happen to a [SocketDebugClient]: its own three methods, the
    two events of a socket, and everything it inherits.  The inherited
    [connectAdapter], [disconnectAdapter] and [sendRequest] are overridden
    and only reached through the methods of this class. *)
Inductive socket_action :=
  | ConnectAdapter
  | SocketConnects (n : nat)
  | SocketFails (n : nat) (message : jsstring)
  | DisconnectAdapter
  | SocketSendRequest (command : jsstring) (args : option value)
  | Inherited (a : action).

Definition overridden (a : action) : bool :=
  match a with
  | Connect _ _ | Disconnect | SendRequest _ _ => true
  | _ => false
  end.

Definition socket_perform (a : socket_action) (s : SocketClient) : SocketClient :=
  match a with
  | ConnectAdapter => snd (SocketDebugClient.connectAdapter s)
  | SocketConnects n => snd (SocketDebugClient.on_connect n s)
  | SocketFails n message => SocketDebugClient.on_error n message s
  | DisconnectAdapter => snd (SocketDebugClient.disconnectAdapter s)
  | SocketSendRequest command args => snd (SocketDebugClient.sendRequest command args s)
  | Inherited a => if overridden a then s else set_base (perform a (base s)) s
  end.

Definition socket_perform_all (actions : list socket_action) (s : SocketClient)
  : SocketClient :=
  fold_left (fun s a => socket_perform a s) actions s.

Definition socket_reachable (s : SocketClient) : Prop :=
  exists level actions, s = socket_perform_all actions (SocketDebugClient.new level).

(** A connection on socket [n]. *)
Definition on_socket (n : nat) : Connection := {| outStream := n; inStream := n |}.

(** A socket is held only while the state is [Connected] and the
    inherited connection runs over it. *)
Definition socket_in_use (s : SocketClient) : Prop :=
  forall n, socket s = Some n ->
    state s = Connected /\ connection (base s) = Some (on_socket n).

(** ** More example clients *)

(** A session on a client that does not log. *)
Definition session : list action :=
  [Connect 0 1; SendRequest (js "threads") None; Data (wire stopped_event);
   HandleMessage (success_response 1); Disconnect].

(** A later session on a client that has sent "foo". *)
Definition reconnecting : list action :=
  [Disconnect; Connect 2 3; SendRequest (js "bar") None].

(** Three listeners for "stopped": one registered with [once], one that
    throws, and one behind it. *)
Definition once_listener : Listener :=
  {| listener_id := 1; listener_once := true; listener_fn := fun _ => None |}.

Definition late_listener : Listener :=
  {| listener_id := 9; listener_once := false; listener_fn := fun _ => None |}.

Definition watched : Client :=
  perform_all
    [OnEvent (js "stopped") once_listener; OnEvent (js "stopped") throwing_listener;
     OnEvent (js "stopped") late_listener]
    connected.

(** A second handler for "runInTerminal", which refuses. *)
Definition refusing_handler : ReverseRequestHandler :=
  {| handler_id := 1; handler_fn := fun _ => Rejects (new_Error "no terminal") |}.

(** Two requests on the stream, cut in the middle of the first. *)
Definition two_requests : list value :=
  [request_of 1 (js "threads") None; request_of 2 (js "next") None].

Definition two_requests_chunks : list (list byte) :=
  [take 20 (concat (map wire two_requests)); drop 20 (concat (map wire two_requests))].

(** The payload of the "stopped" event. *)
Definition stopped_payload : list byte := utf8_encode (JSON.stringify stopped_event).

(** A client that has read a length and waits for ten bytes, and one
    that has read the header [Content-Length: Infinity]. *)
Definition expecting_ten : Client := with_stream [] (Int 10) connected.

Definition stalled : Client :=
  snd (handleData (map byte_of_N (js "Content-Length: Infinity") ++ crlf_crlf) connected).

(** Header fields an adapter may add. *)
Definition content_type_field : jsstring :=
  js "Content-Type: application/vscode-jsonrpc; charset=utf-8".

Definition trace_field : jsstring := js "X-Trace: 1".

(** The arguments and the answer of the "runInTerminal" example. *)
Definition terminal_arguments : option value := Some (Obj [(js "cwd", Str (js "/tmp"))]).

Definition terminal_answer : option value := Some (Obj [(js "processId", Num (Int 123))]).

(** [one_request_sent] after one more request. *)
Definition two_requests_sent : Client :=
  snd (sendRequest (js "next") None one_request_sent).

(** A socket client whose socket has connected, and the same after
    [disconnectAdapter]. *)
Definition socket_connected : SocketClient :=
  socket_perform_all [ConnectAdapter; SocketConnects 0] (SocketDebugClient.new Off).

Definition socket_closed : SocketClient :=
  socket_perform_all [ConnectAdapter; SocketConnects 0; DisconnectAdapter]
    (SocketDebugClient.new Off).

(** A logger that throws on every line, a client that logs, and a
    payload that is not JSON. *)
Definition logger_failed : thrown := new_Error "logger failed".

Definition failing_logger : Logger := fun _ => Some logger_failed.

Definition logging : Client := snd (connectAdapter 0 1 (new On)).

Definition garbage : list byte := utf8_encode (js "{oops").

(** * Properties *)

(** ** The decode state is out of reach of message handling

    A computation is independent of the decode state when it neither reads
    nor writes [buffer] and [contentLength]. *)

Lemma with_stream_id c : with_stream (buffer c) (contentLength c) c = c.
Proof. destruct c; reflexivity. Qed.

Section Independence.

Context {A B : Type}.

Lemma indep_ret (a : A) : stream_indep (ret a).
Proof. intros c b n; reflexivity. Qed.

Lemma indep_throw (e : thrown) : stream_indep (@throw A e).
Proof. intros c b n; reflexivity. Qed.

Lemma indep_lift (r : result A) : stream_indep (lift r).
Proof. intros c b n; reflexivity. Qed.

Lemma indep_gets (f : Client -> A) :
  (forall c b n, f (with_stream b n c) = f c) -> stream_indep (gets f).
Proof. intros H c b n; unfold gets; rewrite H; reflexivity. Qed.

Lemma indep_bind (m : JSM A) (k : A -> JSM B) :
  stream_indep m -> (forall a, stream_indep (k a)) -> stream_indep (bind m k).
Proof.
  intros Hm Hk c b n. unfold bind. rewrite Hm.
  destruct (m c) as [[a|e] c']; simpl; [apply Hk | reflexivity].
Qed.

Lemma indep_try_catch (m : JSM A) (h : thrown -> JSM A) :
  stream_indep m -> (forall e, stream_indep (h e)) -> stream_indep (try_catch m h).
Proof.
  intros Hm Hh c b n. unfold try_catch. rewrite Hm.
  destruct (m c) as [[a|e] c']; simpl; [reflexivity | apply Hh].
Qed.

End Independence.

Lemma indep_modify (f : Client -> Client) :
  (forall c b n, f (with_stream b n c) = with_stream b n (f c)) ->
  stream_indep (modify f).
Proof. intros H c b n; unfold modify; rewrite H; reflexivity. Qed.

Lemma indep_log entry : stream_indep (BaseDebugClient.log entry).
Proof. intros c b n; unfold BaseDebugClient.log; simpl; destruct (logLevel c); reflexivity. Qed.

(** Discharges independence goals by following the structure of the
    computation. *)
Ltac indep_step :=
  match goal with
  | |- stream_indep (ret _) => apply indep_ret
  | |- stream_indep (throw _) => apply indep_throw
  | |- stream_indep (lift _) => apply indep_lift
  | |- stream_indep (BaseDebugClient.log _) => apply indep_log
  | |- stream_indep (bind _ _) => apply indep_bind; [ | intros ? ]
  | |- stream_indep (try_catch _ _) => apply indep_try_catch; [ | intros ? ]
  | |- stream_indep (gets _) => apply indep_gets; intros; reflexivity
  | |- stream_indep (modify _) =>
      apply indep_modify; intros; cbn; repeat case_match; reflexivity
  | |- stream_indep (match ?x with _ => _ end) => destruct x
  end.

Ltac indep := repeat indep_step.

Lemma indep_settle p s : stream_indep (BaseDebugClient.settle p s).
Proof. unfold BaseDebugClient.settle; indep. Qed.

Lemma indep_pending_callback p response :
  stream_indep (BaseDebugClient.pending_callback p response).
Proof.
  unfold BaseDebugClient.pending_callback, BaseDebugClient.resolve,
    BaseDebugClient.reject; indep; apply indep_settle.
Qed.

Lemma indep_call_listeners type ls arg :
  stream_indep (BaseDebugClient.call_listeners type ls arg).
Proof.
  induction ls as [|l rest IH]; simpl; indep. exact IH.
Qed.

Lemma indep_emit type arg : stream_indep (BaseDebugClient.emit type arg).
Proof.
  unfold BaseDebugClient.emit.
  apply indep_bind; [indep | intros listeners].
  destruct listeners as [[|l ls]|]; indep; apply indep_call_listeners.
Qed.

Lemma indep_handleMessage message :
  stream_indep (BaseDebugClient.handleMessage message).
Proof.
  unfold BaseDebugClient.handleMessage, BaseDebugClient.on_response,
    BaseDebugClient.on_event, BaseDebugClient.on_request,
    BaseDebugClient.on_unknown, BaseDebugClient.on_unmatched; indep;
    first [apply indep_pending_callback | apply indep_emit].
Qed.

Lemma indep_handle_body body : stream_indep (StreamDebugClient.handle_body body).
Proof.
  unfold StreamDebugClient.handle_body, StreamDebugClient.parse_and_handle,
    StreamDebugClient.JSON_parse; indep.
  apply indep_handleMessage.
Qed.

(** ** The decode loop *)

Lemma log_normal entry c : fst (BaseDebugClient.log entry c) = Normal tt.
Proof. unfold BaseDebugClient.log; destruct (logLevel c); reflexivity. Qed.

(** The [try]/[catch] block returns normally whatever parsing and
    handling do. *)
Lemma handle_body_normal body c : fst (handle_body body c) = Normal tt.
Proof.
  unfold handle_body. destruct (0 <? length body)%nat; [|reflexivity].
  unfold try_catch.
  destruct (parse_and_handle body c) as [[[]|e] c']; [reflexivity | apply log_normal].
Qed.

Lemma handle_body_stream body c :
  buffer (snd (handle_body body c)) = buffer c /\
  contentLength (snd (handle_body body c)) = contentLength c.
Proof.
  pose proof (indep_handle_body body c (buffer c) (contentLength c)) as H.
  rewrite with_stream_id in H. rewrite H. simpl. auto.
Qed.

Lemma indep_read_header_lines lines c b :
  read_header_lines lines (set_buffer b c)
  = (Normal tt, set_buffer b (snd (read_header_lines lines c))).
Proof.
  revert c; induction lines as [|line more IH]; intros c; [reflexivity|].
  simpl. unfold bind. case_bool_decide; simpl;
    [exact (IH (set_contentLength _ c)) | apply IH].
Qed.

Lemma read_header_lines_normal lines c : fst (read_header_lines lines c) = Normal tt.
Proof.
  revert c; induction lines as [|line more IH]; intros c; [reflexivity|].
  simpl. unfold bind. case_bool_decide; simpl; apply IH.
Qed.

(** [iteration] by cases. *)
Lemma iteration_cases c :
  iteration c =
    if ge0 (contentLength c) then
      if int_ge (Z.of_nat (length (buffer c))) (contentLength c)
      then (Normal true, after_body c)
      else (Normal false, c)
    else if negb (header_end c =? -1) then (Normal true, after_header c)
    else (Normal false, c).
Proof.
  unfold iteration, bind, gets; simpl.
  destruct (ge0 (contentLength c)).
  - destruct (int_ge _ _); [|reflexivity].
    unfold after_body, with_stream. simpl.
    pose proof (handle_body_normal
      (Buffer.toString (buffer c) (contentLength c))
      (set_contentLength (Int (-1))
         (set_buffer (Buffer.slice (buffer c) (contentLength c)) c))) as H.
    destruct (handle_body _ _) as [[[]|e] c']; simpl in *; [reflexivity | discriminate].
  - fold (header_end c). destruct (negb (header_end c =? -1)); [|reflexivity].
    unfold after_header.
    pose proof (read_header_lines_normal
      (split (Buffer.toString (buffer c) (Int (header_end c))) [13; 10]%N) c) as H.
    destruct (read_header_lines _ _) as [[[]|e] c']; simpl in *; [reflexivity | discriminate].
Qed.

Lemma after_body_stream c :
  buffer (after_body c) = Buffer.slice (buffer c) (contentLength c) /\
  contentLength (after_body c) = Int (-1).
Proof.
  unfold after_body.
  destruct (handle_body_stream (Buffer.toString (buffer c) (contentLength c))
    (with_stream (Buffer.slice (buffer c) (contentLength c)) (Int (-1)) c)) as [Hb Hn].
  rewrite Hb, Hn. auto.
Qed.

Lemma after_header_buffer c :
  buffer (after_header c) = Buffer.slice (buffer c) (Int (header_end c + 4)).
Proof. reflexivity. Qed.

(** *** Searching and cutting buffers *)

Lemma starts_with_length pat buf :
  Buffer.starts_with pat buf = true -> (length pat <= length buf)%nat.
Proof.
  revert buf; induction pat as [|p pat IH]; intros [|b buf]; simpl; try lia; try discriminate.
  intros H. apply andb_true_iff in H as [_ H]. apply IH in H. lia.
Qed.

Lemma starts_with_app pat buf data :
  Buffer.starts_with pat buf = true -> Buffer.starts_with pat (buf ++ data) = true.
Proof.
  revert buf; induction pat as [|p pat IH]; intros [|b buf]; simpl; auto; try discriminate.
  intros H. apply andb_true_iff in H as [H1 H2]. rewrite H1, (IH _ H2). reflexivity.
Qed.

Lemma starts_with_app_false pat buf data :
  Buffer.starts_with pat buf = false -> (length pat <= length buf)%nat ->
  Buffer.starts_with pat (buf ++ data) = false.
Proof.
  revert buf; induction pat as [|p pat IH]; intros [|b buf]; simpl; auto; try lia; try discriminate.
  intros H Hlen. destruct (Byte.eqb p b); simpl in *; [apply IH; [assumption | lia] | reflexivity].
Qed.

(** A match that is found lies inside the buffer. *)
Lemma index_from_bounds pat buf i :
  Buffer.index_from pat buf i <> -1 -> 0 <= i ->
  i <= Buffer.index_from pat buf i /\
  Buffer.index_from pat buf i - i + Z.of_nat (length pat) <= Z.of_nat (length buf).
Proof.
  revert i; induction buf as [|b rest IH]; intros i Hfound Hi; simpl in *.
  - destruct pat; [simpl; lia | congruence].
  - destruct (Buffer.starts_with pat (b :: rest)) eqn:Hs.
    + apply starts_with_length in Hs. simpl in Hs. lia.
    + specialize (IH (i + 1) Hfound ltac:(lia)). lia.
Qed.

(** Bytes that arrive later do not move the first match. *)
Lemma index_from_app pat buf data i :
  Buffer.index_from pat buf i <> -1 -> 0 <= i ->
  Buffer.index_from pat (buf ++ data) i = Buffer.index_from pat buf i.
Proof.
  revert i; induction buf as [|b rest IH]; intros i Hfound Hi; simpl in *.
  - destruct pat; [|congruence]. destruct data; reflexivity.
  - destruct (Buffer.starts_with pat (b :: rest)) eqn:Hs.
    + change (b :: rest ++ data) with ((b :: rest) ++ data).
      rewrite (starts_with_app _ _ data Hs). reflexivity.
    + pose proof (index_from_bounds pat rest (i + 1) Hfound ltac:(lia)) as [Ha Hb].
      change (b :: rest ++ data) with ((b :: rest) ++ data).
      rewrite starts_with_app_false; [apply IH; [assumption | lia] | assumption | simpl; lia].
Qed.

(** An index between [0] and the length is taken as it is. *)
Lemma adjustOffset_Int z len :
  0 <= z <= Z.of_nat len -> Buffer.adjustOffset (Int z) len = Z.to_nat z.
Proof.
  intros H. unfold Buffer.adjustOffset; simpl.
  destruct (Z.eqb_spec z 0); [subst; reflexivity|].
  destruct (Z.ltb_spec z 0); [lia|].
  destruct (Z.ltb_spec z (Z.of_nat len)); [reflexivity | lia].
Qed.

Lemma whole_fits n len :
  ge0 n = true -> int_ge (Z.of_nat len) n = true ->
  (whole n <= len)%nat /\ trunc n = Int (Z.of_nat (whole n)).
Proof.
  unfold whole. destruct n as [| neg | z | m k]; simpl; try discriminate.
  - destruct neg; discriminate.
  - intros H0 H1. apply Z.leb_le in H0, H1. rewrite Z2Nat.id by lia. split; [lia | reflexivity].
  - intros H0 H1. apply Z.leb_le in H0, H1.
    assert (Hp : 0 < 10 ^ Z.pos k) by (apply Z.pow_pos_nonneg; lia).
    assert (Hq : 0 <= m ÷ 10 ^ Z.pos k) by (apply Z.quot_pos; lia).
    assert (Hu : m ÷ 10 ^ Z.pos k <= Z.of_nat len).
    { rewrite Z.quot_div_nonneg by lia. apply Z.div_le_upper_bound; lia. }
    rewrite Z2Nat.id by lia. split; [lia | reflexivity].
Qed.

Lemma gt_int_fits n len len' :
  ge0 n = true -> int_ge (Z.of_nat len) n = true -> (len <= len')%nat ->
  gt_int n (Z.of_nat len') = false.
Proof.
  destruct n as [| neg | z | m k]; simpl; try discriminate.
  - destruct neg; discriminate.
  - intros H0 H1 Hl. apply Z.leb_le in H0, H1. apply Z.ltb_ge. lia.
  - intros H0 H1 Hl. apply Z.leb_le in H0, H1. apply Z.ltb_ge.
    assert (Hp : 0 < 10 ^ Z.pos k) by (apply Z.pow_pos_nonneg; lia). nia.
Qed.

Lemma slice_fits n buf :
  ge0 n = true -> int_ge (Z.of_nat (length buf)) n = true ->
  forall data, Buffer.slice (buf ++ data) n = drop (whole n) buf ++ data.
Proof.
  intros H0 H1 data.
  destruct (whole_fits n (length buf) H0 H1) as [Hle Ht].
  assert (Ha : Buffer.adjustOffset n (length (buf ++ data)) = whole n).
  { pose proof (adjustOffset_Int (Z.of_nat (whole n)) (length (buf ++ data))) as Ha.
    unfold Buffer.adjustOffset in *. rewrite Ht. simpl in Ha.
    rewrite Ha, Nat2Z.id by (rewrite length_app; lia). reflexivity. }
  unfold Buffer.slice. rewrite Ha. apply drop_app_le. lia.
Qed.

Lemma toString_fits n buf :
  ge0 n = true -> int_ge (Z.of_nat (length buf)) n = true ->
  forall data, Buffer.toString (buf ++ data) n = Buffer.toString buf n.
Proof.
  intros H0 H1 data.
  destruct (whole_fits n (length buf) H0 H1) as [Hle Ht].
  unfold Buffer.toString.
  rewrite (gt_int_fits n (length buf) (length (buf ++ data)) H0 H1)
    by (rewrite length_app; lia).
  rewrite (gt_int_fits n (length buf) (length buf) H0 H1) by lia.
  rewrite Ht. destruct (Z.of_nat (whole n) <=? 0); [reflexivity|].
  rewrite Nat2Z.id, take_app_le by lia. reflexivity.
Qed.

Lemma slice_whole n buf :
  ge0 n = true -> int_ge (Z.of_nat (length buf)) n = true ->
  Buffer.slice buf n = drop (whole n) buf.
Proof.
  intros H0 H1. pose proof (slice_fits n buf H0 H1 []) as H.
  rewrite !app_nil_r in H. exact H.
Qed.

Lemma header_end_bounds c :
  header_end c <> -1 ->
  0 <= header_end c /\ header_end c + 4 <= Z.of_nat (length (buffer c)).
Proof.
  intros H. unfold header_end, Buffer.indexOf in *.
  pose proof (index_from_bounds _ _ 0 H ltac:(lia)) as [Ha Hb].
  change (length (utf8_encode Protocol.TWO_CRLF)) with 4%nat in Hb. lia.
Qed.

Lemma header_fits c :
  header_end c <> -1 ->
  ge0 (Int (header_end c + 4)) = true /\
  int_ge (Z.of_nat (length (buffer c))) (Int (header_end c + 4)) = true /\
  ge0 (Int (header_end c)) = true /\
  int_ge (Z.of_nat (length (buffer c))) (Int (header_end c)) = true.
Proof.
  intros H. apply header_end_bounds in H. simpl.
  repeat split; apply Z.leb_le; lia.
Qed.

(** *** Every turn that continues makes progress *)

Lemma turns_after_body c :
  ge0 (contentLength c) = true ->
  (turns (after_body c) < turns c)%nat.
Proof.
  intros H. unfold turns. destruct (after_body_stream c) as [Hb Hn].
  rewrite Hb, Hn, H. simpl ge0.
  unfold Buffer.slice. rewrite length_drop. simpl. lia.
Qed.

Lemma turns_after_header c :
  ge0 (contentLength c) = false -> header_end c <> -1 ->
  (turns (after_header c) < turns c)%nat.
Proof.
  intros H Hf. unfold turns. rewrite after_header_buffer, H.
  destruct (header_fits c Hf) as (H0 & H1 & _).
  rewrite slice_whole by assumption.
  pose proof (header_end_bounds c Hf).
  rewrite length_drop. unfold whole; simpl.
  match goal with |- context [if ?b then _ else _] => destruct b end; lia.
Qed.

Lemma iteration_progress c c' :
  iteration c = (Normal true, c') -> (turns c' < turns c)%nat.
Proof.
  rewrite iteration_cases.
  destruct (ge0 (contentLength c)) eqn:H0.
  - destruct (int_ge _ _); intros [= <-]. apply turns_after_body; assumption.
  - destruct (Z.eqb_spec (header_end c) (-1)); simpl; intros [= <-].
    apply turns_after_header; assumption.
Qed.

Lemma iteration_normal c : exists b c', iteration c = (Normal b, c').
Proof.
  rewrite iteration_cases.
  destruct (ge0 _); [destruct (int_ge _ _) | destruct (negb _)]; eauto.
Qed.

Lemma iteration_break c c' : iteration c = (Normal false, c') -> c' = c.
Proof.
  rewrite iteration_cases.
  destruct (ge0 _); [destruct (int_ge _ _) | destruct (negb _)]; congruence.
Qed.

(** The number of turns [handleData] allows is never used up. *)
Lemma loop_fuel n m c :
  (turns c < n)%nat -> (turns c < m)%nat -> loop n c = loop m c.
Proof.
  revert m c; induction n as [|n IH]; intros m c Hn Hm; [lia|].
  destruct m as [|m]; [lia|]. simpl. unfold bind.
  destruct (iteration c) as [[[|]|e] c'] eqn:Hi; try reflexivity.
  apply iteration_progress in Hi. apply IH; lia.
Qed.

Lemma drain_unfold c :
  drain c =
    match iteration c with
    | (Normal true, c') => drain c'
    | (Normal false, c') => (Normal tt, c')
    | (Throw e, c') => (Throw e, c')
    end.
Proof.
  unfold drain at 1. simpl. unfold bind.
  destruct (iteration c) as [[[|]|e] c'] eqn:Hi; try reflexivity.
  apply iteration_progress in Hi. apply loop_fuel; lia.
Qed.

Lemma handleData_drain data c :
  handleData data c = drain (set_buffer (buffer c ++ data) c).
Proof.
  unfold handleData, bind, modify, drain, Buffer.concat. simpl.
  rewrite app_nil_r. reflexivity.
Qed.

(** The loop always reaches its [break] and never throws. *)
Lemma drain_normal c : fst (drain c) = Normal tt.
Proof.
  remember (turns c) as k eqn:Hk. revert c Hk.
  induction k as [k IH] using lt_wf_ind. intros c ->.
  rewrite drain_unfold.
  destruct (iteration_normal c) as (b & c' & Hi). rewrite Hi.
  destruct b; [|reflexivity].
  apply iteration_progress in Hi. eapply IH; [exact Hi | reflexivity].
Qed.

(** ** Chunk boundaries *)

Lemma int_ge_mono a b n : int_ge a n = true -> a <= b -> int_ge b n = true.
Proof.
  destruct n as [| neg | z | m k]; simpl; auto.
  - intros H Hab. apply Z.leb_le in H. apply Z.leb_le. lia.
  - intros H Hab. apply Z.leb_le in H. apply Z.leb_le.
    assert (0 < 10 ^ Z.pos k) by (apply Z.pow_pos_nonneg; lia). nia.
Qed.

Lemma after_body_split c :
  after_body c =
    with_stream (Buffer.slice (buffer c) (contentLength c)) (Int (-1))
      (snd (handle_body (Buffer.toString (buffer c) (contentLength c)) c)).
Proof. unfold after_body. rewrite indep_handle_body. reflexivity. Qed.

Lemma after_body_append data c :
  ge0 (contentLength c) = true ->
  int_ge (Z.of_nat (length (buffer c))) (contentLength c) = true ->
  after_body (append data c) = append data (after_body c).
Proof.
  intros H0 H1. rewrite !after_body_split. simpl.
  rewrite toString_fits, slice_fits by assumption.
  rewrite (slice_whole _ _ H0 H1).
  unfold append at 1.
  pose proof (indep_handle_body
    (Buffer.toString (buffer c) (contentLength c)) c
    (buffer c ++ data) (contentLength c)) as Hi.
  replace (with_stream (buffer c ++ data) (contentLength c) c)
    with (set_buffer (buffer c ++ data) c) in Hi by (destruct c; reflexivity).
  rewrite Hi. reflexivity.
Qed.

Lemma header_end_append data c :
  header_end c <> -1 -> header_end (append data c) = header_end c.
Proof.
  intros H. unfold header_end, Buffer.indexOf in *. simpl.
  apply index_from_app; [assumption | lia].
Qed.

Lemma after_header_append data c :
  header_end c <> -1 ->
  after_header (append data c) = append data (after_header c).
Proof.
  intros H. destruct (header_fits c H) as (H0 & H1 & H2 & H3).
  transitivity
    (set_buffer (buffer (after_header c) ++ data) (after_header c));
    [|reflexivity].
  rewrite after_header_buffer.
  unfold after_header. rewrite (header_end_append data c H).
  unfold append. simpl buffer.
  rewrite toString_fits, slice_fits by assumption.
  rewrite (slice_whole _ _ H0 H1).
  rewrite indep_read_header_lines. reflexivity.
Qed.

(** A turn that continues does the same when more bytes are already
    there. *)
Lemma iteration_append data c c' :
  iteration c = (Normal true, c') ->
  iteration (append data c) = (Normal true, append data c').
Proof.
  rewrite !iteration_cases. simpl contentLength. simpl buffer.
  destruct (ge0 (contentLength c)) eqn:H0.
  - destruct (int_ge _ (contentLength c)) eqn:H1; intros [= <-].
    rewrite (int_ge_mono _ (Z.of_nat (length (buffer c ++ data))) _ H1)
      by (rewrite length_app; lia).
    rewrite after_body_append by assumption. reflexivity.
  - destruct (Z.eqb_spec (header_end c) (-1)) as [|Hf]; simpl; intros [= <-].
    rewrite header_end_append by assumption.
    destruct (Z.eqb_spec (header_end c) (-1)); [contradiction|]. simpl.
    rewrite after_header_append by assumption. reflexivity.
Qed.

(** Draining the buffer before more bytes arrive changes nothing. *)
Lemma drain_append data c :
  drain (append data c) = drain (append data (snd (drain c))).
Proof.
  remember (turns c) as k eqn:Hk. revert c Hk.
  induction k as [k IH] using lt_wf_ind. intros c ->.
  rewrite (drain_unfold c).
  destruct (iteration_normal c) as (b & c' & Hi). rewrite Hi.
  destruct b; [|apply iteration_break in Hi; subst; reflexivity].
  rewrite (drain_unfold (append data c)), (iteration_append data c c' Hi).
  apply iteration_progress in Hi. eapply IH; [exact Hi | reflexivity].
Qed.

Lemma handleData_app a b c :
  handleData (a ++ b) c = handleData b (snd (handleData a c)).
Proof.
  rewrite !handleData_drain.
  change (set_buffer (buffer (drain (set_buffer (buffer c ++ a) c)).2 ++ b)
            (drain (set_buffer (buffer c ++ a) c)).2)
    with (append b (snd (drain (append a c)))).
  rewrite <- drain_append. unfold append. simpl. rewrite app_assoc. reflexivity.
Qed.

Lemma feed_concat chunks : forall first c,
  feed (first :: chunks) c = snd (handleData (first ++ List.concat chunks) c).
Proof.
  induction chunks as [|next rest IH]; intros first c.
  - simpl. rewrite app_nil_r. reflexivity.
  - change (feed (first :: next :: rest) c)
      with (feed (next :: rest) (snd (handleData first c))).
    rewrite IH. change (List.concat (next :: rest)) with (next ++ List.concat rest).
    rewrite (handleData_app first). reflexivity.
Qed.

(** ** Sending without a connection *)

(** Each sending method starts by testing [this.connection]. *)
Lemma send_without_connection c :
  connection c = None ->
  forall command args request body message error m,
    sendRequest command args c = (Throw not_connected, c) /\
    sendResponse request body c = (Throw not_connected, c) /\
    sendErrorResponse request message error c = (Throw not_connected, c) /\
    sendMessage m c = (Throw not_connected, c).
Proof.
  intros H command args request body message error m.
  unfold sendRequest, sendResponse, sendErrorResponse, sendMessage, bind, gets.
  rewrite H. auto.
Qed.

(** C6.  While no connection is established, [sendRequest],
    [sendResponse], [sendErrorResponse] and [sendMessage] each fail at once
    with the error "not connected" and leave the client exactly as it was:
    nothing is written to any stream, the table of pending requests is
    unchanged and no sequence number is used. *)
Theorem not_connected_sends_fail (c : Client) :
  connection c = None ->
  forall command args request body message error m,
    sendRequest command args c = (Throw not_connected, c) /\
    sendResponse request body c = (Throw not_connected, c) /\
    sendErrorResponse request message error c = (Throw not_connected, c) /\
    sendMessage m c = (Throw not_connected, c).
Proof.
  intros H command args request body message error m.
  destruct (send_without_connection c H command args request body message error m)
    as (H1 & H2 & H3 & H4).
  repeat split; assumption.
Qed.

Lemma not_connected_sends_fail_witness :
  connection (new Off) = None /\
  sendRequest (js "launch") None (new Off) = (Throw not_connected, new Off) /\
  written (snd (sendRequest (js "launch") None (new Off))) = [] /\
  pendingRequests (snd (sendRequest (js "launch") None (new Off))) = ∅.
Proof.
  split; [reflexivity|].
  pose proof (not_connected_sends_fail (new Off) eq_refl
                (js "launch") None Null None None None Null) as [H _].
  rewrite H. repeat split.
Defined.

(** ** Disconnecting *)

(** C8, as stated, fails: after [disconnectAdapter] the request sent
    before is still pending and the sequence counter still stands at 2. *)
Lemma disconnect_keeps_pending_and_seq :
  pendingRequests (snd (disconnectAdapter one_request_sent)) !! Int 1 = Some 0%nat /\
  nextSeq (snd (disconnectAdapter one_request_sent)) = 2 /\
  ~ disconnect_clears_everything one_request_sent.
Proof.
  repeat split; try reflexivity.
  intros (_ & _ & _ & H). vm_compute in H. discriminate.
Qed.

(** C8, amended.  [disconnectAdapter] on a connected client returns with
    the connection gone, the byte buffer empty and the expected content
    length back at [-1]; the table of pending requests and the sequence
    counter are left as they were. *)
Theorem disconnect_resets_decode_state (c : Client) :
  connection c <> None ->
  let c' := snd (disconnectAdapter c) in
  fst (disconnectAdapter c) = Normal tt /\
  connection c' = None /\
  buffer c' = [] /\ contentLength c' = Int (-1) /\
  pendingRequests c' = pendingRequests c /\ nextSeq c' = nextSeq c.
Proof.
  intros H. unfold disconnectAdapter, bind, gets. simpl.
  destruct (connection c); [|contradiction].
  unfold BaseDebugClient.log. destruct (logLevel c); simpl; auto 10.
Qed.

Lemma disconnect_resets_decode_state_witness :
  connection one_request_sent <> None /\
  buffer (snd (disconnectAdapter one_request_sent)) = [] /\
  pendingRequests (snd (disconnectAdapter one_request_sent))
    = pendingRequests one_request_sent.
Proof.
  assert (H : connection one_request_sent <> None) by discriminate.
  split; [exact H|].
  pose proof (disconnect_resets_decode_state one_request_sent H)
    as (_ & _ & Hb & _ & Hp & _).
  split; [exact Hb | exact Hp].
Defined.

(** ** Classification *)

(** [handleMessage] is the choice of a branch by [classify]. *)
Lemma handleMessage_classify message c :
  BaseDebugClient.handleMessage message c =
    match classify message with
    | Throw e => (Throw e, c)
    | Normal Response => BaseDebugClient.on_response message c
    | Normal Event => BaseDebugClient.on_event message c
    | Normal Request => BaseDebugClient.on_request message c
    | Normal Unknown => BaseDebugClient.on_unknown message c
    end.
Proof.
  unfold BaseDebugClient.handleMessage, classify, bind, lift.
  destruct (Protocol.isResponse message) as [[|]|]; try reflexivity.
  destruct (Protocol.isEvent message) as [[|]|]; try reflexivity.
  destruct (Protocol.isRequest message) as [[|]|]; reflexivity.
Qed.

Lemma get_field message k : message <> Null -> get message k = Normal (field message k).
Proof. destruct message; try reflexivity. contradiction. Qed.


(** The three checks, for a message that is not [null]. *)
Lemma classify_by_shape message :
  message <> Null -> classify message = Normal (classify_numbers message).
Proof.
  intros Hn.
  unfold classify, classify_numbers, Protocol.isResponse, Protocol.isEvent,
    Protocol.isRequest, Protocol.check, Protocol.and_then.
  rewrite !get_field by assumption.
  unfold is_number, is_boolean, is_a_string.
  destruct (is_string (field message "type") "response");
    destruct (is_string (field message "type") "event");
    destruct (is_string (field message "type") "request");
    destruct (tag_eqb (typeof (field message "request_seq")) TNumber);
    destruct (tag_eqb (typeof (field message "success")) TBoolean);
    destruct (tag_eqb (typeof (field message "event")) TString);
    destruct (tag_eqb (typeof (field message "seq")) TNumber);
    destruct (tag_eqb (typeof (field message "command")) TString);
    reflexivity.
Qed.

(** The only exception a conversion to a string throws. *)
Lemma ToString_throws v : forall e, ToString v = Throw e -> e = cannot_convert.
Proof.
  apply (value_induction (fun v => forall e, ToString v = Throw e -> e = cannot_convert));
    try (intros; discriminate).
  - intros xs Hxs. induction Hxs as [|x r Hx Hr IH]; intros e; [discriminate|].
    cbn [ToString]. fold (ToString x).
    assert (Hhead : forall e', match x with Null => Normal [] | _ => ToString x end
                               = Throw e' -> e' = cannot_convert).
    { intros e'. destruct x; try discriminate; apply Hx. }
    destruct (match x with Null => Normal [] | _ => ToString x end) as [s|e'];
      [|intros [= <-]; apply Hhead; reflexivity].
    destruct r as [|y r']; [discriminate|].
    specialize (IH e). cbn [ToString] in IH.
    match goal with
    | |- match ?j with _ => _ end = _ -> _ =>
        destruct j as [t|e'] eqn:Hj; [discriminate|]
    end.
    intros [= <-]. apply IH. reflexivity.
  - intros fs _ e. cbn [ToString].
    destruct (assoc (js "toString") fs); [intros [= <-]; reflexivity | discriminate].
Qed.

Lemma interpolate_throws x e : interpolate x = Throw e -> e = cannot_convert.
Proof. destruct x as [v|]; [apply ToString_throws | discriminate]. Qed.

(** The Unknown branch: the [type] is put into the line for the logger. *)
Lemma on_unknown_printable message c :
  message <> Null -> printable (field message "type") = true ->
  BaseDebugClient.on_unknown message c
  = BaseDebugClient.log (LogUnknownType message) c.
Proof.
  intros Hn Hp. unfold BaseDebugClient.on_unknown, bind, lift.
  rewrite (get_field message "type" Hn). unfold printable in Hp.
  cbn [interpolations]. destruct (interpolate (field message "type"));
    [reflexivity | discriminate].
Qed.

Lemma on_unknown_unprintable message c :
  message <> Null -> printable (field message "type") = false ->
  exists e, BaseDebugClient.on_unknown message c = (Throw e, c).
Proof.
  intros Hn Hp. unfold BaseDebugClient.on_unknown, bind, lift.
  rewrite (get_field message "type" Hn). unfold printable in Hp.
  cbn [interpolations]. destruct (interpolate (field message "type")) as [s|e];
    [discriminate | exists e; reflexivity].
Qed.

(** What reaches the logger is in the trace of a client that logs. *)
Lemma log_logged entry c :
  logLevel c <> Off ->
  logged (snd (BaseDebugClient.log entry c)) = logged c ++ [entry].
Proof.
  intros Hl. unfold BaseDebugClient.log.
  destruct (logLevel c); [contradiction | reflexivity..].
Qed.



(** A message of unknown type whose [type] cannot be converted to a string
    never reaches the logger: building the line throws. *)
Lemma unknown_type_unprintable :
  classify (Obj [(js "type", Obj [(js "toString", Num (Int 0))])]) = Normal Unknown /\
  BaseDebugClient.handleMessage
    (Obj [(js "type", Obj [(js "toString", Num (Int 0))])]) (new On)
  = (Throw cannot_convert, new On).
Proof. split; reflexivity. Qed.

(** ** Sequence numbers and pending requests over time

    [grows c c'] says that from [c] to [c'] the sequence counter has not
    gone down and that every request pending in [c'] was already pending
    in [c] or carries a sequence number handed out in between. *)

Lemma grows_refl c : grows c c.
Proof. split; [lia | auto]. Qed.

Lemma grows_trans c1 c2 c3 : grows c1 c2 -> grows c2 c3 -> grows c1 c3.
Proof.
  intros [H1 P1] [H2 P2]. split; [lia|].
  intros k p H. destruct (P2 k p H) as [H'|(z & -> & Hz)].
  - destruct (P1 k p H') as [H''|(z & -> & Hz)]; [auto|].
    right; exists z; split; [reflexivity | lia].
  - right; exists z; split; [reflexivity | lia].
Qed.

Lemma grows_same c c' :
  nextSeq c' = nextSeq c -> pendingRequests c' = pendingRequests c -> grows c c'.
Proof. intros H1 H2. split; [lia | rewrite H2; auto]. Qed.

Section Evolution.

Context {A B : Type}.

Lemma evolves_ret (a : A) : evolves (ret a).
Proof. intros c; apply grows_refl. Qed.

Lemma evolves_throw (e : thrown) : evolves (@throw A e).
Proof. intros c; apply grows_refl. Qed.

Lemma evolves_lift (r : result A) : evolves (lift r).
Proof. intros c; apply grows_refl. Qed.

Lemma evolves_gets (f : Client -> A) : evolves (gets f).
Proof. intros c; apply grows_refl. Qed.

Lemma evolves_bind (m : JSM A) (k : A -> JSM B) :
  evolves m -> (forall a, evolves (k a)) -> evolves (bind m k).
Proof.
  intros Hm Hk c. unfold bind. specialize (Hm c).
  destruct (m c) as [[a|e] c']; simpl in *; [|assumption].
  eapply grows_trans; [exact Hm | apply Hk].
Qed.

Lemma evolves_try_catch (m : JSM A) (h : thrown -> JSM A) :
  evolves m -> (forall e, evolves (h e)) -> evolves (try_catch m h).
Proof.
  intros Hm Hh c. unfold try_catch. specialize (Hm c).
  destruct (m c) as [[a|e] c']; simpl in *; [assumption|].
  eapply grows_trans; [exact Hm | apply Hh].
Qed.

End Evolution.

Lemma evolves_modify (f : Client -> Client) :
  (forall c, grows c (f c)) -> evolves (modify f).
Proof. intros H c; apply H. Qed.

Lemma evolves_log entry : evolves (BaseDebugClient.log entry).
Proof.
  intros c; unfold BaseDebugClient.log; destruct (logLevel c);
    apply grows_same; reflexivity.
Qed.

Lemma grows_delete key c :
  grows c (set_pendingRequests (BaseDebugClient.Map_delete (pendingRequests c) key) c).
Proof.
  split; [simpl; lia|]. simpl. intros k p H. left.
  destruct key as [[]|]; simpl in H; try assumption.
  apply lookup_delete_Some in H as [_ H]. assumption.
Qed.

Lemma evolves_getNextSeq : evolves BaseDebugClient.getNextSeq.
Proof. intros c. split; simpl; [lia | auto]. Qed.

Ltac evolves_step :=
  match goal with
  | |- evolves (ret _) => apply evolves_ret
  | |- evolves (throw _) => apply evolves_throw
  | |- evolves (lift _) => apply evolves_lift
  | |- evolves (gets _) => apply evolves_gets
  | |- evolves (BaseDebugClient.log _) => apply evolves_log
  | |- evolves BaseDebugClient.getNextSeq => apply evolves_getNextSeq
  | |- evolves (bind _ _) => apply evolves_bind; [ | intros ? ]
  | |- evolves (try_catch _ _) => apply evolves_try_catch; [ | intros ? ]
  | |- evolves (modify (fun c => set_pendingRequests (BaseDebugClient.Map_delete _ _) c)) =>
      apply evolves_modify; intros; apply grows_delete
  | |- evolves (modify _) =>
      apply evolves_modify; intros; apply grows_same; cbn;
      repeat case_match; reflexivity
  | |- evolves (match ?x with _ => _ end) => destruct x
  end.

Ltac evolves_auto := repeat evolves_step.

Lemma evolves_settle p s : evolves (BaseDebugClient.settle p s).
Proof. unfold BaseDebugClient.settle; evolves_auto. Qed.

Lemma evolves_call_listeners type ls arg :
  evolves (BaseDebugClient.call_listeners type ls arg).
Proof. induction ls as [|l rest IH]; simpl; evolves_auto. exact IH. Qed.

Lemma evolves_handleMessage message : evolves (BaseDebugClient.handleMessage message).
Proof.
  unfold BaseDebugClient.handleMessage, BaseDebugClient.on_response,
    BaseDebugClient.on_event, BaseDebugClient.on_request,
    BaseDebugClient.on_unknown, BaseDebugClient.on_unmatched,
    BaseDebugClient.pending_callback, BaseDebugClient.resolve,
    BaseDebugClient.reject, BaseDebugClient.emit.
  evolves_auto; first [apply evolves_settle | apply evolves_call_listeners].
Qed.

Lemma evolves_handle_body body : evolves (handle_body body).
Proof.
  unfold handle_body, parse_and_handle, JSON_parse; evolves_auto.
  apply evolves_handleMessage.
Qed.

Lemma evolves_read_header_lines lines : evolves (read_header_lines lines).
Proof. induction lines as [|line more IH]; simpl; evolves_auto; exact IH. Qed.

Lemma evolves_iteration : evolves iteration.
Proof.
  unfold iteration; evolves_auto;
    first [apply evolves_handle_body | apply evolves_read_header_lines].
Qed.

Lemma evolves_drain : evolves drain.
Proof.
  intros c. remember (turns c) as k eqn:Hk. revert c Hk.
  induction k as [k IH] using lt_wf_ind. intros c ->.
  rewrite drain_unfold. pose proof (evolves_iteration c) as Hg.
  destruct (iteration c) as [[[|]|e] c'] eqn:Hi; simpl in *; try assumption.
  apply iteration_progress in Hi.
  eapply grows_trans; [exact Hg | eapply IH; [exact Hi | reflexivity]].
Qed.

Lemma evolves_handleData data : evolves (handleData data).
Proof.
  intros c. rewrite handleData_drain.
  eapply grows_trans; [|apply evolves_drain].
  apply grows_same; reflexivity.
Qed.

Lemma evolves_sendMessage message : evolves (sendMessage message).
Proof. unfold sendMessage; evolves_auto. Qed.

Lemma sendRequest_connected k command args c :
  connection c = Some k ->
  sendRequest command args c
  = (Normal (length (promises c)), after_sendRequest k command args c).
Proof.
  intros H. unfold sendRequest, bind, gets. rewrite H.
  unfold BaseDebugClient.sendRequest, after_sendRequest, sendMessage,
    BaseDebugClient.getNextSeq, BaseDebugClient.new_Promise, BaseDebugClient.log,
    request_of, bind, modify, gets, ret.
  simpl. destruct (logLevel c); simpl; rewrite H; reflexivity.
Qed.

Lemma after_sendRequest_fields k command args c :
  let c' := after_sendRequest k command args c in
  nextSeq c' = nextSeq c + 1 /\
  pendingRequests c' = <[Int (nextSeq c) := length (promises c)]> (pendingRequests c) /\
  promises c' = promises c ++ [Pending] /\
  written c'
  = written c ++ [(outStream k,
                   Protocol.encodeMessage (request_of (nextSeq c) command args))] /\
  connection c' = connection c.
Proof.
  unfold after_sendRequest, BaseDebugClient.log. simpl.
  destruct (logLevel c); simpl; auto.
Qed.

Lemma evolves_sendRequest command args : evolves (sendRequest command args).
Proof.
  intros c. destruct (connection c) as [k|] eqn:Hk.
  - rewrite (sendRequest_connected k) by assumption. simpl.
    destruct (after_sendRequest_fields k command args c) as (Hn & Hp & _).
    split; [lia|]. rewrite Hn, Hp. intros key p H.
    destruct (decide (key = Int (nextSeq c))) as [->|Hne].
    + right. exists (nextSeq c). split; [reflexivity | lia].
    + left. rewrite lookup_insert_ne in H by congruence. exact H.
  - destruct (send_without_connection c Hk command args Null None None None Null)
      as (-> & _). apply grows_refl.
Qed.

Lemma evolves_sendResponse request body : evolves (sendResponse request body).
Proof.
  unfold sendResponse, BaseDebugClient.sendResponse; evolves_auto.
  apply evolves_sendMessage.
Qed.

Lemma evolves_sendErrorResponse request message error :
  evolves (sendErrorResponse request message error).
Proof.
  unfold sendErrorResponse, BaseDebugClient.sendErrorResponse; evolves_auto.
  apply evolves_sendMessage.
Qed.

Lemma evolves_run_reply message o : evolves (run_reply message o).
Proof.
  destruct o; simpl.
  - apply evolves_try_catch; [apply evolves_sendResponse | intros e].
    apply evolves_bind; [apply evolves_lift | intros m].
    apply evolves_sendErrorResponse.
  - apply evolves_bind; [apply evolves_lift | intros m].
    apply evolves_sendErrorResponse.
Qed.

Lemma evolves_settle_reply : evolves settle_reply.
Proof. unfold settle_reply; evolves_auto. apply evolves_run_reply. Qed.

Lemma evolves_connectAdapter r w : evolves (connectAdapter r w).
Proof. unfold connectAdapter; evolves_auto. Qed.

Lemma evolves_disconnectAdapter : evolves disconnectAdapter.
Proof. unfold disconnectAdapter; evolves_auto. Qed.

Lemma evolves_onEvent event l : evolves (BaseDebugClient.onEvent event l).
Proof. unfold BaseDebugClient.onEvent; evolves_auto. Qed.

Lemma evolves_onReverseRequest command h :
  evolves (BaseDebugClient.onReverseRequest command h).
Proof. unfold BaseDebugClient.onReverseRequest; evolves_auto. Qed.

(** *** What can happen to a client *)

Lemma grows_perform a c : grows c (perform a c).
Proof.
  destruct a; simpl;
    [ apply evolves_connectAdapter | apply evolves_disconnectAdapter
    | apply evolves_sendRequest | apply evolves_sendResponse
    | apply evolves_sendErrorResponse | apply evolves_sendMessage
    | apply evolves_onEvent | apply evolves_onReverseRequest
    | apply evolves_handleData | apply evolves_handleMessage
    | apply evolves_settle_reply ].
Qed.

Lemma grows_perform_all actions : forall c, grows c (perform_all actions c).
Proof.
  induction actions as [|a rest IH]; intros c; simpl.
  - apply grows_refl.
  - eapply grows_trans; [apply grows_perform | apply IH].
Qed.

(** In a reachable client every pending request is filed under an
    integer below the sequence counter. *)
Lemma pending_below_nextSeq c k p :
  reachable c -> pendingRequests c !! k = Some p ->
  exists z, k = Int z /\ 1 <= z < nextSeq c.
Proof.
  intros (level & actions & ->) H.
  destruct (grows_perform_all actions (new level)) as [_ Hg].
  destruct (Hg k p H) as [H'|H']; [|exact H'].
  simpl in H'. rewrite lookup_empty in H'. discriminate.
Qed.

(** A sequence number that has been handed out and is not pending will
    never be pending again. *)
Lemma absent_forever S actions c :
  S < nextSeq c -> pendingRequests c !! Int S = None ->
  S < nextSeq (perform_all actions c) /\
  pendingRequests (perform_all actions c) !! Int S = None.
Proof.
  intros Hs Ha. destruct (grows_perform_all actions c) as [Hn Hg].
  split; [lia|].
  destruct (pendingRequests (perform_all actions c) !! Int S) as [p|] eqn:Hp;
    [|reflexivity].
  destruct (Hg _ _ Hp) as [H'|(z & [= <-] & Hz)]; [congruence | lia].
Qed.

(** ** Responses *)

(** Logging touches nothing but the log. *)
Lemma log_fields entry c :
  let c' := snd (BaseDebugClient.log entry c) in
  nextSeq c' = nextSeq c /\ pendingRequests c' = pendingRequests c /\
  promises c' = promises c /\ written c' = written c /\ calls c' = calls c /\
  replies c' = replies c /\ connection c' = connection c.
Proof. unfold BaseDebugClient.log; destruct (logLevel c); simpl; auto 10. Qed.

Lemma handleMessage_response message seq c :
  response_for message seq ->
  BaseDebugClient.handleMessage message c =
    match BaseDebugClient.Map_get (pendingRequests c) seq with
    | Some p =>
        BaseDebugClient.pending_callback p message
          (set_pendingRequests (BaseDebugClient.Map_delete (pendingRequests c) seq) c)
    | None => BaseDebugClient.on_unmatched message c
    end.
Proof.
  intros [Hr Hs]. unfold BaseDebugClient.handleMessage, bind, lift. rewrite Hr.
  unfold BaseDebugClient.on_response, bind, lift, gets, modify. rewrite Hs.
  destruct (BaseDebugClient.Map_get (pendingRequests c) seq); reflexivity.
Qed.

(** What [isResponse] has checked. *)
Lemma response_for_fields message seq :
  response_for message seq ->
  message <> Null /\ seq = field message "request_seq" /\
  exists n, seq = Some (Num n).
Proof.
  intros [Hr Hs].
  assert (Hn : message <> Null) by (intros ->; discriminate).
  rewrite (get_field message "request_seq" Hn) in Hs. injection Hs as <-.
  split; [exact Hn|]. split; [reflexivity|].
  revert Hr. unfold Protocol.isResponse, Protocol.check, Protocol.and_then.
  rewrite !get_field by assumption.
  destruct (is_string (field message "type") "response"); [|discriminate].
  destruct (field message "request_seq") as [[| |n| | |]|]; cbn; try discriminate.
  intros _. exists n. reflexivity.
Qed.

(** The interpolations of the three lines about a response are its
    [command] and its [request_seq], which is a number. *)
Lemma response_line message seq :
  response_for message seq ->
  get message "command" = Normal (field message "command") /\
  get message "request_seq" = Normal seq /\
  interpolations [field message "command"; seq]
  = if printable (field message "command") then Normal tt else Throw cannot_convert.
Proof.
  intros Hr. destruct (response_for_fields message seq Hr) as (Hn & Hs & n & Hnum).
  split; [apply get_field, Hn|]. split; [exact (proj2 Hr)|].
  unfold printable. cbn [interpolations]. rewrite Hnum. cbn [interpolate ToString].
  destruct (interpolate (field message "command")) as [s|e] eqn:Hc; [reflexivity|].
  f_equal. revert Hc. apply interpolate_throws.
Qed.

(** An unmatched response whose [command] is printable is handed to the
    logger; one whose [command] is not makes the line throw. *)
Lemma on_unmatched_printable message seq c :
  response_for message seq -> printable (field message "command") = true ->
  BaseDebugClient.on_unmatched message c
  = BaseDebugClient.log (LogUnmatchedResponse message) c.
Proof.
  intros Hr Hp. destruct (response_line message seq Hr) as (Hc & Hs & Hi).
  unfold BaseDebugClient.on_unmatched, bind, lift. rewrite Hc, Hs, Hi, Hp.
  reflexivity.
Qed.

Lemma on_unmatched_unprintable message seq c :
  response_for message seq -> printable (field message "command") = false ->
  BaseDebugClient.on_unmatched message c = (Throw cannot_convert, c).
Proof.
  intros Hr Hp. destruct (response_line message seq Hr) as (Hc & Hs & Hi).
  unfold BaseDebugClient.on_unmatched, bind, lift. rewrite Hc, Hs, Hi, Hp.
  reflexivity.
Qed.

Lemma on_unmatched_fields message c :
  let c' := snd (BaseDebugClient.on_unmatched message c) in
  nextSeq c' = nextSeq c /\ pendingRequests c' = pendingRequests c /\
  promises c' = promises c /\ written c' = written c.
Proof.
  unfold BaseDebugClient.on_unmatched, bind, lift.
  destruct (get message "command") as [command|e]; [|cbn; auto].
  destruct (get message "request_seq") as [seq|e]; [|cbn; auto].
  destruct (interpolations [command; seq]); [|cbn; auto].
  destruct (log_fields (LogUnmatchedResponse message) c) as (H1 & H2 & H3 & H4 & _).
  auto.
Qed.

(** The stored callback on a success response and on a failure response. *)
Lemma pending_callback_success p response seq body c :
  response_for response seq -> printable (field response "command") = true ->
  get response "success" = Normal (Some (Bool true)) ->
  get response "body" = Normal body ->
  BaseDebugClient.pending_callback p response c
  = BaseDebugClient.resolve p body
      (snd (BaseDebugClient.log (LogReceivedResponse response) c)).
Proof.
  intros Hr Hp Hs Hb. destruct (response_line response seq Hr) as (Hc & Hq & Hi).
  unfold BaseDebugClient.pending_callback, bind, lift.
  rewrite Hs. cbn [truthy]. rewrite Hc, Hq, Hi, Hp, Hb.
  unfold BaseDebugClient.log. destruct (logLevel c); reflexivity.
Qed.

Lemma pending_callback_failure p response seq message text c :
  response_for response seq -> printable (field response "command") = true ->
  get response "success" = Normal (Some (Bool false)) ->
  get response "message" = Normal message ->
  Error_message message = Normal text ->
  BaseDebugClient.pending_callback p response c
  = BaseDebugClient.reject p (ErrorObject PlainError text)
      (snd (BaseDebugClient.log (LogReceivedErrorResponse response) c)).
Proof.
  intros Hr Hp Hs Hb Ht. destruct (response_line response seq Hr) as (Hc & Hq & Hi).
  unfold BaseDebugClient.pending_callback, bind, lift.
  rewrite Hs. cbn [truthy]. rewrite Hc, Hq, Hi, Hp, Hb, Ht.
  unfold BaseDebugClient.log. destruct (logLevel c); reflexivity.
Qed.

(** The callback of a response whose [command] is not printable throws
    before it settles anything. *)
Lemma pending_callback_unprintable p response seq c :
  response_for response seq -> printable (field response "command") = false ->
  BaseDebugClient.pending_callback p response c = (Throw cannot_convert, c).
Proof.
  intros Hr Hp. destruct (response_line response seq Hr) as (Hc & Hq & Hi).
  destruct (response_for_fields response seq Hr) as (Hn & _).
  unfold BaseDebugClient.pending_callback, bind, lift.
  rewrite (get_field response "success" Hn).
  destruct (truthy (field response "success")); rewrite Hc, Hq, Hi, Hp; reflexivity.
Qed.

Lemma settle_pending p s c :
  promises c !! p = Some Pending ->
  BaseDebugClient.settle p s c = (Normal tt, set_promises (<[p := s]> (promises c)) c) /\
  promises (snd (BaseDebugClient.settle p s c)) !! p = Some s.
Proof.
  intros H. unfold BaseDebugClient.settle, modify. rewrite H. simpl.
  split; [reflexivity|].
  apply list_lookup_insert_eq. eapply lookup_lt_Some; eassumption.
Qed.

Lemma pending_callback_view p response c :
  let c' := snd (BaseDebugClient.pending_callback p response c) in
  nextSeq c' = nextSeq c /\ pendingRequests c' = pendingRequests c /\
  written c' = written c.
Proof.
  unfold BaseDebugClient.pending_callback, bind, lift.
  destruct (get response "success") as [success|e]; [|simpl; auto].
  destruct (get response "command") as [command|e];
    [|destruct (truthy success); simpl; auto].
  destruct (get response "request_seq") as [seq|e];
    [|destruct (truthy success); simpl; auto].
  destruct (interpolations [command; seq]);
    [|destruct (truthy success); simpl; auto].
  destruct (truthy success).
  - destruct (log_fields (LogReceivedResponse response) c) as (H1 & H2 & _ & H4 & _).
    destruct (BaseDebugClient.log _ c) as [[[]|e] c1]; simpl in *; [|auto].
    destruct (get response "body"); simpl; [|auto].
    unfold BaseDebugClient.resolve, BaseDebugClient.settle, modify; simpl.
    destruct (promises c1 !! p) as [[]|]; simpl; auto.
  - destruct (log_fields (LogReceivedErrorResponse response) c) as (H1 & H2 & _ & H4 & _).
    destruct (BaseDebugClient.log _ c) as [[[]|e] c1]; simpl in *; [|auto].
    destruct (get response "message") as [message|e]; simpl; [|auto].
    destruct (Error_message message) as [text|e]; simpl; [|auto].
    unfold BaseDebugClient.reject, BaseDebugClient.settle, modify; simpl.
    destruct (promises c1 !! p) as [[]|]; simpl; auto.
Qed.



Lemma one_request_sent_reachable : reachable one_request_sent.
Proof. exists Off, [Connect 0 1; SendRequest (js "threads") None]. reflexivity. Defined.


(** A Response for a pending request settles the promise of that
    request. *)
Lemma response_settles c S p response :
  pendingRequests c !! Int S = Some p ->
  promises c !! p = Some Pending ->
  response_for response (Some (Num (Int S))) ->
  settles c p response.
Proof.
  intros Hentry Hpending Hr Hpr.
  rewrite (handleMessage_response response _ c Hr).
  unfold BaseDebugClient.Map_get, BaseDebugClient.Map_delete. rewrite Hentry.
  set (c0 := set_pendingRequests (delete (Int S) (pendingRequests c)) c).
  split.
  - intros body Hs Hb.
    rewrite (pending_callback_success p response _ body c0 Hr Hpr Hs Hb).
    destruct (log_fields (LogReceivedResponse response) c0) as (_ & _ & Hl & _).
    assert (Hc : promises (snd (BaseDebugClient.log (LogReceivedResponse response) c0)) !! p
                 = Some Pending) by (rewrite Hl; exact Hpending).
    unfold BaseDebugClient.resolve.
    destruct (settle_pending p (Fulfilled body) _ Hc) as [He Hv].
    split; [rewrite He; reflexivity | exact Hv].
  - intros message text Hs Hb Ht.
    rewrite (pending_callback_failure p response _ message text c0 Hr Hpr Hs Hb Ht).
    destruct (log_fields (LogReceivedErrorResponse response) c0) as (_ & _ & Hl & _).
    assert (Hc : promises (snd (BaseDebugClient.log (LogReceivedErrorResponse response) c0)) !! p
                 = Some Pending) by (rewrite Hl; exact Hpending).
    unfold BaseDebugClient.reject.
    destruct (settle_pending p (Rejected (ErrorObject PlainError text)) _ Hc)
      as [He Hv].
    split; [rewrite He; reflexivity | exact Hv].
Qed.

(** ** Reverse requests *)

Lemma after_send_fields k entry message c :
  let c' := after_send k entry message c in
  nextSeq c' = nextSeq c + 1 /\
  written c' = written c ++ [(outStream k, Protocol.encodeMessage message)] /\
  pendingRequests c' = pendingRequests c /\ promises c' = promises c.
Proof.
  unfold after_send, BaseDebugClient.log. simpl.
  destruct (logLevel c); simpl; auto.
Qed.

Lemma sendResponse_connected k request command request_seq body c :
  connection c = Some k ->
  get request "command" = Normal command ->
  get request "seq" = Normal request_seq ->
  printable command = true ->
  sendResponse request body c
  = (Normal tt,
     after_send k
       (LogSendingResponse (success_response_of (nextSeq c) command request_seq body))
       (success_response_of (nextSeq c) command request_seq body) c).
Proof.
  intros Hk Hc Hs Hp.
  unfold sendResponse, BaseDebugClient.sendResponse, sendMessage, after_send,
    BaseDebugClient.getNextSeq, BaseDebugClient.log, success_response_of,
    bind, gets, lift, modify.
  unfold printable in Hp. cbn [interpolations].
  rewrite Hk, Hc, Hs. simpl.
  destruct (interpolate command); [|discriminate].
  destruct (logLevel c); simpl; rewrite Hk; reflexivity.
Qed.

Lemma sendErrorResponse_connected k request command request_seq message error c :
  connection c = Some k ->
  get request "command" = Normal command ->
  get request "seq" = Normal request_seq ->
  printable command = true -> printable message = true ->
  sendErrorResponse request message error c
  = (Normal tt,
     after_send k
       (LogSendingErrorResponse
          (error_response_of (nextSeq c) command request_seq message error))
       (error_response_of (nextSeq c) command request_seq message error) c).
Proof.
  intros Hk Hc Hs Hp Hm.
  unfold sendErrorResponse, BaseDebugClient.sendErrorResponse, sendMessage, after_send,
    BaseDebugClient.getNextSeq, BaseDebugClient.log, error_response_of,
    bind, gets, lift, modify.
  unfold printable in Hp, Hm. cbn [interpolations].
  rewrite Hk, Hc, Hs. simpl.
  destruct (interpolate command); [|discriminate].
  destruct (interpolate message); [|discriminate].
  destruct (logLevel c); simpl; rewrite Hk; reflexivity.
Qed.

Lemma isRequest_not_null message :
  Protocol.isRequest message = Normal true -> message <> Null.
Proof. intros H ->. discriminate. Qed.

(** What [isRequest] has checked: the [command] is a string and the [seq]
    a number, so the lines about a request can be built. *)
Lemma isRequest_fields message :
  Protocol.isRequest message = Normal true ->
  classify message = Normal Request /\
  (exists s, field message "command" = Some (Str s)) /\
  (exists n, field message "seq" = Some (Num n)).
Proof.
  intros Hq. pose proof (isRequest_not_null message Hq) as Hnn.
  rewrite (classify_by_shape message Hnn).
  revert Hq. unfold classify_numbers, Protocol.isRequest, Protocol.check,
    Protocol.and_then. rewrite !get_field by assumption.
  unfold is_number, is_a_string.
  destruct (field message "type") as [[| | |t| |]|]; simpl; try discriminate.
  unfold is_string.
  destruct (str_eqb t (js "request")) eqn:Ht; [|discriminate].
  unfold str_eqb in *. apply bool_decide_eq_true in Ht. subst t.
  destruct (field message "command") as [[| | |s| |]|]; simpl; try discriminate.
  destruct (field message "seq") as [[| |n| | |]|]; simpl; try discriminate.
  intros _. split; [reflexivity|]. split; eexists; reflexivity.
Qed.

(** Handling a request: the handler is called and its promise chain kept,
    or the logger is told that there is none. *)
Lemma handleMessage_request message command c :
  Protocol.isRequest message = Normal true ->
  field message "command" = Some (Str command) ->
  BaseDebugClient.handleMessage message c =
    match reverseRequestHandlers c !! command with
    | Some h =>
        (Normal tt,
         push_reply_of message h
           (snd (BaseDebugClient.log (LogReceivedRequest message) c)))
    | None => BaseDebugClient.log (LogNoHandler message) c
    end.
Proof.
  intros Hq Hc. pose proof (isRequest_not_null message Hq) as Hnn.
  destruct (isRequest_fields message Hq) as (Hkind & _ & n & Hn).
  rewrite handleMessage_classify, Hkind.
  unfold BaseDebugClient.on_request, bind, lift, gets, modify.
  rewrite !get_field by assumption. rewrite Hc, Hn. simpl.
  destruct (reverseRequestHandlers c !! command) as [h|]; [|reflexivity].
  unfold BaseDebugClient.log. destruct (logLevel c); reflexivity.
Qed.



(** ** Text that is ASCII, and decimal numerals *)

Lemma byte_of_N_to_N u : (u < 256)%N -> Byte.to_N (byte_of_N u) = u.
Proof.
  intros H. unfold byte_of_N. rewrite N.mod_small by assumption.
  destruct (Byte.of_N u) as [b|] eqn:Hb.
  - apply Byte.to_of_N. assumption.
  - apply Byte.of_N_None_iff in Hb. lia.
Qed.

Lemma surrogate_ascii u :
  (u < 128)%N -> is_high_surrogate u = false /\ is_low_surrogate u = false.
Proof.
  intros H. unfold is_high_surrogate, is_low_surrogate.
  split; apply andb_false_iff; left; apply N.leb_gt; lia.
Qed.

Lemma utf8_encode_cons_ascii u s :
  (u < 128)%N -> utf8_encode (u :: s) = byte_of_N u :: utf8_encode s.
Proof.
  intros H. simpl. destruct (surrogate_ascii u H) as [-> ->].
  unfold utf8_of_codepoint. apply N.ltb_lt in H. rewrite H. reflexivity.
Qed.

Lemma utf8_encode_app_ascii s t :
  ascii s -> utf8_encode (s ++ t) = map byte_of_N s ++ utf8_encode t.
Proof.
  induction 1 as [|u s Hu _ IH]; [reflexivity|].
  change ((u :: s) ++ t) with (u :: s ++ t).
  rewrite utf8_encode_cons_ascii, IH by assumption. reflexivity.
Qed.

Lemma utf8_encode_ascii s : ascii s -> utf8_encode s = map byte_of_N s.
Proof.
  intros H. rewrite <- (app_nil_r s) at 1.
  rewrite utf8_encode_app_ascii by assumption. apply app_nil_r.
Qed.

Lemma utf8_length_ascii s : ascii s -> utf8_length s = length s.
Proof.
  intros H. unfold utf8_length. rewrite utf8_encode_ascii by assumption.
  apply length_map.
Qed.

Lemma utf8_decode_ascii s rest :
  ascii s -> utf8_decode (map byte_of_N s ++ rest) = s ++ utf8_decode rest.
Proof.
  induction 1 as [|u s Hu _ IH]; [reflexivity|].
  simpl. rewrite byte_of_N_to_N by lia.
  apply N.ltb_lt in Hu. rewrite Hu, IH. reflexivity.
Qed.

Lemma utf8_round_trip_ascii s : ascii s -> utf8_decode (utf8_encode s) = s.
Proof.
  intros H. rewrite utf8_encode_ascii by assumption.
  rewrite <- (app_nil_r (map byte_of_N s)).
  rewrite utf8_decode_ascii by assumption. apply app_nil_r.
Qed.

(** *** Decimal numerals *)

Lemma digits_rev_numeral fuel n : numeral (digits_rev fuel n).
Proof.
  revert n; induction fuel as [|f IH]; intros n; cbn [digits_rev]; [constructor|].
  destruct (N.ltb_spec n 10).
  - repeat constructor; unfold digit_char; lia.
  - constructor; [|apply IH].
    unfold digit_char. pose proof (N.mod_lt n 10 ltac:(lia)) as Hm.
    revert Hm. generalize (n mod 10)%N. intros r Hr. lia.
Qed.

Lemma decimal_numeral n : numeral (decimal n).
Proof. unfold decimal, numeral. apply Forall_rev. apply digits_rev_numeral. Qed.

Lemma decimal_nonempty n : decimal n <> [].
Proof.
  unfold decimal. intros H. apply (f_equal (@rev N)) in H.
  rewrite rev_involutive in H. cbn [digits_rev rev] in H.
  destruct (n <? 10)%N; discriminate.
Qed.

Lemma digits_value_rev ds : digits_value (rev ds) = value_rev ds.
Proof.
  unfold digits_value, value_rev. rewrite <- (rev_involutive ds) at 2.
  symmetry. apply (fold_left_rev_right (fun d acc => (acc * 10 + d)%N)).
Qed.

Lemma digits_rev_value fuel n :
  (n < 2 ^ N.of_nat fuel)%N ->
  value_rev (map (fun c => (c - 48)%N) (digits_rev fuel n)) = n.
Proof.
  revert n; induction fuel as [|f IH]; intros n Hn.
  - simpl in Hn. assert (n = 0%N) by lia. subst. reflexivity.
  - cbn [digits_rev]. destruct (N.ltb_spec n 10).
    + cbn [map value_rev fold_right]. unfold digit_char. lia.
    + cbn [map value_rev fold_right]. fold (value_rev (map (fun c => (c - 48)%N) (digits_rev f (n / 10)))). rewrite IH.
      * unfold digit_char. pose proof (N.div_mod n 10 ltac:(lia)) as Hd.
        pose proof (N.mod_lt n 10 ltac:(lia)) as Hm.
        revert Hd Hm. generalize (n mod 10)%N (n / 10)%N. intros r q Hd Hm. lia.
      * rewrite Nat2N.inj_succ, N.pow_succ_r' in Hn.
        apply N.Div0.div_lt_upper_bound; lia.
Qed.

Lemma decimal_value n :
  digits_value (map (fun c => (c - 48)%N) (decimal n)) = n.
Proof.
  unfold decimal. rewrite map_rev, digits_value_rev. apply digits_rev_value.
  rewrite Nat2N.inj_succ, N2Nat.id.
  destruct n as [|p]; [reflexivity|].
  apply N.log2_spec. lia.
Qed.

Lemma span_digits_numeral s rest :
  numeral s ->
  match rest with c :: _ => is_digit c = false | [] => True end ->
  span_digits (s ++ rest) = (map (fun c => (c - 48)%N) s, rest).
Proof.
  intros Hs Hrest. induction Hs as [|u s Hu _ IH]; cbn [span_digits app map].
  - destruct rest as [|c r]; [reflexivity|].
    cbn [span_digits]. rewrite Hrest. reflexivity.
  - unfold is_digit at 1.
    destruct (N.leb_spec 48 u); [|lia]. destruct (N.leb_spec u 57); [|lia].
    cbn [andb]. rewrite IH. reflexivity.
Qed.

Ltac decide_tests :=
  repeat match goal with
         | |- context [(?a <=? ?b)%N] => destruct (N.leb_spec a b); try lia
         | |- context [(?a =? ?b)%N] => destruct (N.eqb_spec a b); try lia
         end.

Lemma digit_not_whitespace u : (48 <= u <= 57)%N -> is_whitespace u = false.
Proof. intros H. unfold is_whitespace. decide_tests; reflexivity. Qed.

Lemma trim_start_numeral s : numeral s -> trim_start s = s.
Proof.
  destruct 1 as [|u s Hu _]; [reflexivity|].
  cbn [trim_start]. rewrite digit_not_whitespace by assumption. reflexivity.
Qed.

Lemma trim_numeral s : numeral s -> trim s = s.
Proof.
  intros H. unfold trim. rewrite (trim_start_numeral s H).
  rewrite trim_start_numeral by (apply Forall_rev; assumption).
  apply rev_involutive.
Qed.

Lemma signed_literal_numeral s :
  numeral s -> s <> [] ->
  signed_literal s = Int (Z.of_N (digits_value (map (fun c => (c - 48)%N) s))).
Proof.
  intros Hs Hne. unfold signed_literal.
  assert (Hsign : read_sign s = (false, s)).
  { destruct Hs as [|u s Hu _]; [reflexivity|].
    cbn [read_sign]. decide_tests; reflexivity. }
  rewrite Hsign.
  assert (Hinf : str_eqb s (js "Infinity") = false).
  { unfold str_eqb. apply bool_decide_eq_false. intros ->.
    inversion Hs as [|u t Hu _]. subst. vm_compute in Hu. destruct Hu as [_ Hu].
    apply Hu. reflexivity. }
  rewrite Hinf. unfold decimal_literal.
  pose proof (span_digits_numeral s [] Hs I) as Hspan. rewrite app_nil_r in Hspan.
  rewrite Hspan.
  destruct s as [|u t]; [contradiction|].
  cbn [map read_exponent length app]. rewrite app_nil_r.
  unfold scale10. simpl. rewrite Z.mul_1_r. reflexivity.
Qed.

(** [+"<digits>"] is the number the digits denote. *)
Lemma ToNumber_decimal n : ToNumber (Some (decimal n)) = Int (Z.of_N n).
Proof.
  pose proof (decimal_numeral n) as Hs. pose proof (decimal_nonempty n) as Hne.
  pose proof (signed_literal_numeral _ Hs Hne) as Hv. rewrite decimal_value in Hv.
  unfold ToNumber, StringToNumber. rewrite trim_numeral by assumption.
  destruct (decimal n) as [|c0 [|c1 r]] eqn:Hd; [contradiction | exact Hv |].
  inversion Hs as [|? ? H0 Hs']; subst. inversion Hs' as [|? ? H1 _]; subst.
  decide_tests; exact Hv.
Qed.

(** ** Well-formed frames *)

Lemma one_line_ascii s : one_line s -> ascii s.
Proof. apply Forall_impl. intros u [H _]. exact H. Qed.

Lemma numeral_one_line s : numeral s -> one_line s.
Proof. apply Forall_impl. intros u H. lia. Qed.

Lemma header_text_one_line n : one_line (header_text n).
Proof.
  unfold header_text. apply Forall_app. split.
  - vm_compute. repeat constructor; discriminate.
  - apply Forall_app. split.
    + vm_compute. repeat constructor; discriminate.
    + apply numeral_one_line, decimal_numeral.
Qed.

Lemma utf8_TWO_CRLF : utf8_encode Protocol.TWO_CRLF = crlf_crlf.
Proof. reflexivity. Qed.

Lemma byte_of_N_not_cr u : (u < 128)%N -> u <> 13%N -> Byte.eqb x0d (byte_of_N u) = false.
Proof.
  intros Hu Hne. destruct (Byte.eqb x0d (byte_of_N u)) eqn:He; [|reflexivity].
  apply Byte.byte_dec_bl in He.
  pose proof (byte_of_N_to_N u ltac:(lia)) as Ht. rewrite <- He in Ht.
  simpl in Ht. congruence.
Qed.

(** The header ends where the first blank line starts. *)
Lemma index_from_one_line pre rest i :
  one_line pre ->
  Buffer.index_from crlf_crlf (map byte_of_N pre ++ crlf_crlf ++ rest) i
  = i + Z.of_nat (length pre).
Proof.
  intros H. revert i. induction H as [|u pre [Hu Hne] _ IH]; intros i.
  - simpl. lia.
  - cbn [map app Buffer.index_from length].
    replace (Buffer.starts_with crlf_crlf
               (byte_of_N u :: map byte_of_N pre ++ crlf_crlf ++ rest)) with false.
    + rewrite IH. lia.
    + cbn [Buffer.starts_with crlf_crlf]. rewrite byte_of_N_not_cr by assumption.
      reflexivity.
Qed.

Lemma split_on_one_line s cur :
  Forall (fun u => u <> 13%N) s -> split_on [13; 10]%N s cur 0 = [rev cur ++ s].
Proof.
  intros H. revert cur. induction H as [|u s Hu _ IH]; intros cur.
  - simpl. rewrite app_nil_r. reflexivity.
  - cbn [split_on strip_prefix]. destruct (N.eqb_spec 13 u); [congruence|].
    rewrite IH. simpl. rewrite <- app_assoc. reflexivity.
Qed.

Lemma split_one_line s : one_line s -> split s [13; 10]%N = [s].
Proof.
  intros H. unfold split. rewrite split_on_one_line; [reflexivity|].
  revert H. apply Forall_impl. intros u [_ H]. exact H.
Qed.

Lemma split_colon_spaces_numeral s cur b :
  numeral s -> split_colon_spaces_from s cur b = [rev cur ++ s].
Proof.
  intros H. revert cur b. induction H as [|u s Hu _ IH]; intros cur b.
  - simpl. rewrite app_nil_r. reflexivity.
  - cbn [split_colon_spaces_from].
    destruct (N.eqb_spec u 32); [lia|]. destruct (N.eqb_spec u 58); [lia|].
    rewrite andb_false_r. cbn [andb]. rewrite IH. simpl.
    rewrite <- app_assoc. reflexivity.
Qed.

Lemma split_header_text n :
  split_colon_spaces (header_text n) = [Protocol.CONTENT_LENGTH_HEADER; decimal n].
Proof.
  unfold header_text, split_colon_spaces.
  pose proof (decimal_numeral n) as Hs. revert Hs. generalize (decimal n). intros ds Hs.
  let t := eval vm_compute in Protocol.CONTENT_LENGTH_HEADER in
    change Protocol.CONTENT_LENGTH_HEADER with t.
  let t := eval vm_compute in (js ": ") in change (js ": ") with t.
  cbn [app split_colon_spaces_from N.eqb Pos.eqb andb rev].
  rewrite split_colon_spaces_numeral by assumption. reflexivity.
Qed.

(** Reading the header lines of a well-formed header sets the expected
    length. *)
Lemma read_header_text n c :
  read_header_lines (split (header_text n) [13; 10]%N) c
  = (Normal tt, set_contentLength (Int (Z.of_N n)) c).
Proof.
  rewrite split_one_line by apply header_text_one_line.
  cbn [read_header_lines]. rewrite split_header_text.
  cbn [lookup list_lookup]. rewrite ToNumber_decimal.
  rewrite bool_decide_eq_true_2 by reflexivity. reflexivity.
Qed.

Lemma toString_exact buf data :
  Buffer.toString (buf ++ data) (Int (Z.of_nat (length buf))) = utf8_decode buf.
Proof.
  rewrite toString_fits by (simpl; apply Z.leb_le; lia).
  unfold Buffer.toString. simpl.
  rewrite Z.ltb_irrefl.
  destruct (Z.leb_spec (Z.of_nat (length buf)) 0).
  - destruct buf; [reflexivity | simpl in *; lia].
  - rewrite Nat2Z.id, firstn_all. reflexivity.
Qed.

Lemma slice_exact buf data :
  Buffer.slice (buf ++ data) (Int (Z.of_nat (length buf))) = data.
Proof.
  rewrite slice_fits by (simpl; apply Z.leb_le; lia).
  unfold whole. simpl. rewrite Nat2Z.id, drop_all. reflexivity.
Qed.

(** A turn on a buffer that starts with a well-formed header. *)
Lemma header_step c n rest :
  ge0 (contentLength c) = false ->
  buffer c = map byte_of_N (header_text n) ++ crlf_crlf ++ rest ->
  iteration c = (Normal true, with_stream rest (Int (Z.of_N n)) c).
Proof.
  intros Hn Hb.
  assert (He : header_end c = Z.of_nat (length (map byte_of_N (header_text n)))).
  { unfold header_end, Buffer.indexOf. rewrite Hb, utf8_TWO_CRLF.
    rewrite index_from_one_line by apply header_text_one_line.
    rewrite length_map. lia. }
  rewrite iteration_cases, Hn.
  destruct (Z.eqb_spec (header_end c) (-1)) as [Hx|_]; [lia|]. simpl negb. cbv iota.
  unfold after_header. rewrite He, Hb.
  rewrite toString_exact.
  replace (utf8_decode (map byte_of_N (header_text n))) with (header_text n).
  2: { pose proof (utf8_decode_ascii (header_text n) []
         (one_line_ascii _ (header_text_one_line n))) as Hd.
       rewrite !app_nil_r in Hd. symmetry. exact Hd. }
  rewrite read_header_text. simpl snd.
  replace (Z.of_nat (length (map byte_of_N (header_text n))) + 4)
    with (Z.of_nat (length (map byte_of_N (header_text n) ++ crlf_crlf)))
    by (rewrite length_app; simpl; lia).
  rewrite app_assoc, slice_exact. reflexivity.
Qed.

(** A turn on a buffer that holds the whole expected body. *)
Lemma body_step c payload rest :
  contentLength c = Int (Z.of_nat (length payload)) ->
  buffer c = payload ++ rest ->
  iteration c
  = (Normal true,
     with_stream rest (Int (-1)) (snd (handle_body (utf8_decode payload) c))).
Proof.
  intros Hn Hb. rewrite iteration_cases, Hn, Hb. simpl ge0.
  destruct (Z.leb_spec 0 (Z.of_nat (length payload))); [|lia].
  simpl int_ge.
  destruct (Z.leb_spec (Z.of_nat (length payload))
              (Z.of_nat (length (payload ++ rest)))) as [_|Hx];
    [|rewrite length_app in Hx; lia].
  rewrite after_body_split, Hn, Hb, toString_exact, slice_exact. reflexivity.
Qed.

Lemma drain_idle c :
  buffer c = [] -> ge0 (contentLength c) = false -> drain c = (Normal tt, c).
Proof.
  intros Hb Hn. rewrite drain_unfold, iteration_cases, Hn.
  unfold header_end. rewrite Hb. reflexivity.
Qed.

(** One well-formed frame at the head of the buffer is taken out and its
    payload handled; the loop goes on with what follows. *)
Lemma frame_step c payload rest :
  ge0 (contentLength c) = false ->
  buffer c = frame payload ++ rest ->
  drain c
  = drain (with_stream rest (Int (-1)) (snd (handle_body (utf8_decode payload) c))).
Proof.
  intros Hn Hb. unfold frame in Hb. rewrite <- !app_assoc in Hb.
  rewrite drain_unfold, (header_step c _ _ Hn Hb).
  rewrite drain_unfold.
  rewrite (body_step _ payload rest); [| simpl; rewrite nat_N_Z; reflexivity | reflexivity].
  pose proof (indep_handle_body (utf8_decode payload) c (payload ++ rest)
                (Int (Z.of_N (N.of_nat (length payload))))) as Hi.
  rewrite Hi. reflexivity.
Qed.

Lemma deliver_stream payloads : forall c,
  buffer (deliver payloads c) = buffer c /\
  contentLength (deliver payloads c) = contentLength c.
Proof.
  induction payloads as [|p rest IH]; intros c; simpl; [auto|].
  destruct (IH (snd (handle_body (utf8_decode p) c))) as [-> ->].
  apply handle_body_stream.
Qed.

Lemma deliver_with_stream payloads : forall c b n,
  deliver payloads (with_stream b n c) = with_stream b n (deliver payloads c).
Proof.
  induction payloads as [|q ps IH]; intros c b n; [reflexivity|].
  simpl. rewrite (indep_handle_body (utf8_decode q) c b n). simpl. apply IH.
Qed.

Lemma drain_frames payloads : forall c,
  buffer c = concat (map frame payloads) ->
  contentLength c = Int (-1) ->
  drain c = (Normal tt, with_stream [] (Int (-1)) (deliver payloads c)).
Proof.
  induction payloads as [|p rest IH]; intros c Hb Hn.
  - simpl in *. rewrite drain_idle by (rewrite ?Hn; auto).
    rewrite <- Hb, <- Hn, with_stream_id. reflexivity.
  - simpl in Hb. rewrite (frame_step c p _ ltac:(rewrite Hn; reflexivity) Hb).
    rewrite IH by reflexivity. f_equal.
    simpl deliver.
    rewrite deliver_with_stream. reflexivity.
Qed.

(** A chunk made of well-formed frames, arriving at an idle decoder: every
    payload is handled, in order. *)
Lemma handleData_frames payloads c :
  buffer c = [] -> contentLength c = Int (-1) ->
  handleData (concat (map frame payloads)) c = (Normal tt, deliver payloads c).
Proof.
  intros Hb Hn. rewrite handleData_drain, Hb. simpl app.
  rewrite (drain_frames payloads) by (simpl; auto). f_equal.
  replace (set_buffer (concat (map frame payloads)) c)
    with (with_stream (concat (map frame payloads)) (Int (-1)) c)
    by (rewrite <- Hn; destruct c; reflexivity).
  rewrite deliver_with_stream.
  destruct (deliver_stream payloads c) as [Hb' Hn'].
  transitivity (with_stream (buffer (deliver payloads c))
                  (contentLength (deliver payloads c)) (deliver payloads c));
    [|apply with_stream_id].
  rewrite Hb', Hn', Hb, Hn. reflexivity.
Qed.

(** ** Properties of the decoder *)

(** C3.  Whatever bytes arrive (those of an encoded message in
    particular) and however they are cut into one or more consecutive
    chunks, feeding the chunks one after another leaves the client in
    exactly the state that feeding all the bytes as a single chunk does:
    the same messages decoded, in the same order, with the same effects.
    This holds from every decode state, the empty one included. *)
Theorem chunk_boundary_independence (c : Client) (chunks : list (list byte))
  (bytes : list byte) :
  chunks <> [] -> concat chunks = bytes -> feed chunks c = feed [bytes] c.
Proof.
  intros Hne <-. destruct chunks as [|first rest]; [contradiction|].
  rewrite feed_concat. reflexivity.
Qed.

Lemma chunk_boundary_independence_witness :
  response_chunks <> [] /\ concat response_chunks = response_bytes /\
  feed response_chunks one_request_sent = feed [response_bytes] one_request_sent /\
  promises (feed response_chunks one_request_sent)
  = [Fulfilled (Some (Obj [(js "x", Num (Int 1))]))].
Proof.
  assert (H1 : response_chunks <> []) by discriminate.
  assert (H2 : concat response_chunks = response_bytes) by reflexivity.
  pose proof (chunk_boundary_independence one_request_sent response_chunks
                response_bytes H1 H2) as H.
  split; [exact H1|]. split; [exact H2|]. split; [exact H|].
  rewrite H. vm_compute. reflexivity.
Defined.

(** ** A logger that returns

    With a logger that returns for every line, every method does what it
    does with [returning]. *)

Lemma agree_refl {A} (m : JSM A) : agree m m.
Proof. intros c. reflexivity. Qed.

Lemma agree_bind {A B} (m m' : JSM A) (k k' : A -> JSM B) :
  agree m m' -> (forall a, agree (k a) (k' a)) -> agree (bind m k) (bind m' k').
Proof.
  intros Hm Hk c. unfold bind. rewrite Hm.
  destruct (m' c) as [[a|e] c']; [apply Hk | reflexivity].
Qed.

Lemma agree_try_catch {A} (m m' : JSM A) (h h' : thrown -> JSM A) :
  agree m m' -> (forall e, agree (h e) (h' e)) ->
  agree (try_catch m h) (try_catch m' h').
Proof.
  intros Hm Hh c. unfold try_catch. rewrite Hm.
  destruct (m' c) as [[a|e] c']; [reflexivity | apply Hh].
Qed.

Ltac agree_step :=
  first
    [ solve [auto]
    | apply agree_refl
    | apply agree_bind; [|intros ?]
    | apply agree_try_catch; [|intros ?]
    | match goal with
      | |- agree (match ?x with _ => _ end) _ => destruct x
      | |- agree (if ?x then _ else _) _ => destruct x
      end ].

Ltac agree_auto := repeat agree_step.

Section Returning.

Context (L : Logger) (HL : forall entry, @logger L entry = None).

Lemma returning_log entry :
  agree (@BaseDebugClient.log L entry) (@BaseDebugClient.log returning entry).
Proof. intros c. unfold BaseDebugClient.log. rewrite HL. reflexivity. Qed.

Lemma returning_pending_callback p response :
  agree (@BaseDebugClient.pending_callback L p response)
        (@BaseDebugClient.pending_callback returning p response).
Proof.
  pose proof returning_log.
  unfold BaseDebugClient.pending_callback. agree_auto; auto.
Qed.

Lemma returning_on_response message :
  agree (@BaseDebugClient.on_response L message)
        (@BaseDebugClient.on_response returning message).
Proof.
  pose proof returning_log. pose proof returning_pending_callback.
  unfold BaseDebugClient.on_response, BaseDebugClient.on_unmatched.
  agree_auto; auto.
Qed.

Lemma returning_handleMessage message :
  agree (@BaseDebugClient.handleMessage L message)
        (@BaseDebugClient.handleMessage returning message).
Proof.
  pose proof returning_log. pose proof returning_on_response.
  unfold BaseDebugClient.handleMessage, BaseDebugClient.on_event,
    BaseDebugClient.on_request, BaseDebugClient.on_unknown.
  agree_auto; auto.
Qed.

Lemma returning_parse_and_handle body :
  agree (@parse_and_handle L body) (@parse_and_handle returning body).
Proof.
  pose proof returning_handleMessage.
  unfold parse_and_handle. agree_auto; auto.
Qed.

Lemma returning_handle_body body :
  agree (@handle_body L body) (@handle_body returning body).
Proof.
  pose proof returning_log. pose proof returning_parse_and_handle.
  unfold handle_body. agree_auto; auto.
Qed.

Lemma returning_iteration : agree (@iteration L) (@iteration returning).
Proof.
  pose proof returning_handle_body.
  unfold iteration. agree_auto; auto.
Qed.

Lemma returning_loop fuel : agree (@loop L fuel) (@loop returning fuel).
Proof.
  pose proof returning_iteration.
  induction fuel as [|fuel IH]; cbn [loop]; agree_auto.
Qed.

Lemma returning_handleData data :
  agree (@handleData L data) (@handleData returning data).
Proof.
  unfold handleData. agree_auto. intros c. apply returning_loop.
Qed.

Lemma returning_deliver payloads : forall c,
  @deliver L payloads c = @deliver returning payloads c.
Proof.
  induction payloads as [|payload payloads IH]; intros c; [reflexivity|].
  cbn [deliver fold_left]. rewrite returning_handle_body. apply IH.
Qed.

End Returning.




(** ** Encoding *)

(** What [encodeMessage] writes: the header carries [body.length], the
    number of UTF-16 code units of the body. *)
Lemma encodeMessage_header message :
  Protocol.encodeMessage message
  = header_text (N.of_nat (length (JSON.stringify message)))
      ++ Protocol.TWO_CRLF ++ JSON.stringify message.
Proof. unfold Protocol.encodeMessage, header_text. rewrite <- !app_assoc. reflexivity. Qed.

(** The two agree on a body that is ASCII. *)
Lemma encodeMessage_ascii message :
  ascii (JSON.stringify message) ->
  Protocol.encodeMessage message = encode_with_byte_length message.
Proof.
  intros H. rewrite encodeMessage_header. unfold encode_with_byte_length.
  rewrite utf8_length_ascii by assumption. reflexivity.
Qed.

(** C1 at a message with a non-ASCII character: the body has 40 code units
    and 41 bytes, and [encodeMessage] announces 40. *)
Theorem encodeMessage_counts_code_units :
  length (JSON.stringify e_acute_request) = 40%nat /\
  utf8_length (JSON.stringify e_acute_request) = 41%nat /\
  Protocol.encodeMessage e_acute_request
  = js "Content-Length: 40" ++ Protocol.TWO_CRLF ++ JSON.stringify e_acute_request /\
  Protocol.encodeMessage e_acute_request <> encode_with_byte_length e_acute_request.
Proof.
  repeat split. intros H. vm_compute in H. discriminate.
Qed.

(** ** JSON texts

    What [JSON.stringify] writes, [JSON.parse] reads back. *)

(** *** Strings *)
Lemma hex_value_digit d : (d < 16)%N -> JSON.hex_value (JSON.hex_digit d) = Some d.
Proof.
  intros H. unfold JSON.hex_value, JSON.hex_digit, radix_digit, is_digit.
  destruct (N.ltb_spec d 10).
  - destruct (N.leb_spec 48 (48 + d)); [|lia].
    destruct (N.leb_spec (48 + d) 57); [|lia]. simpl.
    replace (48 + d - 48)%N with d by lia.
    destruct (N.ltb_spec d 16); [reflexivity | lia].
  - destruct (N.leb_spec 48 (87 + d)); [|lia].
    destruct (N.leb_spec (87 + d) 57); [lia|]. simpl.
    destruct (N.leb_spec 97 (87 + d)); [|lia].
    destruct (N.leb_spec (87 + d) 102); [|lia]. simpl.
    replace (87 + d - 87)%N with d by lia.
    destruct (N.ltb_spec d 16); [reflexivity | lia].
Qed.

Lemma hex_digit_plain d : (d < 16)%N -> (48 <= JSON.hex_digit d <= 102)%N.
Proof. intros H. unfold JSON.hex_digit. destruct (d <? 10)%N; lia. Qed.

(** A [\uXXXX] escape is read back as its code unit. *)
Lemma parse_unicode_escape c t acc :
  (c < 65536)%N ->
  JSON.parse_string (JSON.unicode_escape c ++ t) acc = JSON.parse_string t (c :: acc).
Proof.
  intros Hc. unfold JSON.unicode_escape.
  cbn [app JSON.parse_string N.eqb Pos.eqb].
  assert (H1 : (c / 4096 < 16)%N) by (apply N.Div0.div_lt_upper_bound; lia).
  assert (H2 : ((c / 256) mod 16 < 16)%N) by (apply N.mod_lt; lia).
  assert (H3 : ((c / 16) mod 16 < 16)%N) by (apply N.mod_lt; lia).
  assert (H4 : (c mod 16 < 16)%N) by (apply N.mod_lt; lia).
  rewrite !hex_value_digit by assumption.
  replace (c / 4096 * 4096 + (c / 256) mod 16 * 256 + (c / 16) mod 16 * 16 + c mod 16)%N
    with c; [reflexivity|].
  pose proof (N.div_mod c 16 ltac:(lia)) as E1.
  pose proof (N.div_mod (c / 16) 16 ltac:(lia)) as E2.
  pose proof (N.div_mod (c / 256) 16 ltac:(lia)) as E3.
  rewrite (N.Div0.div_div c 16 16) in E2.
  rewrite (N.Div0.div_div c 256 16) in E3.
  change (16 * 16)%N with 256%N in E2.
  change (256 * 16)%N with 4096%N in E3.
  revert E1 E2 E3 H1 H2 H3 H4.
  generalize (c mod 16)%N ((c / 16) mod 16)%N ((c / 256) mod 16)%N
    (c / 16)%N (c / 256)%N (c / 4096)%N.
  intros. lia.
Qed.

Ltac decide_unit c k :=
  let E := fresh "E" in
  destruct (N.eqb_spec c k) as [E|E]; [try (exfalso; lia) | try (exfalso; lia)].

(** The escaped text of a string, up to the closing quote, is read back as
    the string. *)
Lemma parse_string_escape s :
  code_units s -> forall acc rest,
  JSON.parse_string (JSON.escape s ++ 34%N :: rest) acc = Some (rev acc ++ s, rest).
Proof.
  remember (length s) as n eqn:Hn. revert s Hn.
  induction n as [n IH] using lt_wf_ind. intros s Hn Hs acc rest.
  destruct s as [|c r].
  - simpl. rewrite app_nil_r. reflexivity.
  - inversion Hs as [|? ? Hc Hr]; subst.
    assert (IHr : forall acc,
      JSON.parse_string (JSON.escape r ++ 34%N :: rest) acc = Some (rev acc ++ r, rest)).
    { intros. apply (IH (length r)); simpl; auto; lia. }
    assert (step : forall x,
      Some (rev (x :: acc) ++ r, rest) = Some (rev acc ++ x :: r, rest)).
    { intros. simpl. rewrite <- app_assoc. reflexivity. }
    assert (plain : (c <> 34 -> c <> 92 -> 32 <= c ->
      forall t, JSON.parse_string (c :: t) acc = JSON.parse_string t (c :: acc))%N).
    { intros H1 H2 H3 t. cbn [JSON.parse_string].
      decide_unit c 34%N. decide_unit c 92%N.
      destruct (N.ltb_spec c 32); [lia | reflexivity]. }
    cbn [JSON.escape].
    destruct (N.eqb_spec c 8) as [->|n8]. { cbn. rewrite IHr. apply step. }
    destruct (N.eqb_spec c 9) as [->|n9]. { cbn. rewrite IHr. apply step. }
    destruct (N.eqb_spec c 10) as [->|n10]. { cbn. rewrite IHr. apply step. }
    destruct (N.eqb_spec c 12) as [->|n12]. { cbn. rewrite IHr. apply step. }
    destruct (N.eqb_spec c 13) as [->|n13]. { cbn. rewrite IHr. apply step. }
    destruct (N.eqb_spec c 34) as [->|n34]. { cbn. rewrite IHr. apply step. }
    destruct (N.eqb_spec c 92) as [->|n92]. { cbn. rewrite IHr. apply step. }
    destruct (N.ltb_spec c 32) as [lt32|ge32].
    { rewrite <- app_assoc, parse_unicode_escape, IHr by assumption. apply step. }
    destruct (is_high_surrogate c) eqn:Hhigh.
    { destruct r as [|lo r'].
      - change (JSON.unicode_escape c) with (JSON.unicode_escape c ++ JSON.escape []).
        rewrite <- app_assoc, parse_unicode_escape, IHr by assumption. apply step.
      - destruct (is_low_surrogate lo) eqn:Hlow.
        + inversion Hr as [|? ? Hlo Hr']; subst.
          unfold is_low_surrogate in Hlow.
          apply andb_true_iff in Hlow as [Hl1 Hl2].
          apply N.leb_le in Hl1, Hl2.
          cbn [app]. rewrite plain by lia.
          cbn [JSON.parse_string].
          decide_unit lo 34%N. decide_unit lo 92%N.
          destruct (N.ltb_spec lo 32); [lia|].
          rewrite (IH (length r')) by (simpl; auto; lia).
          simpl. rewrite <- !app_assoc. reflexivity.
        + rewrite <- app_assoc, parse_unicode_escape, IHr by assumption. apply step. }
    destruct (is_low_surrogate c) eqn:Hlow.
    { rewrite <- app_assoc, parse_unicode_escape, IHr by assumption. apply step. }
    cbn [app]. rewrite plain, IHr by lia. apply step.
Qed.

Lemma parse_string_quote s rest :
  code_units s ->
  JSON.parse_string (JSON.escape s ++ 34%N :: rest) [] = Some (s, rest).
Proof. intros H. apply (parse_string_escape s H [] rest). Qed.

(** *** Integers *)

Lemma drop_trailing_zeros_spec ds :
  ds = zeros (length ds - length (drop_trailing_zeros_rev ds))
         ++ drop_trailing_zeros_rev ds
  /\ (length (drop_trailing_zeros_rev ds) <= length ds)%nat.
Proof.
  induction ds as [|d r [IH Hl]]; [split; reflexivity|].
  cbn [drop_trailing_zeros_rev]. destruct (N.eqb_spec d 48) as [->|Hd].
  - split; [|simpl; lia].
    replace (length (48%N :: r) - length (drop_trailing_zeros_rev r))%nat
      with (S (length r - length (drop_trailing_zeros_rev r))) by (simpl; lia).
    simpl. f_equal. exact IH.
  - split; [|lia]. rewrite Nat.sub_diag. reflexivity.
Qed.

Lemma rev_zeros n : rev (zeros n) = zeros n.
Proof.
  unfold zeros. induction n as [|n IH]; [reflexivity|].
  simpl. rewrite IH. clear IH. induction n as [|n IH]; [reflexivity|].
  simpl. f_equal. exact IH.
Qed.

Lemma digits_rev_length fuel n k :
  (n < 10 ^ N.of_nat (S k))%N -> (length (digits_rev fuel n) <= S k)%nat.
Proof.
  revert n k; induction fuel as [|f IH]; intros n k Hn; cbn [digits_rev]; [simpl; lia|].
  destruct (N.ltb_spec n 10); [simpl; lia|].
  destruct k as [|k]; [simpl in Hn; lia|].
  cbn [length]. apply le_n_S. apply IH.
  rewrite (Nat2N.inj_succ (S k)), N.pow_succ_r' in Hn.
  apply N.Div0.div_lt_upper_bound. lia.
Qed.

Lemma decimal_length n : (n < 10 ^ 21)%N -> (length (decimal n) <= 21)%nat.
Proof.
  intros H. unfold decimal. rewrite length_rev.
  apply (digits_rev_length _ n 20). exact H.
Qed.

(** The first digit of a positive number is not a zero. *)
Lemma digits_rev_last fuel n :
  (0 < n < 2 ^ N.of_nat fuel)%N ->
  exists l d, digits_rev fuel n = l ++ [d] /\ (49 <= d <= 57)%N.
Proof.
  revert n; induction fuel as [|f IH]; intros n Hn; [simpl in Hn; lia|].
  cbn [digits_rev]. destruct (N.ltb_spec n 10).
  - exists [], (digit_char n). split; [reflexivity|]. unfold digit_char. lia.
  - destruct (IH (n / 10)%N) as (l & d & Hl & Hd).
    + rewrite Nat2N.inj_succ, N.pow_succ_r' in Hn. split.
      * apply N.div_str_pos. lia.
      * apply N.Div0.div_lt_upper_bound. lia.
    + exists (digit_char (n mod 10) :: l), d. rewrite Hl. split; [reflexivity | exact Hd].
Qed.

Lemma decimal_head n :
  (0 < n)%N -> exists d t, decimal n = d :: t /\ (49 <= d <= 57)%N.
Proof.
  intros Hn. unfold decimal.
  destruct (digits_rev_last (S (N.to_nat (N.log2 n))) n) as (l & d & Hl & Hd).
  - split; [exact Hn|]. rewrite Nat2N.inj_succ, N2Nat.id.
    destruct n as [|p]; [lia|]. apply N.log2_spec. lia.
  - exists d, (rev l). rewrite Hl, rev_app_distr. split; [reflexivity | exact Hd].
Qed.

(** An integer below [10^21] is written as its digits, with a minus sign
    when it is negative. *)
Lemma Number_toString_Int z :
  Z.abs z < 10 ^ 21 ->
  Number_toString (Int z)
  = (if z <? 0 then [45%N] else []) ++ decimal (Z.to_N (Z.abs z)).
Proof.
  intros Hz. unfold Number_toString.
  destruct (Z.eqb_spec z 0) as [->|Hnz]; [reflexivity|].
  f_equal. set (all := decimal (Z.to_N (Z.abs z))).
  assert (Hlen : (length all <= 21)%nat).
  { apply decimal_length. change (10 ^ 21)%N with (Z.to_N (10 ^ 21)). lia. }
  destruct (drop_trailing_zeros_spec (rev all)) as [Hsplit Hle].
  rewrite length_rev in Hsplit, Hle.
  set (kept := drop_trailing_zeros_rev (rev all)) in *.
  unfold positive_toString. rewrite length_rev.
  destruct (Z.leb_spec (Z.of_nat (length kept)) (Z.of_nat (length all))); [|lia].
  destruct (Z.leb_spec (Z.of_nat (length all)) 21); [|lia].
  cbn [andb].
  replace (Z.to_nat (Z.of_nat (length all) - Z.of_nat (length kept)))
    with (length all - length kept)%nat by lia.
  transitivity (rev (rev all)); [|apply rev_involutive].
  rewrite Hsplit, rev_app_distr, rev_zeros. reflexivity.
Qed.

Lemma closes_not_digit rest :
  closes rest -> match rest with c :: _ => is_digit c = false | [] => True end.
Proof.
  destruct rest as [|c r]; [trivial|]. unfold is_digit.
  intros [->| [->| ->]]; reflexivity.
Qed.

Lemma parse_fraction_closes rest :
  closes rest -> JSON.parse_fraction rest = Some ([], rest).
Proof. destruct rest as [|c r]; [trivial|]. intros [->| [->| ->]]; reflexivity. Qed.

Lemma parse_exponent_closes rest :
  closes rest -> JSON.parse_exponent rest = Some (0, rest).
Proof. destruct rest as [|c r]; [trivial|]. intros [->| [->| ->]]; reflexivity. Qed.

Lemma skip_ws_closes rest : closes rest -> JSON.skip_ws rest = rest.
Proof. destruct rest as [|c r]; [trivial|]. intros [->| [->| ->]]; reflexivity. Qed.

(** The digits of a number, read as the integer part of a JSON number. *)
Lemma parse_number_decimal n rest :
  closes rest ->
  JSON.parse_number (decimal n ++ rest) = Some (Int (Z.of_N n), rest)
  /\ JSON.parse_number (45%N :: decimal n ++ rest) = Some (Int (- Z.of_N n), rest).
Proof.
  intros Hrest.
  pose proof (span_digits_numeral (decimal n) rest (decimal_numeral n)
                (closes_not_digit rest Hrest)) as Hspan.
  pose proof (decimal_value n) as Hval.
  assert (Hhead : exists d t, decimal n = d :: t /\ (48 <= d <= 57)%N
                              /\ (d = 48%N -> t = [])).
  { destruct (N.eq_dec n 0%N) as [->|Hn].
    - exists 48%N, []. split; [reflexivity|]. split; [lia | reflexivity].
    - destruct (decimal_head n ltac:(lia)) as (d & t & Hd & Hr).
      exists d, t. split; [exact Hd|]. split; lia. }
  destruct Hhead as (d & t & Hd & Hr & Hz).
  assert (Hbody : forall neg,
    (let '(ip, r1) := span_digits (decimal n ++ rest) in
     match ip with
     | [] => None
     | d :: more =>
         if (d =? 0)%N && negb (match more with [] => true | _ => false end) then None
         else
           match JSON.parse_fraction r1 with
           | None => None
           | Some (fp, r2) =>
               match JSON.parse_exponent r2 with
               | None => None
               | Some (e, rest) =>
                   Some (apply_sign neg
                           (scale10 (Z.of_N (digits_value (ip ++ fp)))
                                    (e - Z.of_nat (length fp))),
                         rest)
               end
           end
     end) = Some (apply_sign neg (Int (Z.of_N n)), rest)).
  { intros neg. rewrite Hspan. cbv beta iota. rewrite Hd in Hval |- *.
    cbn [map] in Hval |- *.
    assert (Hlead : ((d - 48 =? 0)%N
                     && negb (match map (fun c => (c - 48)%N) t with
                              | [] => true | _ => false end)) = false).
    { destruct (N.eqb_spec (d - 48) 0) as [E|E]; [|reflexivity].
      rewrite Hz by lia. reflexivity. }
    rewrite Hlead, parse_fraction_closes, parse_exponent_closes by assumption.
    rewrite app_nil_r. unfold scale10. simpl Z.leb. cbv iota.
    change (10 ^ (0 - Z.of_nat (length (@nil N)))) with 1.
    rewrite Z.mul_1_r, Hval. reflexivity. }
  split.
  - unfold JSON.parse_number. specialize (Hbody false).
    rewrite Hd in Hbody |- *. cbn [app] in Hbody |- *.
    destruct (N.eqb_spec d 45); [lia | exact Hbody].
  - unfold JSON.parse_number. cbn [N.eqb Pos.eqb]. exact (Hbody true).
Qed.

Lemma parse_number_Int z rest :
  Z.abs z < 10 ^ 21 -> closes rest ->
  JSON.parse_number (Number_toString (Int z) ++ rest) = Some (Int z, rest).
Proof.
  intros Hz Hrest. rewrite Number_toString_Int by assumption.
  destruct (parse_number_decimal (Z.to_N (Z.abs z)) rest Hrest) as [Hpos Hneg].
  destruct (Z.ltb_spec z 0).
  - cbn [app]. rewrite Hneg.
    replace (- Z.of_N (Z.to_N (Z.abs z))) with z by lia. reflexivity.
  - cbn [app]. rewrite Hpos.
    replace (Z.of_N (Z.to_N (Z.abs z))) with z by lia. reflexivity.
Qed.

(** An integer starts with a digit or a minus sign. *)
Lemma Number_toString_Int_head z :
  Z.abs z < 10 ^ 21 ->
  exists c t, Number_toString (Int z) = c :: t /\ (c = 45%N \/ (48 <= c <= 57)%N).
Proof.
  intros Hz. rewrite Number_toString_Int by assumption.
  destruct (z <? 0).
  - exists 45%N, (decimal (Z.to_N (Z.abs z))). split; [reflexivity | left; reflexivity].
  - pose proof (decimal_numeral (Z.to_N (Z.abs z))) as Hn.
    pose proof (decimal_nonempty (Z.to_N (Z.abs z))) as Hne.
    destruct (decimal (Z.to_N (Z.abs z))) as [|c t]; [contradiction|].
    inversion Hn; subst. exists c, t. split; [reflexivity | right; assumption].
Qed.

(** *** Values *)

Lemma stringify_Arr xs : JSON.stringify (Arr xs) = 91%N :: elements_text xs ++ [93%N].
Proof. reflexivity. Qed.

Lemma stringify_Obj fs : JSON.stringify (Obj fs) = 123%N :: members_text fs ++ [125%N].
Proof. reflexivity. Qed.

Lemma well_formed_Arr ok xs : well_formed ok (Arr xs) <-> Forall (well_formed ok) xs.
Proof.
  cbn [well_formed]. induction xs as [|x r IH].
  - split; [constructor | trivial].
  - rewrite IH. split.
    + intros [H1 H2]. constructor; assumption.
    + intros H. inversion H; subst. split; assumption.
Qed.

Lemma well_formed_Obj ok fs :
  well_formed ok (Obj fs)
  <-> NoDup (map fst fs)
      /\ Forall (fun kv => ok (fst kv) /\ well_formed ok (snd kv)) fs.
Proof.
  cbn [well_formed]. apply and_iff_compat_l.
  induction fs as [|[k x] r IH].
  - split; [constructor | trivial].
  - rewrite IH. split.
    + intros (H1 & H2 & H3). constructor; [split|]; assumption.
    + intros H. inversion H as [|? ? [H1 H2] H3]; subst. repeat split; assumption.
Qed.

Lemma well_formed_impl (ok ok' : jsstring -> Prop) v :
  (forall s, ok s -> ok' s) -> well_formed ok v -> well_formed ok' v.
Proof.
  intros Himp. induction v as [|b|n|s|xs IH|fs IH] using value_induction; intros H.
  - exact I.
  - exact I.
  - exact H.
  - apply Himp, H.
  - apply well_formed_Arr in H. apply well_formed_Arr.
    apply Forall_forall. intros x Hx.
    apply (proj1 (Forall_forall _ _) IH x Hx), (proj1 (Forall_forall _ _) H x Hx).
  - apply well_formed_Obj in H. destruct H as [Hnd H]. apply well_formed_Obj.
    split; [exact Hnd|]. apply Forall_forall. intros x Hx.
    destruct (proj1 (Forall_forall _ _) H x Hx) as [H1 H2].
    split; [apply Himp, H1 | apply (proj1 (Forall_forall _ _) IH x Hx), H2].
Qed.

Lemma ascii_code_units s : ascii s -> code_units s.
Proof. apply Forall_impl. intros u H. lia. Qed.

Lemma plain_ascii_plain v : plain_ascii v -> plain v.
Proof. apply well_formed_impl, ascii_code_units. Qed.

(** Every text starts with a character that is neither white space nor a
    closing bracket. *)
Lemma stringify_head v :
  plain v ->
  exists c t, JSON.stringify v = c :: t /\ JSON.is_ws c = false /\ c <> 93%N.
Proof.
  intros Hp. destruct v as [|b|n|s|xs|fs].
  - exists 110%N, (js "ull"). repeat split. discriminate.
  - destruct b.
    + exists 116%N, (js "rue"). repeat split. discriminate.
    + exists 102%N, (js "alse"). repeat split. discriminate.
  - destruct n as [| |z|]; try contradiction.
    destruct (Number_toString_Int_head z Hp) as (c & t & Hs & Hc).
    exists c, t. split; [exact Hs|]. unfold JSON.is_ws.
    split; [decide_tests; try reflexivity; lia | lia].
  - exists 34%N, (JSON.escape s ++ [34%N]). repeat split. discriminate.
  - rewrite stringify_Arr. eexists _, _. repeat split. discriminate.
  - rewrite stringify_Obj. eexists _, _. repeat split. discriminate.
Qed.

Lemma parse_value_number f c t :
  c = 45%N \/ (48 <= c <= 57)%N ->
  JSON.parse_value (S f) (c :: t)
  = match JSON.parse_number (c :: t) with
    | Some (n, r) => Some (Num n, r)
    | None => None
    end.
Proof.
  intros Hc. cbn [JSON.parse_value JSON.skip_ws].
  assert (Hws : JSON.is_ws c = false).
  { unfold JSON.is_ws. decide_tests; try reflexivity; lia. }
  rewrite Hws.
  destruct (N.eqb_spec c 123); [lia|]. destruct (N.eqb_spec c 91); [lia|].
  destruct (N.eqb_spec c 34); [lia|].
  unfold JSON.parse_atom.
  change (js "true") with [116; 114; 117; 101]%N.
  change (js "false") with [102; 97; 108; 115; 101]%N.
  change (js "null") with [110; 117; 108; 108]%N.
  cbn [strip_prefix].
  destruct (N.eqb_spec 116 c); [lia|]. destruct (N.eqb_spec 102 c); [lia|].
  destruct (N.eqb_spec 110 c); [lia|]. reflexivity.
Qed.

Lemma obj_set_fresh k v acc :
  k ∉ map fst acc -> obj_set k v acc = acc ++ [(k, v)].
Proof.
  induction acc as [|[k' v'] r IH]; intros Hk; [reflexivity|].
  cbn [obj_set]. unfold str_eqb. rewrite bool_decide_eq_false_2.
  - cbn [app]. f_equal. apply IH. intros H. apply Hk. simpl. right. exact H.
  - intros ->. apply Hk. simpl. left.
Qed.

Lemma parse_elements_text xs rest :
  Forall reads_back xs -> xs <> [] ->
  forall fuel acc,
    (2 * length (elements_text xs) + 1 <= fuel)%nat ->
    JSON.parse_elements fuel (elements_text xs ++ 93%N :: rest) acc
    = Some (Arr (rev acc ++ xs), rest).
Proof.
  induction 1 as [|x r Hx _ IH]; intros Hne fuel acc Hf; [contradiction|].
  destruct fuel as [|f]; [lia|].
  cbn [elements_text] in Hf |- *. rewrite length_app in Hf.
  cbn [JSON.parse_elements]. rewrite <- app_assoc.
  destruct r as [|y r'].
  - cbn [app]. rewrite Hx by (simpl; auto; lia).
    cbn [JSON.skip_ws JSON.is_ws N.eqb Pos.eqb orb rev]. reflexivity.
  - cbn [app]. rewrite Hx by (simpl; auto; lia).
    cbn [JSON.skip_ws JSON.is_ws N.eqb Pos.eqb orb].
    rewrite IH by (try discriminate; cbn [length] in Hf; lia).
    simpl. rewrite <- app_assoc. reflexivity.
Qed.

Lemma parse_members_text fs rest :
  Forall (fun kv => code_units (fst kv) /\ reads_back (snd kv)) fs -> fs <> [] ->
  forall fuel acc,
    NoDup (map fst (acc ++ fs)) ->
    (2 * length (members_text fs) + 1 <= fuel)%nat ->
    JSON.parse_members fuel (members_text fs ++ 125%N :: rest) acc
    = Some (Obj (acc ++ fs), rest).
Proof.
  induction 1 as [|[k x] r [Hk Hx] _ IH]; intros Hne fuel acc Hnd Hf; [contradiction|].
  destruct fuel as [|f]; [lia|].
  cbn [fst snd] in Hk, Hx.
  assert (Hfresh : obj_set k x acc = acc ++ [(k, x)]).
  { apply obj_set_fresh. rewrite map_app in Hnd. apply list.NoDup_app in Hnd.
    destruct Hnd as (_ & Hd & _). intros Hin. apply (Hd k Hin).
    apply list_elem_of_here. }
  cbn [members_text] in Hf |- *. unfold JSON.quote in Hf |- *.
  cbn [app length] in Hf |- *. rewrite !length_app in Hf. cbn [length] in Hf.
  rewrite !length_app in Hf.
  cbn [JSON.parse_members JSON.skip_ws JSON.is_ws N.eqb Pos.eqb orb].
  rewrite <- !app_assoc. cbn [app].
  rewrite parse_string_quote by assumption.
  cbn [JSON.skip_ws JSON.is_ws N.eqb Pos.eqb orb].
  destruct r as [|y r'].
  - rewrite <- ?app_assoc. cbn [app]. rewrite Hx by (simpl; auto; lia).
    cbn [JSON.skip_ws JSON.is_ws N.eqb Pos.eqb orb]. rewrite Hfresh. reflexivity.
  - rewrite <- ?app_assoc. cbn [app]. rewrite Hx by (simpl; auto; lia).
    cbn [JSON.skip_ws JSON.is_ws N.eqb Pos.eqb orb]. rewrite Hfresh.
    rewrite IH.
    + rewrite <- app_assoc. reflexivity.
    + discriminate.
    + rewrite <- app_assoc. exact Hnd.
    + cbn [length] in Hf. lia.
Qed.

(** [JSON.parse_value] reads back what [JSON.stringify] wrote and stops at
    the comma or bracket that follows it. *)
Lemma parse_value_stringify v : plain v -> reads_back v.
Proof.
  induction v as [|b|n|s|xs IH|fs IH] using value_induction;
    intros Hp fuel rest Hf Hr.
  - destruct fuel as [|f]; [vm_compute in Hf; lia | reflexivity].
  - destruct b; (destruct fuel as [|f]; [vm_compute in Hf; lia | reflexivity]).
  - destruct n as [| |z|]; try contradiction. change (Z.abs z < 10 ^ 21) in Hp.
    cbn [JSON.stringify is_finite] in Hf |- *.
    destruct (Number_toString_Int_head z Hp) as (c & t & Hs & Hc).
    destruct fuel as [|f]; [rewrite Hs in Hf; simpl in Hf; lia|].
    pose proof (parse_number_Int z rest Hp Hr) as Hn.
    rewrite Hs in Hn |- *. cbn [app] in Hn |- *.
    rewrite parse_value_number, Hn by assumption. reflexivity.
  - change (code_units s) in Hp. cbn [JSON.stringify] in Hf |- *.
    unfold JSON.quote in Hf |- *.
    destruct fuel as [|f]; [simpl in Hf; lia|].
    cbn [app JSON.parse_value JSON.skip_ws JSON.is_ws N.eqb Pos.eqb orb].
    rewrite <- app_assoc. cbn [app].
    rewrite parse_string_quote by assumption. reflexivity.
  - apply well_formed_Arr in Hp. rewrite stringify_Arr in Hf |- *.
    destruct fuel as [|f]; [simpl in Hf; lia|].
    cbn [length] in Hf. rewrite length_app in Hf. cbn [length] in Hf.
    cbn [app JSON.parse_value JSON.skip_ws JSON.is_ws N.eqb Pos.eqb orb].
    rewrite <- app_assoc. cbn [app].
    destruct xs as [|x r]; [reflexivity|].
    assert (Hall : Forall reads_back (x :: r)).
    { apply Forall_forall. intros y Hy.
      apply (proj1 (Forall_forall _ _) IH y Hy), (proj1 (Forall_forall _ _) Hp y Hy). }
    pose proof (parse_elements_text (x :: r) rest Hall ltac:(discriminate) f []
                  ltac:(lia)) as Hel.
    inversion Hp as [|? ? Hx _]; subst.
    destruct (stringify_head x Hx) as (c & t & Hs & Hws & Hc).
    cbn [elements_text] in Hel |- *. rewrite Hs in Hel |- *.
    cbn [app JSON.skip_ws] in Hel |- *. rewrite Hws.
    destruct (N.eqb_spec c 93); [contradiction|]. exact Hel.
  - apply well_formed_Obj in Hp. destruct Hp as [Hnd Hp]. rewrite stringify_Obj in Hf |- *.
    destruct fuel as [|f]; [simpl in Hf; lia|].
    cbn [length] in Hf. rewrite length_app in Hf. cbn [length] in Hf.
    cbn [app JSON.parse_value JSON.skip_ws JSON.is_ws N.eqb Pos.eqb orb].
    rewrite <- app_assoc. cbn [app].
    destruct fs as [|[k x] r]; [reflexivity|].
    assert (Hall : Forall (fun kv => code_units (fst kv) /\ reads_back (snd kv))
                     ((k, x) :: r)).
    { apply Forall_forall. intros y Hy.
      destruct (proj1 (Forall_forall _ _) Hp y Hy) as [H1 H2].
      split; [exact H1|]. apply (proj1 (Forall_forall _ _) IH y Hy), H2. }
    pose proof (parse_members_text ((k, x) :: r) rest Hall ltac:(discriminate) f []
                  Hnd ltac:(lia)) as Hm.
    cbn [members_text] in Hm |- *. unfold JSON.quote in Hm |- *.
    cbn [app JSON.skip_ws JSON.is_ws N.eqb Pos.eqb orb] in Hm |- *.
    exact Hm.
Qed.

(** [JSON.parse(JSON.stringify(v))] is [v]. *)
Lemma parse_stringify v : plain v -> JSON.parse (JSON.stringify v) = Some v.
Proof.
  intros Hp. unfold JSON.parse.
  pose proof (parse_value_stringify v Hp (2 * length (JSON.stringify v) + 2)%nat []
                ltac:(lia) I) as H.
  rewrite app_nil_r in H. rewrite H. reflexivity.
Qed.

(** *** Texts that are ASCII *)

Lemma ascii_unicode_escape c : (c < 65536)%N -> ascii (JSON.unicode_escape c).
Proof.
  intros Hc.
  assert (H : forall d, (d < 16)%N -> (JSON.hex_digit d < 128)%N).
  { intros d Hd. pose proof (hex_digit_plain d Hd). lia. }
  unfold JSON.unicode_escape.
  repeat (constructor; [first [lia | apply H]|]); [| | | |constructor].
  - apply N.Div0.div_lt_upper_bound; lia.
  - apply N.mod_lt; lia.
  - apply N.mod_lt; lia.
  - apply N.mod_lt; lia.
Qed.

Lemma ascii_escape s : ascii s -> ascii (JSON.escape s).
Proof.
  induction 1 as [|c r Hc _ IH]; [constructor|].
  assert (Hu : ascii (JSON.unicode_escape c ++ JSON.escape r)).
  { apply Forall_app. split; [apply ascii_unicode_escape; lia | exact IH]. }
  assert (Hh : is_high_surrogate c = false).
  { unfold is_high_surrogate. destruct (N.leb_spec 55296 c); [lia | reflexivity]. }
  assert (Hl : is_low_surrogate c = false).
  { unfold is_low_surrogate. destruct (N.leb_spec 56320 c); [lia | reflexivity]. }
  cbn [JSON.escape]. rewrite Hh, Hl.
  repeat match goal with
         | |- context [if ?b then _ else _] => destruct b
         end;
    try exact Hu; repeat (constructor; [lia|]); exact IH.
Qed.

Lemma ascii_quote s : ascii s -> ascii (JSON.quote s).
Proof.
  intros H. unfold JSON.quote. constructor; [lia|].
  apply Forall_app. split; [apply ascii_escape, H | repeat constructor].
Qed.

Lemma ascii_Number_toString_Int z :
  Z.abs z < 10 ^ 21 -> ascii (Number_toString (Int z)).
Proof.
  intros Hz. rewrite Number_toString_Int by assumption.
  apply Forall_app. split.
  - destruct (z <? 0); repeat constructor.
  - apply one_line_ascii, numeral_one_line, decimal_numeral.
Qed.

(** The JSON text of a value whose strings are ASCII is ASCII. *)
Lemma ascii_stringify v : plain_ascii v -> ascii (JSON.stringify v).
Proof.
  induction v as [|b|n|s|xs IH|fs IH] using value_induction; intros Hp.
  - vm_compute; repeat constructor.
  - destruct b; vm_compute; repeat constructor.
  - destruct n as [| |z|]; try contradiction.
    apply ascii_Number_toString_Int, Hp.
  - apply ascii_quote, Hp.
  - apply well_formed_Arr in Hp. rewrite stringify_Arr.
    constructor; [lia|]. apply Forall_app. split; [|repeat constructor].
    induction xs as [|x r IHr]; [constructor|].
    inversion IH as [|? ? Hx Hr]; subst. inversion Hp as [|? ? Px Pr]; subst.
    cbn [elements_text]. apply Forall_app. split; [apply Hx, Px|].
    destruct r as [|y r']; [constructor|].
    constructor; [lia | apply IHr; assumption].
  - apply well_formed_Obj in Hp. destruct Hp as [_ Hp]. rewrite stringify_Obj.
    constructor; [lia|]. apply Forall_app. split; [|repeat constructor].
    induction fs as [|[k x] r IHr]; [constructor|].
    inversion IH as [|? ? Hx Hr]; subst. inversion Hp as [|? ? [Pk Px] Pr]; subst.
    cbn [members_text]. apply Forall_app. split; [apply ascii_quote, Pk|].
    constructor; [lia|]. apply Forall_app. split; [apply Hx, Px|].
    destruct r as [|y r']; [constructor|].
    constructor; [lia | apply IHr; assumption].
Qed.

(** ** Round trip *)

(** For a message whose JSON text is ASCII, feeding its encoding as one
    chunk to an idle decoder hands exactly the parsed text to
    [handleMessage], inside the [try]/[catch] block. *)
Lemma round_trip_ascii message message' c :
  ascii (JSON.stringify message) ->
  JSON.parse (JSON.stringify message) = Some message' ->
  buffer c = [] -> contentLength c = Int (-1) ->
  handleData (wire message) c
  = (Normal tt,
     snd (try_catch
            (modify (BaseDebugClient.record_call (Decoded message'));;
             BaseDebugClient.handleMessage message')
            (fun e => BaseDebugClient.log
                        (LogErrorHandlingMessage (JSON.stringify message) e)) c)).
Proof.
  intros Ha Hp Hb Hn.
  assert (Hw : wire message = concat (map frame [utf8_encode (JSON.stringify message)])).
  { unfold wire. rewrite encodeMessage_header.
    rewrite utf8_encode_app_ascii by (apply one_line_ascii, header_text_one_line).
    change (utf8_encode (Protocol.TWO_CRLF ++ JSON.stringify message))
      with (crlf_crlf ++ utf8_encode (JSON.stringify message)).
    simpl. rewrite app_nil_r. unfold frame.
    fold (utf8_length (JSON.stringify message)).
    rewrite utf8_length_ascii by assumption. reflexivity. }
  rewrite Hw, handleData_frames by assumption.
  simpl deliver. rewrite utf8_round_trip_ascii by assumption.
  unfold handle_body.
  destruct (JSON.stringify message) as [|u body] eqn:Hs; [discriminate|].
  simpl Nat.ltb. cbv iota.
  unfold parse_and_handle, JSON_parse. rewrite Hp.
  reflexivity.
Qed.

(** For a message of integers, booleans and ASCII strings, it is the
    message itself that comes out. *)
Lemma round_trip_plain_ascii message c :
  plain_ascii message ->
  buffer c = [] -> contentLength c = Int (-1) ->
  handleData (wire message) c
  = (Normal tt,
     snd (try_catch
            (modify (BaseDebugClient.record_call (Decoded message));;
             BaseDebugClient.handleMessage message)
            (fun e => BaseDebugClient.log
                        (LogErrorHandlingMessage (JSON.stringify message) e)) c)).
Proof.
  intros Hp Hb Hn. apply round_trip_ascii; [| |exact Hb|exact Hn].
  - apply ascii_stringify, Hp.
  - apply parse_stringify, plain_ascii_plain, Hp.
Qed.

(** C2 at the same message: the decoder cuts the body one byte short,
    [JSON.parse] rejects it, no message is decoded, and the last byte stays
    in the buffer in front of whatever comes next. *)
Theorem round_trip_lost_beyond_ascii :
  JSON.parse (JSON.stringify e_acute_request) = Some e_acute_request /\
  calls e_acute_received = [] /\
  logged e_acute_received
  = [LogErrorHandlingMessage
       (removelast (JSON.stringify e_acute_request))
       (ErrorObject SyntaxError (js "Unexpected token in JSON"))] /\
  buffer e_acute_received = [x7d] /\ contentLength e_acute_received = Int (-1).
Proof. vm_compute. repeat split. Qed.


(** ** Pending requests and their promises over time

    In a reachable client the promise of every pending request is still
    pending, and no promise belongs to two requests. *)

Lemma same_table_keeps {A} (m : JSM A) : same_table m -> keeps_sound m.
Proof.
  intros H c Hc. destruct (H c) as [Hp Hq]. unfold pending_sound.
  rewrite Hp, Hq. exact Hc.
Qed.

Section Tables.

Context {A B : Type}.

Lemma same_ret (a : A) : same_table (ret a).
Proof. intros c; auto. Qed.

Lemma same_throw (e : thrown) : same_table (@throw A e).
Proof. intros c; auto. Qed.

Lemma same_lift (r : result A) : same_table (lift r).
Proof. intros c; auto. Qed.

Lemma same_gets (f : Client -> A) : same_table (gets f).
Proof. intros c; auto. Qed.

Lemma same_bind (m : JSM A) (k : A -> JSM B) :
  same_table m -> (forall a, same_table (k a)) -> same_table (bind m k).
Proof.
  intros Hm Hk c. unfold bind. destruct (Hm c) as [H1 H2].
  destruct (m c) as [[a|e] c']; simpl in *; [|auto].
  destruct (Hk a c') as [H3 H4]. rewrite H3, H4. auto.
Qed.

Lemma same_try_catch (m : JSM A) (h : thrown -> JSM A) :
  same_table m -> (forall e, same_table (h e)) -> same_table (try_catch m h).
Proof.
  intros Hm Hh c. unfold try_catch. destruct (Hm c) as [H1 H2].
  destruct (m c) as [[a|e] c']; simpl in *; [auto|].
  destruct (Hh e c') as [H3 H4]. rewrite H3, H4. auto.
Qed.

Lemma keeps_bind (m : JSM A) (k : A -> JSM B) :
  keeps_sound m -> (forall a, keeps_sound (k a)) -> keeps_sound (bind m k).
Proof.
  intros Hm Hk c Hc. unfold bind. specialize (Hm c Hc).
  destruct (m c) as [[a|e] c']; simpl in *; [apply Hk; assumption | assumption].
Qed.

Lemma keeps_try_catch (m : JSM A) (h : thrown -> JSM A) :
  keeps_sound m -> (forall e, keeps_sound (h e)) -> keeps_sound (try_catch m h).
Proof.
  intros Hm Hh c Hc. unfold try_catch. specialize (Hm c Hc).
  destruct (m c) as [[a|e] c']; simpl in *; [assumption | apply Hh; assumption].
Qed.

End Tables.

Lemma same_modify (f : Client -> Client) :
  (forall c, pendingRequests (f c) = pendingRequests c /\ promises (f c) = promises c) ->
  same_table (modify f).
Proof. intros H c; apply H. Qed.

Lemma same_log entry : same_table (BaseDebugClient.log entry).
Proof.
  intros c. destruct (log_fields entry c) as (_ & H2 & H3 & _). auto.
Qed.

Ltac same_step :=
  match goal with
  | |- same_table (ret _) => apply same_ret
  | |- same_table (throw _) => apply same_throw
  | |- same_table (lift _) => apply same_lift
  | |- same_table (gets _) => apply same_gets
  | |- same_table (BaseDebugClient.log _) => apply same_log
  | |- same_table (bind _ _) => apply same_bind; [ | intros ? ]
  | |- same_table (try_catch _ _) => apply same_try_catch; [ | intros ? ]
  | |- same_table (modify _) => apply same_modify; intros; split; reflexivity
  | |- same_table (match ?x with _ => _ end) => destruct x
  end.

Ltac same_auto := repeat same_step.

Lemma same_call_listeners type ls arg :
  same_table (BaseDebugClient.call_listeners type ls arg).
Proof. induction ls as [|l rest IH]; simpl; same_auto. exact IH. Qed.

Lemma same_on_event message : same_table (BaseDebugClient.on_event message).
Proof.
  unfold BaseDebugClient.on_event, BaseDebugClient.emit; same_auto.
  apply same_call_listeners.
Qed.

Lemma same_on_request message : same_table (BaseDebugClient.on_request message).
Proof. unfold BaseDebugClient.on_request; same_auto. Qed.

Lemma same_getNextSeq : same_table BaseDebugClient.getNextSeq.
Proof. intros c; auto. Qed.

Lemma same_sendMessage message : same_table (sendMessage message).
Proof. unfold sendMessage; same_auto. Qed.

Lemma same_sendResponse request body : same_table (sendResponse request body).
Proof.
  unfold sendResponse, BaseDebugClient.sendResponse; same_auto;
    first [apply same_getNextSeq | apply same_sendMessage].
Qed.

Lemma same_sendErrorResponse request message error :
  same_table (sendErrorResponse request message error).
Proof.
  unfold sendErrorResponse, BaseDebugClient.sendErrorResponse; same_auto;
    first [apply same_getNextSeq | apply same_sendMessage].
Qed.

Lemma same_run_reply message o : same_table (run_reply message o).
Proof.
  destruct o; simpl.
  - apply same_try_catch; [apply same_sendResponse | intros e].
    apply same_bind; [apply same_lift | intros m].
    apply same_sendErrorResponse.
  - apply same_bind; [apply same_lift | intros m].
    apply same_sendErrorResponse.
Qed.

Lemma same_settle_reply : same_table settle_reply.
Proof. unfold settle_reply; same_auto. apply same_run_reply. Qed.

Lemma same_read_header_lines lines : same_table (read_header_lines lines).
Proof. induction lines as [|line more IH]; simpl; same_auto; exact IH. Qed.

Lemma same_on_unmatched message : same_table (BaseDebugClient.on_unmatched message).
Proof. unfold BaseDebugClient.on_unmatched; same_auto. Qed.

Lemma same_on_unknown message : same_table (BaseDebugClient.on_unknown message).
Proof. unfold BaseDebugClient.on_unknown; same_auto. Qed.

(** Settling the promise of an entry that has just been removed. *)
Lemma keeps_on_response message : keeps_sound (BaseDebugClient.on_response message).
Proof.
  intros c Hc. unfold BaseDebugClient.on_response, bind, lift, gets, modify.
  destruct (get message "request_seq") as [seq|e]; [|exact Hc]. simpl.
  destruct (BaseDebugClient.Map_get (pendingRequests c) seq) as [p|] eqn:Hp.
  2: { apply (same_table_keeps _ (same_on_unmatched message) c Hc). }
  destruct seq as [[| |n| | |]|]; simpl in Hp; try discriminate. simpl.
  set (c0 := set_pendingRequests (delete n (pendingRequests c)) c).
  assert (H0 : forall k q, pendingRequests c0 !! k = Some q ->
                 q <> p /\ promises c0 !! q = Some Pending /\
                 forall k', pendingRequests c0 !! k' = Some q -> k' = k).
  { intros k q Hq. simpl in Hq. apply lookup_delete_Some in Hq as [Hne Hq].
    destruct (Hc k q Hq) as [Hpend Hinj]. split; [|split].
    - intros ->. apply Hne. apply (Hinj n Hp).
    - exact Hpend.
    - intros k' Hk'. simpl in Hk'. apply lookup_delete_Some in Hk' as [_ Hk'].
      apply Hinj. exact Hk'. }
  clearbody c0.
  assert (Hsettle : forall s c1,
    pendingRequests c1 = pendingRequests c0 -> promises c1 = promises c0 ->
    pending_sound (snd (BaseDebugClient.settle p s c1))).
  { intros s c1 E1 E2 k q Hq. unfold BaseDebugClient.settle, modify in *. simpl in *.
    assert (Hq' : pendingRequests c0 !! k = Some q).
    { rewrite <- E1. destruct (promises c1 !! p) as [[]|]; exact Hq. }
    destruct (H0 k q Hq') as (Hne & Hpend & Hinj). split.
    - destruct (promises c1 !! p) as [[]|]; simpl; rewrite ?E2; try exact Hpend.
      rewrite list_lookup_insert_ne by congruence. exact Hpend.
    - intros k' Hk'. apply Hinj. rewrite <- E1.
      destruct (promises c1 !! p) as [[]|]; exact Hk'. }
  assert (Hc0 : pending_sound c0).
  { intros k q Hq. destruct (H0 k q Hq) as (_ & H1 & H2). auto. }
  unfold BaseDebugClient.pending_callback, bind, lift.
  destruct (get message "success") as [success|e]; [|exact Hc0]. cbv beta iota.
  destruct (get message "command") as [command|e];
    [|destruct (truthy success); exact Hc0].
  destruct (get message "request_seq") as [seq|e];
    [|destruct (truthy success); exact Hc0].
  destruct (interpolations [command; seq]);
    [|destruct (truthy success); exact Hc0].
  destruct (truthy success).
  - destruct (log_fields (LogReceivedResponse message) c0) as (_ & E1 & E2 & _).
    destruct (BaseDebugClient.log (LogReceivedResponse message) c0) as [[[]|e] c1];
      simpl in *; [|unfold pending_sound; rewrite E1, E2; exact Hc0].
    destruct (get message "body") as [body|e]; simpl;
      [apply Hsettle; assumption | unfold pending_sound; rewrite E1, E2; exact Hc0].
  - destruct (log_fields (LogReceivedErrorResponse message) c0) as (_ & E1 & E2 & _).
    destruct (BaseDebugClient.log (LogReceivedErrorResponse message) c0) as [[[]|e] c1];
      simpl in *; [|unfold pending_sound; rewrite E1, E2; exact Hc0].
    destruct (get message "message") as [text|e]; simpl;
      [|unfold pending_sound; rewrite E1, E2; exact Hc0].
    destruct (Error_message text) as [words|e]; simpl;
      [apply Hsettle; assumption | unfold pending_sound; rewrite E1, E2; exact Hc0].
Qed.

Lemma keeps_handleMessage message : keeps_sound (BaseDebugClient.handleMessage message).
Proof.
  intros c Hc. rewrite handleMessage_classify.
  destruct (classify message) as [[| | |]|e]; simpl.
  - apply keeps_on_response; assumption.
  - apply (same_table_keeps _ (same_on_event message)); assumption.
  - apply (same_table_keeps _ (same_on_request message)); assumption.
  - apply (same_table_keeps _ (same_on_unknown message)); assumption.
  - assumption.
Qed.

Lemma keeps_handle_body body : keeps_sound (handle_body body).
Proof.
  unfold handle_body. destruct (0 <? length body)%nat;
    [|apply same_table_keeps, same_ret].
  apply keeps_try_catch.
  - unfold parse_and_handle. apply keeps_bind.
    + apply same_table_keeps. unfold JSON_parse. same_auto.
    + intros message. apply keeps_bind; [|intros _; apply keeps_handleMessage].
      apply same_table_keeps. same_auto.
  - intros e. apply same_table_keeps, same_log.
Qed.

Lemma keeps_iteration : keeps_sound iteration.
Proof.
  unfold iteration.
  apply keeps_bind; [apply same_table_keeps, same_gets | intros n].
  apply keeps_bind; [apply same_table_keeps, same_gets | intros buf].
  destruct (ge0 n).
  - destruct (int_ge _ n); [|apply same_table_keeps, same_ret].
    apply keeps_bind; [apply same_table_keeps; same_auto | intros _].
    apply keeps_bind; [apply same_table_keeps; same_auto | intros _].
    apply keeps_bind; [apply keeps_handle_body | intros _].
    apply same_table_keeps, same_ret.
  - destruct (negb _); [|apply same_table_keeps, same_ret].
    apply same_table_keeps. same_auto. apply same_read_header_lines.
Qed.

Lemma keeps_drain : keeps_sound drain.
Proof.
  intros c. remember (turns c) as k eqn:Hk. revert c Hk.
  induction k as [k IH] using lt_wf_ind. intros c -> Hc.
  rewrite drain_unfold. pose proof (keeps_iteration c Hc) as Hi'.
  destruct (iteration c) as [[[|]|e] c'] eqn:Hi; simpl in *; try assumption.
  apply iteration_progress in Hi.
  eapply IH; [exact Hi | reflexivity | assumption].
Qed.

Lemma keeps_handleData data : keeps_sound (handleData data).
Proof.
  intros c Hc. rewrite handleData_drain. apply keeps_drain. exact Hc.
Qed.

Lemma keeps_sendRequest command args : keeps_sound (sendRequest command args).
Proof.
  intros c Hc. destruct (connection c) as [k|] eqn:Hk.
  - rewrite (sendRequest_connected k) by assumption. simpl.
    destruct (after_sendRequest_fields k command args c) as (_ & Hp & Hq & _).
    intros key p H. rewrite Hp in H. rewrite Hp, Hq.
    destruct (decide (key = Int (nextSeq c))) as [->|Hne].
    + rewrite lookup_insert_eq in H. injection H as <-. split.
      * rewrite lookup_app_r by lia. rewrite Nat.sub_diag. reflexivity.
      * intros k' Hk'. destruct (decide (k' = Int (nextSeq c))) as [->|Hne'];
          [reflexivity|].
        rewrite lookup_insert_ne in Hk' by congruence.
        destruct (Hc k' _ Hk') as [Hpend _].
        apply lookup_lt_Some in Hpend. lia.
    + rewrite lookup_insert_ne in H by congruence.
      destruct (Hc key p H) as [Hpend Hinj]. split.
      * rewrite lookup_app_l by (eapply lookup_lt_Some; eassumption). exact Hpend.
      * intros k' Hk'. destruct (decide (k' = Int (nextSeq c))) as [->|Hne'].
        -- rewrite lookup_insert_eq in Hk'. injection Hk' as Hk'. subst p.
           apply lookup_lt_Some in Hpend. lia.
        -- rewrite lookup_insert_ne in Hk' by congruence. apply Hinj. exact Hk'.
  - destruct (send_without_connection c Hk command args Null None None None Null)
      as (-> & _). exact Hc.
Qed.

Lemma same_connectAdapter r w : same_table (connectAdapter r w).
Proof. unfold connectAdapter. same_auto. Qed.

Lemma same_disconnectAdapter : same_table disconnectAdapter.
Proof. unfold disconnectAdapter. same_auto. Qed.

Lemma same_onEvent event l : same_table (BaseDebugClient.onEvent event l).
Proof. unfold BaseDebugClient.onEvent. same_auto. Qed.

Lemma same_onReverseRequest command h :
  same_table (BaseDebugClient.onReverseRequest command h).
Proof. unfold BaseDebugClient.onReverseRequest. same_auto. Qed.

Lemma keeps_perform a c : pending_sound c -> pending_sound (perform a c).
Proof.
  intros Hc. destruct a; simpl.
  - exact (same_table_keeps _ (same_connectAdapter _ _) c Hc).
  - exact (same_table_keeps _ same_disconnectAdapter c Hc).
  - exact (keeps_sendRequest _ _ c Hc).
  - exact (same_table_keeps _ (same_sendResponse _ _) c Hc).
  - exact (same_table_keeps _ (same_sendErrorResponse _ _ _) c Hc).
  - exact (same_table_keeps _ (same_sendMessage _) c Hc).
  - exact (same_table_keeps _ (same_onEvent _ _) c Hc).
  - exact (same_table_keeps _ (same_onReverseRequest _ _) c Hc).
  - exact (keeps_handleData _ c Hc).
  - exact (keeps_handleMessage _ c Hc).
  - exact (same_table_keeps _ same_settle_reply c Hc).
Qed.

Lemma keeps_perform_all actions : forall c,
  pending_sound c -> pending_sound (perform_all actions c).
Proof.
  induction actions as [|a rest IH]; intros c Hc; simpl; [exact Hc|].
  apply IH, keeps_perform, Hc.
Qed.

Lemma reachable_pending_sound c : reachable c -> pending_sound c.
Proof.
  intros (level & actions & ->). apply keeps_perform_all.
  intros k p H. simpl in H. rewrite lookup_empty in H. discriminate.
Qed.

Lemma reachable_perform_all actions c :
  reachable c -> reachable (perform_all actions c).
Proof.
  intros (level & before & ->). exists level, (before ++ actions).
  unfold perform_all. rewrite fold_left_app. reflexivity.
Qed.

(** However long the response takes: in a reachable client each pending
    request is settled by the Response that carries its sequence
    number. *)
Lemma response_settles_reachable c S p response :
  reachable c ->
  pendingRequests c !! Int S = Some p ->
  response_for response (Some (Num (Int S))) ->
  settles c p response.
Proof.
  intros Hr Hp. apply response_settles; [exact Hp|].
  apply (reachable_pending_sound c Hr _ _ Hp).
Qed.

(** A request stays filed under its own promise for as long as it is
    pending. *)
Lemma pending_entry_stable k command args c actions p' :
  connection c = Some k ->
  let c1 := snd (sendRequest command args c) in
  pendingRequests (perform_all actions c1) !! Int (nextSeq c) = Some p' ->
  p' = length (promises c).
Proof.
  intros Hk c1. subst c1.
  rewrite (sendRequest_connected k) by assumption. cbn [snd].
  destruct (after_sendRequest_fields k command args c) as (Hn & Hp & _).
  set (c1 := after_sendRequest k command args c) in *. intros H.
  destruct (grows_perform_all actions c1) as [_ Hg].
  destruct (Hg _ _ H) as [H'|(z & [= <-] & Hz)]; [|lia].
  rewrite Hp, lookup_insert_eq in H'. congruence.
Qed.

(** ** Correlation *)




(** ** What a computation leaves alone *)

Section Respect.

Context {A B : Type}.
Variable R : Client -> Client -> Prop.
Hypothesis HR : dispatch_steps R.

Lemma respects_ret (a : A) : respects R (ret a).
Proof. intros c; apply (step_refl R HR). Qed.

Lemma respects_throw (e : thrown) : respects R (@throw A e).
Proof. intros c; apply (step_refl R HR). Qed.

Lemma respects_lift (r : result A) : respects R (lift r).
Proof. intros c; apply (step_refl R HR). Qed.

Lemma respects_gets (f : Client -> A) : respects R (gets f).
Proof. intros c; apply (step_refl R HR). Qed.

Lemma respects_bind (m : JSM A) (k : A -> JSM B) :
  respects R m -> (forall a, respects R (k a)) -> respects R (bind m k).
Proof.
  intros Hm Hk c. unfold bind. specialize (Hm c).
  destruct (m c) as [[a|e] c']; simpl in *; [|assumption].
  eapply (step_trans R HR); [exact Hm | apply Hk].
Qed.

Lemma respects_try_catch (m : JSM A) (h : thrown -> JSM A) :
  respects R m -> (forall e, respects R (h e)) -> respects R (try_catch m h).
Proof.
  intros Hm Hh c. unfold try_catch. specialize (Hm c).
  destruct (m c) as [[a|e] c']; simpl in *; [assumption|].
  eapply (step_trans R HR); [exact Hm | apply Hh].
Qed.

End Respect.

Ltac respects_leaf HR :=
  intros ?; unfold modify, BaseDebugClient.remove_listener,
    BaseDebugClient.record_call, BaseDebugClient.push_reply; cbn [snd];
  first [ apply (step_pendingRequests _ HR) | apply (step_eventEmitter _ HR)
        | apply (step_calls _ HR) | apply (step_replies _ HR)
        | apply (step_buffer _ HR) | apply (step_contentLength _ HR) ].

Ltac respects_step HR :=
  match goal with
  | |- respects _ (ret _) => apply (respects_ret _ HR)
  | |- respects _ (throw _) => apply (respects_throw _ HR)
  | |- respects _ (lift _) => apply (respects_lift _ HR)
  | |- respects _ (gets _) => apply (respects_gets _ HR)
  | |- respects _ (BaseDebugClient.log _) => intros ?; apply (step_log _ HR)
  | |- respects _ (BaseDebugClient.settle _ _) => intros ?; apply (step_settle _ HR)
  | |- respects _ (bind _ _) => apply (respects_bind _ HR); [ | intros ? ]
  | |- respects _ (try_catch _ _) => apply (respects_try_catch _ HR); [ | intros ? ]
  | |- respects _ (modify _) => respects_leaf HR
  | |- respects _ (match ?x with _ => _ end) => destruct x
  end.

Ltac respects_auto HR := repeat respects_step HR.

Section Dispatch.

Variable R : Client -> Client -> Prop.
Hypothesis HR : dispatch_steps R.

Lemma respects_call_listeners type ls arg :
  respects R (BaseDebugClient.call_listeners type ls arg).
Proof. induction ls as [|l rest IH]; simpl; respects_auto HR. exact IH. Qed.

Lemma respects_handleMessage message :
  respects R (BaseDebugClient.handleMessage message).
Proof.
  unfold BaseDebugClient.handleMessage, BaseDebugClient.on_response,
    BaseDebugClient.on_event, BaseDebugClient.on_request,
    BaseDebugClient.on_unknown, BaseDebugClient.on_unmatched,
    BaseDebugClient.pending_callback, BaseDebugClient.resolve,
    BaseDebugClient.reject, BaseDebugClient.emit.
  respects_auto HR; apply respects_call_listeners.
Qed.

Lemma respects_handle_body body : respects R (handle_body body).
Proof.
  unfold handle_body, parse_and_handle, JSON_parse; respects_auto HR.
  apply respects_handleMessage.
Qed.

Lemma respects_read_header_lines lines : respects R (read_header_lines lines).
Proof. induction lines as [|line more IH]; simpl; respects_auto HR; exact IH. Qed.

Lemma respects_iteration : respects R iteration.
Proof.
  unfold iteration; respects_auto HR;
    first [apply respects_handle_body | apply respects_read_header_lines].
Qed.

Lemma respects_drain : respects R drain.
Proof.
  intros c. remember (turns c) as k eqn:Hk. revert c Hk.
  induction k as [k IH] using lt_wf_ind. intros c ->.
  rewrite drain_unfold. pose proof (respects_iteration c) as Hg.
  destruct (iteration c) as [[[|]|e] c'] eqn:Hi; simpl in *; try assumption.
  apply iteration_progress in Hi.
  eapply (step_trans R HR); [exact Hg | eapply IH; [exact Hi | reflexivity]].
Qed.

Lemma respects_handleData data : respects R (handleData data).
Proof.
  intros c. rewrite handleData_drain.
  eapply (step_trans R HR); [|apply respects_drain].
  apply (step_buffer R HR).
Qed.

End Dispatch.

Section Sending.

Variable R : Client -> Client -> Prop.
Hypothesis HS : send_steps R.

Let HR : dispatch_steps R := steps_dispatch R HS.

Lemma respects_sendMessage message : respects R (sendMessage message).
Proof.
  unfold sendMessage; respects_auto HR. intros ?. apply (step_written R HS).
Qed.

Lemma respects_getNextSeq : respects R BaseDebugClient.getNextSeq.
Proof. intros c. apply (step_nextSeq R HS). Qed.

Lemma respects_sendRequest command args : respects R (sendRequest command args).
Proof.
  unfold sendRequest, BaseDebugClient.sendRequest; respects_auto HR;
    first [ apply respects_getNextSeq | apply respects_sendMessage
          | intros ?; apply (step_new_Promise R HS) ].
Qed.

Lemma respects_sendResponse request body : respects R (sendResponse request body).
Proof.
  unfold sendResponse, BaseDebugClient.sendResponse; respects_auto HR;
    first [apply respects_getNextSeq | apply respects_sendMessage].
Qed.

Lemma respects_sendErrorResponse request message error :
  respects R (sendErrorResponse request message error).
Proof.
  unfold sendErrorResponse, BaseDebugClient.sendErrorResponse; respects_auto HR;
    first [apply respects_getNextSeq | apply respects_sendMessage].
Qed.

Lemma respects_run_reply message o : respects R (run_reply message o).
Proof.
  destruct o; cbn [run_reply].
  - apply (respects_try_catch _ HR); [apply respects_sendResponse | intros e].
    apply (respects_bind _ HR); [apply (respects_lift _ HR) | intros m].
    apply respects_sendErrorResponse.
  - apply (respects_bind _ HR); [apply (respects_lift _ HR) | intros m].
    apply respects_sendErrorResponse.
Qed.

Lemma respects_settle_reply : respects R settle_reply.
Proof.
  unfold settle_reply; respects_auto HR; apply respects_run_reply.
Qed.

Lemma respects_onEvent event l : respects R (BaseDebugClient.onEvent event l).
Proof. unfold BaseDebugClient.onEvent; respects_auto HR. Qed.

Lemma respects_onReverseRequest command h :
  respects R (BaseDebugClient.onReverseRequest command h).
Proof.
  unfold BaseDebugClient.onReverseRequest. intros c.
  apply (step_reverseRequestHandlers R HS).
Qed.

(** Everything but connecting and disconnecting. *)
Lemma respects_perform_connected a c :
  match a with Connect _ _ | Disconnect => False | _ => True end ->
  R c (perform a c).
Proof.
  destruct a; cbn [perform]; intros Ha; try contradiction;
    [ apply respects_sendRequest | apply respects_sendResponse
    | apply respects_sendErrorResponse | apply respects_sendMessage
    | apply respects_onEvent | apply respects_onReverseRequest
    | apply (respects_handleData R HR) | apply (respects_handleMessage R HR)
    | apply respects_settle_reply ].
Qed.

End Sending.

Section Operations.

Variable R : Client -> Client -> Prop.
Hypothesis HC : client_steps R.

Let HS : send_steps R := steps_send R HC.
Let HR : dispatch_steps R := steps_dispatch R HS.

Lemma respects_connectAdapter r w : respects R (connectAdapter r w).
Proof.
  unfold connectAdapter; respects_auto HR. intros ?. apply (step_connection R HC).
Qed.

Lemma respects_disconnectAdapter : respects R disconnectAdapter.
Proof.
  unfold disconnectAdapter; respects_auto HR. intros ?. apply (step_connection R HC).
Qed.

Lemma respects_perform a c : R c (perform a c).
Proof.
  destruct a;
    [ apply respects_connectAdapter | apply respects_disconnectAdapter
    | apply (respects_perform_connected R HS); exact I .. ].
Qed.

Lemma respects_perform_all actions : forall c, R c (perform_all actions c).
Proof.
  induction actions as [|a rest IH]; intros c; simpl.
  - apply (step_refl R HR).
  - eapply (step_trans R HR); [apply respects_perform | apply IH].
Qed.

End Operations.

(** *** The connection while a message is handled *)

Lemma connection_dispatch : dispatch_steps (unchanged connection).
Proof.
  split; intros; unfold unchanged;
    try reflexivity; try congruence;
    try (unfold BaseDebugClient.log;
         match goal with
         | |- context [match logLevel ?c with _ => _ end] =>
             let E := fresh "E" in
             destruct (logLevel c) eqn:E; cbn; rewrite ?E; reflexivity
         end);
    try (unfold BaseDebugClient.settle, modify; cbn [snd];
         repeat case_match; reflexivity).
Qed.

(** *** The logger at [LogLevel.Off] *)

Lemma quiet_steps : client_steps (unchanged quiet_view).
Proof.
  split; [split; [split|..]|]; intros; unfold unchanged in *;
    try congruence; unfold quiet_view; try reflexivity.
  - match goal with
    | |- context [BaseDebugClient.log _ ?c] =>
        unfold BaseDebugClient.log; destruct (logLevel c) eqn:E;
        cbn; rewrite ?E; reflexivity
    end.
  - unfold BaseDebugClient.settle, modify; cbn [snd].
    match goal with
    | |- context [promises ?c !! ?p] => destruct (promises c !! p) as [[| |]|]
    end; reflexivity.
Qed.

(** X2.  A client created with [LogLevel.Off] never calls the logger, whatever
    is done with it: the log level is never changed, and [log] returns
    before it builds a line. *)
Theorem log_level_off_is_silent (c : Client) (actions : list action) :
  logLevel c = Off ->
  logLevel (perform_all actions c) = Off /\
  logged (perform_all actions c) = logged c.
Proof.
  intros Hoff.
  pose proof (respects_perform_all _ quiet_steps actions c) as H.
  unfold unchanged, quiet_view in H. rewrite Hoff in H.
  injection H as Hl Hg. rewrite Hl in Hg. split; assumption.
Qed.

Lemma log_level_off_is_silent_witness :
  logLevel (new Off) = Off /\
  logLevel (perform_all session (new Off)) = Off /\
  logged (perform_all session (new Off)) = [].
Proof.
  split; [reflexivity|].
  exact (log_level_off_is_silent (new Off) session eq_refl).
Defined.

(** *** Promises *)

Lemma settled_steps : client_steps settled_kept.
Proof.
  split; [split; [split|..]|]; unfold settled_kept; try (intros; assumption); eauto.
  - intros entry c q s H Hs. unfold BaseDebugClient.log. case_match; assumption.
  - intros p s c q s' H Hs. unfold BaseDebugClient.settle, modify; cbn [snd].
    destruct (promises c !! p) as [[| |]|] eqn:E; try assumption.
    cbn [promises set_promises]. rewrite list_lookup_insert_ne; [assumption|].
    intros ->. congruence.
  - intros c q s H Hs. cbn. apply lookup_app_l_Some. assumption.
Qed.

(** X3.  Once a promise returned by [sendRequest] is fulfilled or rejected, no
    later operation, response or chunk of data changes its state. *)
Theorem settled_promises_are_final (c : Client) (p : nat) (s : PromiseState)
  (actions : list action) :
  promises c !! p = Some s -> s <> Pending ->
  promises (perform_all actions c) !! p = Some s.
Proof. intros H Hs. exact (respects_perform_all _ settled_steps actions c p s H Hs). Qed.

(** *** Sequence numbers *)



Lemma settled_promises_are_final_witness :
  promises after_first_response !! 0%nat
  = Some (Fulfilled (Some (Obj [(js "x", Num (Int 1))]))) /\
  promises (perform_all (HandleMessage (failure_response 1) :: session)
              after_first_response) !! 0%nat
  = Some (Fulfilled (Some (Obj [(js "x", Num (Int 1))]))).
Proof.
  assert (H : promises after_first_response !! 0%nat
              = Some (Fulfilled (Some (Obj [(js "x", Num (Int 1))]))))
    by reflexivity.
  split; [exact H|].
  apply (settled_promises_are_final after_first_response 0%nat _
           (HandleMessage (failure_response 1) :: session) H).
  discriminate.
Defined.

(** ** Events *)

Lemma call_listeners_spec type arg ls : forall c,
  fst (BaseDebugClient.call_listeners type ls arg c)
  = match first_thrown ls arg with Some e => Throw e | None => Normal tt end /\
  snd (BaseDebugClient.call_listeners type ls arg c)
  = set_calls
      (calls c ++ map (fun l => ListenerCalled (listener_id l) arg) (called ls arg))
      (set_eventEmitter (without_once type (called ls arg) (eventEmitter c)) c).
Proof.
  induction ls as [|l rest IH]; intros c.
  - cbn. rewrite app_nil_r. destruct c; split; reflexivity.
  - cbn [BaseDebugClient.call_listeners called first_thrown].
    unfold bind, modify, ret, throw, BaseDebugClient.record_call,
      BaseDebugClient.remove_listener.
    destruct (listener_once l) eqn:Honce; cbn [fst snd];
      destruct (listener_fn l arg) as [e|] eqn:Hfn; cbn [fst snd].
    + split; [reflexivity|]. unfold without_once. cbn. rewrite Honce. reflexivity.
    + match goal with
      | |- context [BaseDebugClient.call_listeners type rest arg ?s] =>
          destruct (IH s) as [H1 H2]
      end.
      split; [exact H1|]. rewrite H2. cbn. rewrite <- app_assoc.
      unfold without_once. cbn. rewrite Honce. reflexivity.
    + split; [reflexivity|]. unfold without_once. cbn. rewrite Honce.
      destruct c; reflexivity.
    + destruct (IH (set_calls (calls c ++ [ListenerCalled (listener_id l) arg]) c))
        as [H1 H2].
      split; [exact H1|]. rewrite H2. cbn. rewrite <- app_assoc.
      unfold without_once. cbn. rewrite Honce. reflexivity.
Qed.

Lemma classify_not_null message k : classify message = Normal k -> message <> Null.
Proof. intros H ->. discriminate. Qed.

(** What [isEvent] has checked: the [event] is a string and the [seq] a
    number, so the line about an event can be built. *)
Lemma isEvent_fields message :
  classify message = Normal Event ->
  (exists s, field message "event" = Some (Str s)) /\
  (exists n, field message "seq" = Some (Num n)).
Proof.
  intros Hc. pose proof (classify_not_null _ _ Hc) as Hn.
  rewrite (classify_by_shape message Hn) in Hc. injection Hc as Hc.
  revert Hc. unfold classify_numbers, is_number, is_a_string, is_boolean.
  destruct (is_string (field message "type") "response"
            && tag_eqb (typeof (field message "request_seq")) TNumber
            && tag_eqb (typeof (field message "success")) TBoolean); [discriminate|].
  destruct (is_string (field message "type") "event"); cbn [andb].
  - destruct (field message "event") as [[| | |s| |]|]; cbn;
      try (destruct (is_string (field message "type") "request"
                     && tag_eqb (typeof (field message "command")) TString
                     && tag_eqb (typeof (field message "seq")) TNumber);
           discriminate).
    destruct (field message "seq") as [[| |n| | |]|]; cbn;
      try (destruct (is_string (field message "type") "request"
                     && tag_eqb (typeof (field message "command")) TString);
           discriminate).
    intros _. split; eexists; reflexivity.
  - destruct (is_string (field message "type") "request"
              && tag_eqb (typeof (field message "command")) TString
              && tag_eqb (typeof (field message "seq")) TNumber); discriminate.
Qed.

Lemma on_event_emit message type c :
  classify message = Normal Event ->
  field message "event" = Some (Str type) ->
  BaseDebugClient.on_event message c
  = match listeners_of c type with
    | [] =>
        (if str_eqb type (js "error")
         then Throw (new_Error "Unhandled error.") else Normal tt,
         snd (BaseDebugClient.log (LogReceivedEvent message) c))
    | ls =>
        let r := BaseDebugClient.call_listeners type ls (field message "body")
                   (snd (BaseDebugClient.log (LogReceivedEvent message) c)) in
        (match fst r with Normal _ => Normal tt | Throw e => Throw e end, snd r)
    end.
Proof.
  intros Hk He. pose proof (classify_not_null _ _ Hk) as Hn.
  destruct (isEvent_fields message Hk) as (_ & n & Hseq).
  unfold BaseDebugClient.on_event, bind, lift.
  rewrite !get_field, He, Hseq by assumption.
  cbn [interpolations interpolate ToString].
  assert (Hem : eventEmitter (snd (BaseDebugClient.log (LogReceivedEvent message) c))
                = eventEmitter c)
    by (unfold BaseDebugClient.log; destruct (logLevel c); reflexivity).
  assert (Hlog : BaseDebugClient.log (LogReceivedEvent message) c
                 = (Normal tt, snd (BaseDebugClient.log (LogReceivedEvent message) c)))
    by (unfold BaseDebugClient.log; destruct (logLevel c); reflexivity).
  rewrite Hlog. cbn [snd].
  set (c0 := snd (BaseDebugClient.log (LogReceivedEvent message) c)) in *.
  unfold BaseDebugClient.emit, bind, gets, BaseDebugClient.Map_get_str, listeners_of.
  rewrite Hem.
  destruct (eventEmitter c !! type) as [[|l ls]|]; cbn [default from_option id].
  - unfold is_string. destruct (str_eqb type (js "error")); reflexivity.
  - cbv zeta.
    destruct (BaseDebugClient.call_listeners type (l :: ls) (field message "body") c0)
      as [[[]|e] c1]; reflexivity.
  - unfold is_string. destruct (str_eqb type (js "error")); reflexivity.
Qed.

(** What dispatching an event leaves behind. *)
Lemma event_dispatch_state c message type :
  classify message = Normal Event ->
  field message "event" = Some (Str type) ->
  let body := field message "body" in
  let ls := listeners_of c type in
  let c' := snd (BaseDebugClient.handleMessage message c) in
  calls c'
  = calls c ++ map (fun l => ListenerCalled (listener_id l) body) (called ls body) /\
  eventEmitter c' = without_once type (called ls body) (eventEmitter c).
Proof.
  intros Hc He body ls c'. subst c'.
  rewrite handleMessage_classify, Hc, (on_event_emit message type c Hc He).
  fold ls. fold body.
  set (c0 := snd (BaseDebugClient.log (LogReceivedEvent message) c)).
  assert (H0 : calls c0 = calls c /\ eventEmitter c0 = eventEmitter c)
    by (subst c0; unfold BaseDebugClient.log; destruct (logLevel c); cbn; auto).
  destruct H0 as (Hcalls & Hem).
  destruct ls as [|l rest] eqn:Hls.
  - cbn [called map snd]. rewrite app_nil_r. split; [exact Hcalls | exact Hem].
  - cbv zeta. destruct (call_listeners_spec type body (l :: rest) c0) as [H1 H2].
    rewrite H2. cbn [snd calls set_calls set_eventEmitter eventEmitter].
    rewrite Hcalls, Hem. split; reflexivity.
Qed.



(** *** [once] listeners *)

Lemma filter_all {A} (P : A -> Prop) `{forall x, Decision (P x)} (l : list A) :
  (forall x, x ∈ l -> P x) -> filter P l = l.
Proof.
  induction l as [|x l IH]; intros Hall; [reflexivity|].
  rewrite filter_cons_True by (apply Hall; left).
  f_equal. apply IH. intros y Hy. apply Hall. right. exact Hy.
Qed.

Lemma filter_ext_elem {A} (P Q : A -> Prop) `{forall x, Decision (P x)}
  `{forall x, Decision (Q x)} (l : list A) :
  (forall x, x ∈ l -> (P x <-> Q x)) -> filter P l = filter Q l.
Proof.
  induction l as [|x l IH]; intros Hall; [reflexivity|].
  assert (Hl : filter P l = filter Q l)
    by (apply IH; intros y Hy; apply Hall; right; exact Hy).
  destruct (decide (P x)) as [Hp|Hp].
  - assert (Hq : Q x) by (apply (Hall x); [left | exact Hp]).
    rewrite (filter_cons_True P), (filter_cons_True Q) by assumption.
    f_equal. exact Hl.
  - assert (Hq : ~ Q x) by (intros Hq; apply Hp, (Hall x); [left | exact Hq]).
    rewrite (filter_cons_False P), (filter_cons_False Q) by assumption.
    exact Hl.
Qed.

Lemma called_elem ls arg x : x ∈ called ls arg -> x ∈ ls.
Proof.
  induction ls as [|l ls IH]; cbn; [auto|].
  intros H. apply elem_of_cons in H as [->|H]; [left|].
  right. destruct (listener_fn l arg); [|auto].
  apply elem_of_nil in H. contradiction.
Qed.

Lemma called_all ls arg : first_thrown ls arg = None -> called ls arg = ls.
Proof.
  induction ls as [|l ls IH]; cbn; [reflexivity|].
  destruct (listener_fn l arg); [discriminate|]. intros H. f_equal. auto.
Qed.

Lemma listener_of_id ls x y :
  NoDup (map listener_id ls) -> x ∈ ls -> y ∈ ls ->
  listener_id x = listener_id y -> x = y.
Proof.
  induction ls as [|l ls IH]; intros Hnd Hx Hy Hid.
  - apply elem_of_nil in Hx. contradiction.
  - cbn in Hnd. apply list.NoDup_cons in Hnd as [Hl Hnd].
    apply elem_of_cons in Hx as [->|Hx]; apply elem_of_cons in Hy as [->|Hy];
      try reflexivity; try (apply IH; assumption).
    + exfalso. apply Hl. rewrite Hid. apply list_elem_of_fmap_2. exact Hy.
    + exfalso. apply Hl. rewrite <- Hid. apply list_elem_of_fmap_2. exact Hx.
Qed.

Lemma NoDup_map_filter {A B} (f : A -> B) (P : A -> Prop)
  `{forall x, Decision (P x)} (l : list A) :
  NoDup (map f l) -> NoDup (map f (filter P l)).
Proof.
  induction l as [|x l IH]; intros Hnd; [exact Hnd|].
  cbn in Hnd. apply list.NoDup_cons in Hnd as [Hx Hnd].
  destruct (decide (P x)).
  - rewrite filter_cons_True by assumption. cbn. apply list.NoDup_cons.
    split; [|apply IH, Hnd].
    intros Hin. apply Hx. apply list_elem_of_fmap in Hin as (y & -> & Hy).
    apply list_elem_of_filter in Hy as [_ Hy]. apply list_elem_of_fmap_2. exact Hy.
  - rewrite filter_cons_False by assumption. apply IH, Hnd.
Qed.

(** Among listeners that are registered once each, the wrapper of a
    callback is the only registration of that callback. *)
Lemma remove_once_filter id ls :
  NoDup (map listener_id ls) ->
  BaseDebugClient.remove_once id ls
  = filter (fun x => ~ (listener_once x = true /\ listener_id x = id)) ls.
Proof.
  induction ls as [|l ls IH]; intros Hnd; [reflexivity|].
  cbn in Hnd. apply list.NoDup_cons in Hnd as [Hl Hnd].
  cbn [BaseDebugClient.remove_once].
  destruct (listener_once l && bool_decide (listener_id l = id)) eqn:E.
  - apply andb_true_iff in E as [Honce Hid]. apply bool_decide_eq_true in Hid.
    rewrite filter_cons_False by (intros Hno; apply Hno; split; assumption).
    symmetry. apply filter_all. intros x Hx [_ Hxid]. apply Hl.
    rewrite Hid, <- Hxid. apply list_elem_of_fmap_2. exact Hx.
  - rewrite filter_cons_True.
    + f_equal. apply IH, Hnd.
    + intros [Honce Hid]. rewrite Honce, bool_decide_eq_true_2 in E by assumption.
      discriminate.
Qed.

Lemma drop_once_listeners type i em :
  default [] (BaseDebugClient.drop_once type i em !! type)
  = BaseDebugClient.remove_once i (default [] (em !! type)).
Proof.
  unfold BaseDebugClient.drop_once.
  destruct (em !! type) as [ls|] eqn:E; cbn [default from_option id].
  - destruct (BaseDebugClient.remove_once i ls) as [|x r].
    + rewrite lookup_delete_eq. reflexivity.
    + rewrite lookup_insert_eq. reflexivity.
  - rewrite E. reflexivity.
Qed.

Lemma drop_once_other type i em other :
  other <> type -> BaseDebugClient.drop_once type i em !! other = em !! other.
Proof.
  intros Hne. unfold BaseDebugClient.drop_once.
  destruct (em !! type) as [ls|]; [|reflexivity].
  destruct (BaseDebugClient.remove_once i ls).
  - apply lookup_delete_ne. congruence.
  - apply lookup_insert_ne. congruence.
Qed.

Lemma without_once_other type other cs : forall em,
  other <> type -> without_once type cs em !! other = em !! other.
Proof.
  induction cs as [|l cs IH]; intros em Hne; [reflexivity|].
  unfold without_once in *. cbn [fold_left]. rewrite IH by assumption.
  destruct (listener_once l); [|reflexivity].
  apply drop_once_other, Hne.
Qed.

(** The listeners an emission leaves, when the event had the listeners
    [full0], each registered once. *)
Lemma without_once_listeners type full0 cs :
  NoDup (map listener_id full0) ->
  (forall x, x ∈ cs -> x ∈ full0) ->
  forall em,
    NoDup (map listener_id (default [] (em !! type))) ->
    (forall x, x ∈ default [] (em !! type) -> x ∈ full0) ->
    default [] (without_once type cs em !! type)
    = filter (fun x => ~ (listener_once x = true /\
                          listener_id x ∈ map listener_id cs))
        (default [] (em !! type)).
Proof.
  intros Hnd0. induction cs as [|l cs IH]; intros Hcs em Hnd Hsub.
  - cbn. symmetry. apply filter_all. intros x _ [_ Hin].
    apply elem_of_nil in Hin. exact Hin.
  - assert (Hl : l ∈ full0) by (apply Hcs; left).
    assert (Hcs' : forall x, x ∈ cs -> x ∈ full0) by (intros x Hx; apply Hcs; right; exact Hx).
    unfold without_once in *. cbn [fold_left].
    destruct (listener_once l) eqn:Honce.
    + rewrite IH; [|exact Hcs'| |].
      * rewrite drop_once_listeners, (remove_once_filter _ _ Hnd).
        rewrite list_filter_filter. apply list_filter_iff. intros x.
        cbn [map]. rewrite elem_of_cons. tauto.
      * rewrite drop_once_listeners, (remove_once_filter _ _ Hnd).
        apply NoDup_map_filter, Hnd.
      * intros x. rewrite drop_once_listeners, (remove_once_filter _ _ Hnd).
        intros Hx. apply list_elem_of_filter in Hx as [_ Hx]. apply Hsub, Hx.
    + rewrite IH by assumption.
      apply filter_ext_elem. intros x Hx. cbn [map]. rewrite elem_of_cons.
      split; [|tauto].
      intros Hno [Hx1 [Hid|Hin]]; [|apply Hno; split; assumption].
      assert (x = l) by (apply (listener_of_id full0); auto). subst x. congruence.
Qed.



(** *** Unsubscribing *)

Lemma remove_last_snoc l ls : remove_last (listener_id l) (ls ++ [l]) = Some ls.
Proof.
  induction ls as [|x ls IH]; cbn.
  - rewrite decide_True by reflexivity. reflexivity.
  - rewrite IH. reflexivity.
Qed.

(** X7.  [unsubscribe()] undoes the [onEvent] that returned it: every event
    has the listeners it had before, in the same order, and nothing else
    about the client has changed.  When the same callback was already
    registered, it is the new registration that goes. *)
Theorem unsubscribe_undoes_onEvent (c : Client) (event : jsstring) (l : Listener) :
  no_meta_listeners c ->
  let c1 := snd (BaseDebugClient.onEvent event l c) in
  let c2 := snd (unsubscribe_event event l c1) in
  listeners_of c1 event = listeners_of c event ++ [l] /\
  fst (unsubscribe_event event l c1) = Normal tt /\
  (forall type, listeners_of c2 type = listeners_of c type) /\
  c2 = set_eventEmitter (eventEmitter c2) c.
Proof.
  intros _ c1 c2.
  assert (H1 : eventEmitter c1 = <[event := listeners_of c event ++ [l]]> (eventEmitter c))
    by reflexivity.
  assert (Hl1 : eventEmitter c1 !! event = Some (listeners_of c event ++ [l]))
    by (rewrite H1; apply lookup_insert_eq).
  split; [unfold listeners_of at 1; rewrite Hl1; reflexivity|].
  split; [reflexivity|].
  subst c2. unfold unsubscribe_event, off, modify. cbn [snd].
  rewrite Hl1, remove_last_snoc.
  destruct (listeners_of c event) as [|x xs] eqn:Hls.
  - split; [|reflexivity].
    intros type. unfold listeners_of at 1. cbn [eventEmitter set_eventEmitter].
    destruct (decide (type = event)) as [->|Hne].
    + rewrite lookup_delete_eq, Hls. reflexivity.
    + rewrite lookup_delete_ne, H1, lookup_insert_ne by congruence. reflexivity.
  - split; [|reflexivity].
    intros type. unfold listeners_of at 1. cbn [eventEmitter set_eventEmitter].
    destruct (decide (type = event)) as [->|Hne].
    + rewrite lookup_insert_eq, Hls. reflexivity.
    + rewrite lookup_insert_ne, H1, lookup_insert_ne by congruence. reflexivity.
Qed.

Lemma unsubscribe_undoes_onEvent_witness :
  no_meta_listeners listening /\
  listeners_of (snd (BaseDebugClient.onEvent (js "stopped") once_listener listening))
    (js "stopped")
  = [throwing_listener; once_listener] /\
  listeners_of
    (snd (unsubscribe_event (js "stopped") once_listener
            (snd (BaseDebugClient.onEvent (js "stopped") once_listener listening))))
    (js "stopped")
  = [throwing_listener].
Proof.
  assert (Hm : no_meta_listeners listening) by (split; reflexivity).
  destruct (unsubscribe_undoes_onEvent listening (js "stopped") once_listener Hm)
    as (H1 & _ & H2 & _).
  split; [exact Hm|]. split; [exact H1 | exact (H2 (js "stopped"))].
Defined.

(** *** Reverse-request handlers *)

Lemma classify_request message :
  classify message = Normal Request -> Protocol.isRequest message = Normal true.
Proof.
  unfold classify.
  destruct (Protocol.isResponse message) as [[|]|]; try discriminate.
  destruct (Protocol.isEvent message) as [[|]|]; try discriminate.
  destruct (Protocol.isRequest message) as [[|]|]; try discriminate.
  reflexivity.
Qed.

Lemma handleMessage_no_handler message command c :
  classify message = Normal Request ->
  field message "command" = Some (Str command) ->
  reverseRequestHandlers c !! command = None ->
  BaseDebugClient.handleMessage message c
  = BaseDebugClient.log (LogNoHandler message) c.
Proof.
  intros Hc Hf Hh.
  rewrite (handleMessage_request message command c (classify_request _ Hc) Hf), Hh.
  reflexivity.
Qed.



(** ** Streams of messages *)

Lemma wire_frame message :
  ascii (JSON.stringify message) ->
  wire message = frame (utf8_encode (JSON.stringify message)).
Proof.
  intros Ha. unfold wire. rewrite encodeMessage_header.
  rewrite utf8_encode_app_ascii by (apply one_line_ascii, header_text_one_line).
  change (utf8_encode (Protocol.TWO_CRLF ++ JSON.stringify message))
    with (crlf_crlf ++ utf8_encode (JSON.stringify message)).
  unfold frame. fold (utf8_length (JSON.stringify message)).
  rewrite utf8_length_ascii by assumption. reflexivity.
Qed.

Lemma handle_body_stringify message c :
  plain_ascii message ->
  snd (handle_body (utf8_decode (utf8_encode (JSON.stringify message))) c)
  = receive message c.
Proof.
  intros Hp. rewrite utf8_round_trip_ascii by (apply ascii_stringify, Hp).
  unfold handle_body, receive.
  destruct (stringify_head message (plain_ascii_plain _ Hp)) as (u & t & Hs & _).
  rewrite Hs. cbn [length Nat.ltb Nat.leb]. rewrite <- Hs.
  unfold parse_and_handle, JSON_parse.
  rewrite (parse_stringify message (plain_ascii_plain _ Hp)). reflexivity.
Qed.

Lemma deliver_messages messages : forall c,
  Forall plain_ascii messages ->
  deliver (map (fun m => utf8_encode (JSON.stringify m)) messages) c
  = receive_all messages c.
Proof.
  induction messages as [|m ms IH]; intros c Hall; [reflexivity|].
  inversion Hall as [|? ? Hm Hms]; subst.
  cbn [map deliver receive_all fold_left].
  rewrite (handle_body_stringify m c Hm). apply (IH _ Hms).
Qed.

Lemma wire_messages messages :
  Forall plain_ascii messages ->
  concat (map wire messages)
  = concat (map frame (map (fun m => utf8_encode (JSON.stringify m)) messages)).
Proof.
  induction 1 as [|m ms Hm _ IH]; [reflexivity|].
  cbn [map concat]. rewrite IH, (wire_frame m) by (apply ascii_stringify, Hm).
  reflexivity.
Qed.

Lemma frame_nonempty payload : frame payload <> [].
Proof. unfold frame, header_text. discriminate. Qed.

Lemma feed_messages (c : Client) (messages : list value)
  (chunks : list (list byte)) :
  Forall plain_ascii messages ->
  buffer c = [] -> contentLength c = Int (-1) ->
  concat chunks = concat (map wire messages) ->
  feed chunks c = receive_all messages c.
Proof.
  intros Hall Hb Hn Hbytes.
  rewrite (wire_messages messages Hall) in Hbytes.
  rewrite <- (deliver_messages messages c Hall).
  destruct chunks as [|first more].
  - destruct messages as [|m ms]; [reflexivity|].
    cbn in Hbytes. symmetry in Hbytes. apply app_eq_nil in Hbytes as [Hf _].
    destruct (frame_nonempty _ Hf).
  - rewrite feed_concat.
    change (first ++ List.concat more) with (concat (first :: more)).
    rewrite Hbytes, handleData_frames by assumption. reflexivity.
Qed.


(** ** Incomplete input *)

Lemma with_stream_idle b c :
  contentLength c = Int (-1) -> with_stream b (Int (-1)) c = set_buffer b c.
Proof. intros H. destruct c; cbn in *; subst; reflexivity. Qed.

(** No blank line in a header that has not arrived in full. *)
Lemma index_from_partial pre k i :
  one_line pre -> (k < 4)%nat ->
  Buffer.index_from crlf_crlf (map byte_of_N pre ++ take k crlf_crlf) i = -1.
Proof.
  intros H Hk. revert i. induction H as [|u pre [Hu Hne] _ IH]; intros i.
  - cbn [map app]. destruct k as [|[|[|[|k]]]]; [reflexivity..|lia].
  - cbn [map app Buffer.index_from].
    replace (Buffer.starts_with crlf_crlf
               (byte_of_N u :: map byte_of_N pre ++ take k crlf_crlf))
      with false; [apply IH|].
    cbn [Buffer.starts_with crlf_crlf]. rewrite byte_of_N_not_cr by assumption.
    reflexivity.
Qed.


Lemma one_line_take k s : one_line s -> one_line (take k s).
Proof. apply Forall_take. Qed.

Lemma header_prefix_no_blank_line payload data rest :
  frame_header payload = data ++ rest -> rest <> [] ->
  Buffer.indexOf data Protocol.TWO_CRLF = -1.
Proof.
  intros Hsplit Hrest. unfold Buffer.indexOf.
  change (utf8_encode Protocol.TWO_CRLF) with crlf_crlf.
  unfold frame_header in Hsplit.
  set (pre := header_text (N.of_nat (length payload))) in *.
  assert (Hpre : one_line pre) by apply header_text_one_line.
  assert (Hlen : (length data < length (map byte_of_N pre) + 4)%nat).
  { apply (f_equal (@length byte)) in Hsplit. rewrite !length_app in Hsplit.
    cbn [length crlf_crlf] in Hsplit. destruct rest; [contradiction|].
    cbn [length] in Hsplit. lia. }
  assert (Hdata : data = take (length data) (map byte_of_N pre ++ crlf_crlf)).
  { rewrite Hsplit, take_app_length. reflexivity. }
  rewrite Hdata, take_app.
  rewrite <- fmap_take.
  apply index_from_partial; [apply one_line_take, Hpre | lia].
Qed.

(** X10.  While a frame has not arrived in full, [handleData] only keeps its
    bytes: either in the buffer, when the header is not complete, or as the
    expected length and the part of the payload that is there.  No message
    is handled, nothing is logged, no promise is settled. *)
Theorem partial_frame_is_only_buffered (c : Client) (payload data rest : list byte) :
  buffer c = [] -> contentLength c = Int (-1) ->
  frame payload = data ++ rest -> rest <> [] ->
  handleData data c = (Normal tt, set_buffer data c) \/
  exists body,
    data = frame_header payload ++ body /\
    handleData data c
    = (Normal tt, with_stream body (Int (Z.of_nat (length payload))) c).
Proof.
  intros Hb Hn Hframe Hrest.
  rewrite handleData_drain, Hb. cbn [app].
  assert (Hframe' : frame payload = frame_header payload ++ payload)
    by (unfold frame, frame_header; rewrite <- app_assoc; reflexivity).
  rewrite Hframe' in Hframe.
  destruct (Nat.lt_ge_cases (length data) (length (frame_header payload))) as [Hlt|Hge].
  - left.
    assert (Hpre : frame_header payload
                   = data ++ drop (length data) (frame_header payload)).
    { rewrite <- (take_drop (length data) (frame_header payload)) at 1. f_equal.
      apply (f_equal (take (length data))) in Hframe.
      rewrite take_app_le, take_app_length in Hframe by lia. exact Hframe. }
    assert (Hmore : drop (length data) (frame_header payload) <> []).
    { intros H. apply (f_equal (@length byte)) in H. rewrite length_drop in H.
      cbn [length] in H. lia. }
    pose proof (header_prefix_no_blank_line payload data _ Hpre Hmore) as Hidx.
    rewrite drain_unfold, iteration_cases. cbn [contentLength set_buffer].
    rewrite Hn. cbn [ge0 Z.leb Z.compare]. unfold header_end. cbn [buffer set_buffer].
    rewrite Hidx. reflexivity.
  - right. exists (drop (length (frame_header payload)) data).
    assert (Hdata : data = frame_header payload
                           ++ drop (length (frame_header payload)) data).
    { rewrite <- (take_drop (length (frame_header payload)) data) at 1. f_equal.
      apply (f_equal (take (length (frame_header payload)))) in Hframe.
      rewrite take_app_length, take_app_le in Hframe by lia. symmetry. exact Hframe. }
    split; [exact Hdata|].
    set (body := drop (length (frame_header payload)) data) in *.
    assert (Hshort : (length body < length payload)%nat).
    { rewrite Hdata in Hframe. rewrite <- app_assoc in Hframe.
      apply app_inv_head in Hframe. apply (f_equal (@length byte)) in Hframe.
      rewrite length_app in Hframe. destruct rest; [contradiction|].
      cbn [length] in Hframe. lia. }
    rewrite drain_unfold.
    rewrite (header_step (set_buffer data c) (N.of_nat (length payload)) body).
    + rewrite drain_unfold, iteration_cases.
      cbn [contentLength buffer with_stream set_contentLength set_buffer].
      rewrite nat_N_Z. cbn [ge0].
      destruct (Z.leb_spec 0 (Z.of_nat (length payload))); [|lia].
      cbn [int_ge]. destruct (Z.leb_spec (Z.of_nat (length payload))
                                (Z.of_nat (length body))); [lia|].
      destruct c; reflexivity.
    + cbn. rewrite Hn. reflexivity.
    + cbn [buffer set_buffer]. rewrite Hdata at 1. unfold frame_header.
      rewrite <- app_assoc. reflexivity.
Qed.

Lemma partial_frame_is_only_buffered_witness :
  frame stopped_payload = take 30 (frame stopped_payload) ++ drop 30 (frame stopped_payload) /\
  handleData (take 30 (frame stopped_payload)) connected
  = (Normal tt,
     with_stream (take 8 stopped_payload) (Int (Z.of_nat (length stopped_payload)))
       connected).
Proof.
  assert (Hcut : frame stopped_payload
                 = take 30 (frame stopped_payload) ++ drop 30 (frame stopped_payload))
    by (symmetry; apply take_drop).
  assert (Hrest : drop 30 (frame stopped_payload) <> []) by (vm_compute; discriminate).
  split; [exact Hcut|].
  destruct (partial_frame_is_only_buffered connected stopped_payload _ _
              eq_refl eq_refl Hcut Hrest) as [H|(body & Hb & H)].
  - vm_compute in H. discriminate H.
  - assert (Hbody : body = take 8 stopped_payload)
      by (vm_compute in Hb; vm_compute; congruence).
    rewrite H, Hbody. reflexivity.
Defined.

(** ** A length that is not reached *)

Lemma waiting_turn c :
  ge0 (contentLength c) = true ->
  int_ge (Z.of_nat (length (buffer c))) (contentLength c) = false ->
  drain c = (Normal tt, c).
Proof. intros H1 H2. rewrite drain_unfold, iteration_cases, H1, H2. reflexivity. Qed.

Lemma feed_app chunks more c : feed (chunks ++ more) c = feed more (feed chunks c).
Proof. unfold feed. apply fold_left_app. Qed.

(** X11.  While fewer bytes have arrived than the header announced, [handleData]
    only adds the chunk to the buffer.  A header that announces
    [Infinity] therefore stops the decoder for good: whatever arrives
    afterwards is buffered and no message is decoded any more. *)
Theorem decoder_waits_for_announced_length (c : Client) :
  (forall data,
     ge0 (contentLength c) = true ->
     int_ge (Z.of_nat (length (buffer c) + length data)) (contentLength c) = false ->
     handleData data c = (Normal tt, append data c)) /\
  (forall chunks,
     contentLength c = Infinity false ->
     feed chunks c = append (List.concat chunks) c).
Proof.
  split.
  - intros data H1 H2. rewrite handleData_drain. apply waiting_turn.
    + exact H1.
    + change (int_ge (Z.of_nat (length (buffer c ++ data))) (contentLength c) = false).
      rewrite length_app. exact H2.
  - intros chunks Hinf. revert c Hinf. induction chunks as [|d ds IH]; intros c Hinf.
    + cbn. unfold append. rewrite app_nil_r. destruct c; reflexivity.
    + change (feed (d :: ds) c) with (feed ds (snd (handleData d c))).
      rewrite handleData_drain, waiting_turn.
      * cbn [snd]. rewrite IH by exact Hinf. unfold append.
        cbn [buffer set_buffer List.concat]. rewrite <- app_assoc.
        destruct c; reflexivity.
      * cbn. rewrite Hinf. reflexivity.
      * cbn. rewrite Hinf. reflexivity.
Qed.

Lemma decoder_waits_for_announced_length_witness :
  handleData [x7b; x7d] expecting_ten = (Normal tt, append [x7b; x7d] expecting_ten) /\
  contentLength stalled = Infinity false /\
  feed [response_bytes; response_bytes] stalled
  = append (response_bytes ++ response_bytes) stalled.
Proof.
  destruct (decoder_waits_for_announced_length expecting_ten) as [H1 _].
  destruct (decoder_waits_for_announced_length stalled) as [_ H2].
  split; [exact (H1 [x7b; x7d] eq_refl eq_refl)|].
  split; [reflexivity|].
  rewrite (H2 [response_bytes; response_bytes] eq_refl).
  cbn [List.concat]. rewrite app_nil_r. reflexivity.
Defined.

(** ** Headers with several fields *)

Lemma join_lines_cons line more :
  more <> [] -> join_lines (line :: more) = line ++ [13; 10]%N ++ join_lines more.
Proof. destruct more; [contradiction | reflexivity]. Qed.

Lemma split_on_line l rest cur :
  Forall (fun u => u <> 13%N) l ->
  split_on [13; 10]%N (l ++ 13%N :: 10%N :: rest) cur 0
  = (rev cur ++ l) :: split_on [13; 10]%N rest [] 0.
Proof.
  intros H. revert cur. induction H as [|u s Hu _ IH]; intros cur.
  - cbn. rewrite app_nil_r. reflexivity.
  - cbn [app split_on strip_prefix]. destruct (N.eqb_spec 13 u); [congruence|].
    rewrite IH. cbn [rev]. rewrite <- app_assoc. reflexivity.
Qed.

Lemma split_join_lines lines :
  lines <> [] -> Forall header_line lines ->
  split (join_lines lines) [13; 10]%N = lines.
Proof.
  intros Hne Hall. unfold split.
  induction Hall as [|l more [Hl _] Hmore IH]; [contradiction|].
  destruct more as [|l' more'].
  - cbn [join_lines]. apply split_one_line in Hl. exact Hl.
  - rewrite join_lines_cons by discriminate. cbn [app].
    rewrite split_on_line.
    + cbn [rev app]. f_equal. apply IH. discriminate.
    + revert Hl. apply Forall_impl. intros u [_ H]. exact H.
Qed.

Lemma one_line_join lines : Forall header_line lines -> ascii (join_lines lines).
Proof.
  induction 1 as [|l more [Hl _] _ IH]; [constructor|].
  destruct more as [|l' more'].
  - cbn [join_lines]. apply one_line_ascii, Hl.
  - rewrite join_lines_cons by discriminate.
    apply Forall_app. split; [apply one_line_ascii, Hl|].
    constructor; [lia|]. constructor; [lia|]. exact IH.
Qed.

Lemma join_lines_head l more :
  header_line l ->
  exists u t, join_lines (l :: more) = u :: t /\ (u < 128)%N /\ u <> 13%N.
Proof.
  intros [Hl Hne]. destruct l as [|u t]; [contradiction|].
  inversion Hl as [|? ? [Hu Hcr] _]; subst.
  destruct more as [|l' more'].
  - exists u, t. auto.
  - exists u, (t ++ [13; 10]%N ++ join_lines (l' :: more')). auto.
Qed.

(** The header ends at the first blank line, and there is none inside
    lines that are not empty. *)
Lemma index_from_lines lines rest : forall i,
  Forall header_line lines ->
  Buffer.index_from crlf_crlf (map byte_of_N (join_lines lines) ++ crlf_crlf ++ rest) i
  = i + Z.of_nat (length (join_lines lines)).
Proof.
  intros i Hall. revert i.
  induction Hall as [|l more [Hl Hne] Hmore IH]; intros i.
  - cbn. lia.
  - destruct more as [|l' more'].
    + cbn [join_lines]. apply index_from_one_line, Hl.
    + rewrite join_lines_cons by discriminate.
      inversion Hmore as [|? ? Hl' _]; subst.
      destruct (join_lines_head l' more' Hl') as (u & t & Hj & Hu & Hcr).
      rewrite Hj in IH |- *.
      clear Hne Hmore. revert i.
      induction Hl as [|v l [Hv Hvr] _ IHl]; intros i.
      * cbn [app map Buffer.index_from length].
        replace (Buffer.starts_with crlf_crlf
                   (byte_of_N 13 :: byte_of_N 10 :: byte_of_N u
                      :: map byte_of_N t ++ crlf_crlf ++ rest)) with false.
        2: { cbn [Buffer.starts_with crlf_crlf].
             change (byte_of_N 13) with x0d. change (byte_of_N 10) with x0a.
             cbn [Byte.eqb]. rewrite byte_of_N_not_cr by assumption.
             vm_compute. reflexivity. }
        replace (Buffer.starts_with crlf_crlf
                   (byte_of_N 10 :: byte_of_N u
                      :: map byte_of_N t ++ crlf_crlf ++ rest)) with false
          by reflexivity.
        specialize (IH (i + 1 + 1)). cbn [map app Buffer.index_from length] in IH.
        rewrite IH. lia.
      * cbn [app map Buffer.index_from].
        match goal with
        | |- context [Buffer.starts_with ?p ?b] =>
            replace (Buffer.starts_with p b) with false
        end.
        2: { cbn [Buffer.starts_with crlf_crlf].
             rewrite byte_of_N_not_cr by assumption. reflexivity. }
        rewrite IHl. cbn [length app]. rewrite !length_app. cbn [length]. lia.
Qed.

(** A turn on a buffer that starts with a header of several lines. *)
Lemma header_lines_step c lines rest :
  ge0 (contentLength c) = false ->
  lines <> [] -> Forall header_line lines ->
  buffer c = map byte_of_N (join_lines lines) ++ crlf_crlf ++ rest ->
  iteration c = (Normal true, set_buffer rest (snd (read_header_lines lines c))).
Proof.
  intros Hn Hne Hall Hb.
  assert (He : header_end c = Z.of_nat (length (map byte_of_N (join_lines lines)))).
  { unfold header_end, Buffer.indexOf. rewrite Hb, utf8_TWO_CRLF.
    rewrite index_from_lines by assumption. rewrite length_map. lia. }
  rewrite iteration_cases, Hn.
  destruct (Z.eqb_spec (header_end c) (-1)) as [Hx|_]; [lia|]. simpl negb. cbv iota.
  unfold after_header. rewrite He, Hb.
  rewrite toString_exact.
  replace (utf8_decode (map byte_of_N (join_lines lines))) with (join_lines lines).
  2: { pose proof (utf8_decode_ascii (join_lines lines) [] (one_line_join _ Hall)) as Hd.
       rewrite !app_nil_r in Hd. symmetry. exact Hd. }
  rewrite split_join_lines by assumption.
  replace (Z.of_nat (length (map byte_of_N (join_lines lines))) + 4)
    with (Z.of_nat (length (map byte_of_N (join_lines lines) ++ crlf_crlf)))
    by (rewrite length_app; simpl; lia).
  rewrite app_assoc, slice_exact. reflexivity.
Qed.

Lemma read_other_fields lines c :
  Forall other_field lines -> read_header_lines lines c = (Normal tt, c).
Proof.
  induction 1 as [|l more [_ Hl] _ IH]; [reflexivity|].
  cbn [read_header_lines]. rewrite bool_decide_eq_false_2 by exact Hl.
  unfold bind, ret. exact IH.
Qed.

Lemma read_header_lines_app lines more c :
  read_header_lines (lines ++ more) c
  = read_header_lines more (snd (read_header_lines lines c)).
Proof.
  revert c. induction lines as [|l ls IH]; intros c; [reflexivity|].
  cbn [app read_header_lines]. unfold bind.
  destruct (bool_decide _); cbn; apply IH.
Qed.

Lemma read_length_among_fields before after n c :
  Forall other_field before -> Forall other_field after ->
  read_header_lines (before ++ [header_text n] ++ after) c
  = (Normal tt, set_contentLength (Int (Z.of_N n)) c).
Proof.
  intros Hb Ha.
  rewrite read_header_lines_app, (read_other_fields before c Hb). cbn [snd].
  rewrite read_header_lines_app.
  pose proof (read_header_text n c) as Hn.
  rewrite split_one_line in Hn by apply header_text_one_line.
  rewrite Hn. cbn [snd]. apply read_other_fields, Ha.
Qed.

Lemma header_text_line n : header_line (header_text n).
Proof. split; [apply header_text_one_line | discriminate]. Qed.

Lemma handleData_frames_one payload c :
  buffer c = [] -> contentLength c = Int (-1) ->
  handleData (frame payload) c
  = (Normal tt, snd (handle_body (utf8_decode payload) c)).
Proof.
  intros Hb Hn. pose proof (handleData_frames [payload] c Hb Hn) as H.
  cbn [map List.concat concat] in H. unfold Buffer.concat in H.
  cbn [map List.concat] in H. rewrite app_nil_r in H. exact H.
Qed.

(** X12.  Header fields other than [Content-Length], in front of it or behind
    it, make no difference to what is decoded; and a header that has no
    [Content-Length] field at all is dropped, the decoder going on behind
    it without a length. *)
Theorem other_header_fields_are_ignored (c : Client) (before after : list jsstring) :
  buffer c = [] -> contentLength c = Int (-1) ->
  Forall other_field before -> Forall other_field after ->
  (forall payload,
     handleData (frame_with before after payload) c = handleData (frame payload) c) /\
  (forall rest,
     before <> [] ->
     handleData (map byte_of_N (join_lines before) ++ crlf_crlf ++ rest) c
     = handleData rest c).
Proof.
  intros Hb Hn Hbefore Hafter.
  assert (Hlines : forall ls, Forall other_field ls -> Forall header_line ls)
    by (intros ls; apply Forall_impl; intros l [H _]; exact H).
  split.
  - intros payload. rewrite handleData_frames_one by assumption.
    rewrite handleData_drain, Hb. cbn [app].
    rewrite drain_unfold.
    rewrite (header_lines_step (set_buffer (frame_with before after payload) c)
               (before ++ [header_text (N.of_nat (length payload))] ++ after) payload).
    + rewrite read_length_among_fields by assumption. cbn [snd].
      rewrite drain_unfold.
      rewrite (body_step _ payload []).
      * rewrite drain_idle; [|reflexivity..].
        cbn [snd]. f_equal.
        change (set_buffer payload
                  (set_contentLength (Int (Z.of_N (N.of_nat (length payload))))
                     (set_buffer (frame_with before after payload) c)))
          with (with_stream payload (Int (Z.of_N (N.of_nat (length payload)))) c).
        rewrite (indep_handle_body (utf8_decode payload) c). cbn [snd].
        destruct (handle_body_stream (utf8_decode payload) c) as [H1 H2].
        rewrite Hb in H1. rewrite Hn in H2.
        destruct (snd (handle_body (utf8_decode payload) c)); cbn in *; subst; reflexivity.
      * cbn. rewrite nat_N_Z. reflexivity.
      * cbn. rewrite app_nil_r. reflexivity.
    + cbn. rewrite Hn. reflexivity.
    + destruct before; discriminate.
    + apply Forall_app. split; [apply Hlines, Hbefore|].
      constructor; [apply header_text_line | apply Hlines, Hafter].
    + reflexivity.
  - intros rest Hne.
    rewrite !handleData_drain, Hb. cbn [app].
    rewrite drain_unfold.
    rewrite (header_lines_step _ before rest); cbn [buffer set_buffer contentLength];
      [|rewrite Hn; reflexivity|exact Hne|apply Hlines, Hbefore|reflexivity].
    rewrite read_other_fields by assumption. cbn [snd].
    destruct c; reflexivity.
Qed.

Lemma other_header_fields_are_ignored_witness :
  other_field content_type_field /\ other_field trace_field /\
  handleData (frame_with [content_type_field] [trace_field] stopped_payload) connected
  = handleData (frame stopped_payload) connected /\
  handleData (map byte_of_N content_type_field ++ crlf_crlf ++ frame stopped_payload)
    connected
  = handleData (frame stopped_payload) connected.
Proof.
  assert (H1 : other_field content_type_field).
  { split; [split|]; [vm_compute; repeat constructor; discriminate
                     | discriminate | vm_compute; discriminate]. }
  assert (H2 : other_field trace_field).
  { split; [split|]; [vm_compute; repeat constructor; discriminate
                     | discriminate | vm_compute; discriminate]. }
  destruct (other_header_fields_are_ignored connected [content_type_field]
              [trace_field] eq_refl eq_refl
              (@List.Forall_cons _ other_field _ _ H1 (List.Forall_nil _))
              (@List.Forall_cons _ other_field _ _ H2 (List.Forall_nil _))) as [Ha Hb].
  split; [exact H1|]. split; [exact H2|].
  split; [exact (Ha stopped_payload)|].
  apply (Hb (frame stopped_payload)). discriminate.
Defined.

(** ** Two clients back to back *)

Lemma NoDup_keys (ks : list jsstring) : bool_decide (NoDup ks) = true -> NoDup ks.
Proof. apply bool_decide_eq_true_1. Qed.

Ltac ascii_literal := vm_compute; repeat constructor.

Lemma plain_ascii_request seq command args :
  Z.abs seq < 10 ^ 21 -> ascii command -> plain_ascii_opt args ->
  plain_ascii (request_of seq command args).
Proof.
  intros Hs Hc Ha. unfold request_of, plain_ascii.
  apply well_formed_Obj. destruct args as [a|]; cbn [opt_field app map fst].
  - split; [apply NoDup_keys; vm_compute; reflexivity|].
    repeat constructor; cbn [fst snd well_formed]; try assumption; ascii_literal.
  - split; [apply NoDup_keys; vm_compute; reflexivity|].
    repeat constructor; cbn [fst snd well_formed]; try assumption; ascii_literal.
Qed.

Lemma plain_ascii_success_response seq command request_seq body :
  Z.abs seq < 10 ^ 21 -> Z.abs request_seq < 10 ^ 21 ->
  ascii command -> plain_ascii_opt body ->
  plain_ascii (success_response_of seq (Some (Str command))
                 (Some (Num (Int request_seq))) body).
Proof.
  intros Hs Hr Hc Hb. unfold success_response_of, plain_ascii.
  apply well_formed_Obj. destruct body as [b|]; cbn [opt_field app map fst].
  - split; [apply NoDup_keys; vm_compute; reflexivity|].
    repeat constructor; cbn [fst snd well_formed]; try assumption; ascii_literal.
  - split; [apply NoDup_keys; vm_compute; reflexivity|].
    repeat constructor; cbn [fst snd well_formed]; try assumption; ascii_literal.
Qed.

Lemma plain_ascii_error_response seq command request_seq text :
  Z.abs seq < 10 ^ 21 -> Z.abs request_seq < 10 ^ 21 ->
  ascii command -> ascii text ->
  plain_ascii (error_response_of seq (Some (Str command))
                 (Some (Num (Int request_seq))) (Some (Str text)) None).
Proof.
  intros Hs Hr Hc Ht. unfold error_response_of, plain_ascii.
  apply well_formed_Obj. cbn [opt_field app map fst].
  split; [apply NoDup_keys; vm_compute; reflexivity|].
  repeat constructor; cbn [fst snd well_formed]; try assumption; try ascii_literal.
Qed.

Lemma request_of_is_request seq command args :
  classify (request_of seq command args) = Normal Request /\
  field (request_of seq command args) "command" = Some (Str command) /\
  field (request_of seq command args) "seq" = Some (Num (Int seq)) /\
  field (request_of seq command args) "arguments" = args.
Proof. destruct args; repeat split; reflexivity. Qed.

Lemma success_response_is_response seq command request_seq body :
  response_for (success_response_of seq (Some (Str command))
                  (Some (Num (Int request_seq))) body)
    (Some (Num (Int request_seq))) /\
  get (success_response_of seq (Some (Str command))
         (Some (Num (Int request_seq))) body) "success" = Normal (Some (Bool true)) /\
  get (success_response_of seq (Some (Str command))
         (Some (Num (Int request_seq))) body) "body" = Normal body.
Proof. destruct body; repeat split; reflexivity. Qed.

Lemma error_response_is_response seq command request_seq text :
  response_for (error_response_of seq (Some (Str command))
                  (Some (Num (Int request_seq))) (Some (Str text)) None)
    (Some (Num (Int request_seq))) /\
  get (error_response_of seq (Some (Str command))
         (Some (Num (Int request_seq))) (Some (Str text)) None) "success"
  = Normal (Some (Bool false)) /\
  get (error_response_of seq (Some (Str command))
         (Some (Num (Int request_seq))) (Some (Str text)) None) "message"
  = Normal (Some (Str text)).
Proof. repeat split; reflexivity. Qed.

(** The receiving side: the request is decoded, the handler called, and
    its promise chain kept. *)
Lemma receive_request request command h c :
  classify request = Normal Request ->
  field request "command" = Some (Str command) ->
  reverseRequestHandlers c !! command = Some h ->
  let c' := receive request c in
  calls c' = calls c ++ [Decoded request;
                         HandlerCalled (handler_id h) (field request "arguments")] /\
  replies c' = replies c ++ [(request, handler_fn h (field request "arguments"))] /\
  connection c' = connection c /\ nextSeq c' = nextSeq c /\ written c' = written c.
Proof.
  intros Hc Hf Hh c'. subst c'.
  unfold receive, try_catch, bind, modify.
  rewrite (handleMessage_request request command _ (classify_request _ Hc) Hf).
  cbn [reverseRequestHandlers BaseDebugClient.record_call set_calls]. rewrite Hh.
  unfold push_reply_of, BaseDebugClient.push_reply, BaseDebugClient.record_call,
    BaseDebugClient.log.
  cbn [logLevel set_calls].
  destruct (logLevel c); cbn; rewrite <- ?app_assoc; auto 10.
Qed.

(** The sending side after the answer: the promise is settled. *)
Lemma receive_response response S p c :
  pendingRequests c !! Int S = Some p ->
  promises c !! p = Some Pending ->
  response_for response (Some (Num (Int S))) ->
  printable (field response "command") = true ->
  (forall body,
     get response "success" = Normal (Some (Bool true)) ->
     get response "body" = Normal body ->
     promises (receive response c) !! p = Some (Fulfilled body)) /\
  (forall message text,
     get response "success" = Normal (Some (Bool false)) ->
     get response "message" = Normal message ->
     Error_message message = Normal text ->
     promises (receive response c) !! p
     = Some (Rejected (ErrorObject PlainError text))).
Proof.
  intros Hp Hq Hr Hpr.
  set (c0 := BaseDebugClient.record_call (Decoded response) c).
  destruct (response_settles c0 S p response Hp Hq Hr Hpr) as [Hok Hfail].
  split.
  - intros body Hs Hb. destruct (Hok body Hs Hb) as [H1 H2].
    unfold receive, try_catch, bind, modify. fold c0.
    destruct (BaseDebugClient.handleMessage response c0) as [[[]|e] c1];
      cbn in H1 |- *; [exact H2 | discriminate].
  - intros message text Hs Hm Ht. destruct (Hfail message text Hs Hm Ht) as [H1 H2].
    unfold receive, try_catch, bind, modify. fold c0.
    destruct (BaseDebugClient.handleMessage response c0) as [[[]|e] c1];
      cbn in H1 |- *; [exact H2 | discriminate].
Qed.

Lemma feed_message c message chunks :
  plain_ascii message -> buffer c = [] -> contentLength c = Int (-1) ->
  List.concat chunks = wire message ->
  feed chunks c = receive message c.
Proof.
  intros Hp Hb Hn Hbytes.
  apply (feed_messages c [message] chunks); try assumption.
  - constructor; [exact Hp | constructor].
  - cbn. rewrite app_nil_r. exact Hbytes.
Qed.

Lemma receive_stream message c :
  buffer (receive message c) = buffer c /\
  contentLength (receive message c) = contentLength c.
Proof.
  pose proof (indep_try_catch
    (modify (BaseDebugClient.record_call (Decoded message));;
     BaseDebugClient.handleMessage message)
    (fun e => BaseDebugClient.log (LogErrorHandlingMessage (JSON.stringify message) e)))
    as Hi.
  unfold receive.
  assert (H : stream_indep
    (try_catch
       (modify (BaseDebugClient.record_call (Decoded message));;
        BaseDebugClient.handleMessage message)
       (fun e => BaseDebugClient.log
                   (LogErrorHandlingMessage (JSON.stringify message) e)))).
  { apply Hi; [|intros e; apply indep_log].
    apply indep_bind; [|intros ?; apply indep_handleMessage].
    apply indep_modify. intros; reflexivity. }
  specialize (H c (buffer c) (contentLength c)).
  rewrite with_stream_id in H.
  match goal with
  | |- context [snd ?r] => set (r0 := r) in *
  end.
  apply (f_equal snd) in H. cbn [snd] in H. rewrite H. split; reflexivity.
Qed.

Lemma after_sendRequest_stream k command args c :
  buffer (after_sendRequest k command args c) = buffer c /\
  contentLength (after_sendRequest k command args c) = contentLength c.
Proof.
  unfold after_sendRequest, BaseDebugClient.log. cbn.
  destruct (logLevel c); split; reflexivity.
Qed.

Lemma settle_single_reply k request command request_seq o c :
  replies c = [(request, o)] ->
  connection c = Some k ->
  get request "command" = Normal command ->
  get request "seq" = Normal request_seq ->
  printable command = true ->
  (forall body,
     o = Fulfils body ->
     written (snd (settle_reply c))
     = written c ++ [(outStream k,
                      Protocol.encodeMessage
                        (success_response_of (nextSeq c) command request_seq body))]) /\
  (forall reason message,
     o = Rejects reason -> message_of reason = Normal message ->
     printable message = true ->
     written (snd (settle_reply c))
     = written c ++ [(outStream k,
                      Protocol.encodeMessage
                        (error_response_of (nextSeq c) command request_seq message None))]).
Proof.
  intros Hr Hk Hc Hs Hp.
  assert (Hk' : connection (set_replies [] c) = Some k) by exact Hk.
  split.
  - intros body ->. unfold settle_reply, bind, gets, modify. rewrite Hr. cbn [snd fst].
    unfold run_reply, try_catch.
    rewrite (sendResponse_connected k request command request_seq body _ Hk' Hc Hs Hp).
    destruct (after_send_fields k
      (LogSendingResponse
         (success_response_of (nextSeq (set_replies [] c)) command request_seq body))
      (success_response_of (nextSeq (set_replies [] c)) command request_seq body)
      (set_replies [] c)) as (_ & Hw & _).
    cbn [snd]. rewrite Hw. reflexivity.
  - intros reason message -> Hm Hpm. unfold settle_reply, bind, gets, modify. rewrite Hr.
    cbn [snd fst]. unfold run_reply, bind, lift. rewrite Hm.
    rewrite (sendErrorResponse_connected k request command request_seq message None
               _ Hk' Hc Hs Hp Hpm).
    destruct (after_send_fields k
      (LogSendingErrorResponse
         (error_response_of (nextSeq (set_replies [] c)) command request_seq message None))
      (error_response_of (nextSeq (set_replies [] c)) command request_seq message None)
      (set_replies [] c)) as (_ & Hw & _).
    cbn [snd]. rewrite Hw. reflexivity.
Qed.



(** ** The socket client *)

Lemma connection_send : send_steps (unchanged connection).
Proof.
  split; [exact connection_dispatch|..]; intros; reflexivity.
Qed.

Lemma set_base_same s : set_base (base s) s = s.
Proof. destruct s; reflexivity. Qed.

Lemma socket_log_fields entry s :
  base (SocketDebugClient.log entry s) = base s /\
  state (SocketDebugClient.log entry s) = state s /\
  socket (SocketDebugClient.log entry s) = socket s /\
  sockets (SocketDebugClient.log entry s) = sockets s /\
  destroyed (SocketDebugClient.log entry s) = destroyed s.
Proof. unfold SocketDebugClient.log. destruct (logLevel (base s)); auto. Qed.

Lemma log_base entry s : base (SocketDebugClient.log entry s) = base s.
Proof. apply socket_log_fields. Qed.

Lemma log_state entry s : state (SocketDebugClient.log entry s) = state s.
Proof. apply socket_log_fields. Qed.

Lemma log_socket entry s : socket (SocketDebugClient.log entry s) = socket s.
Proof. apply socket_log_fields. Qed.

Lemma log_sockets entry s : sockets (SocketDebugClient.log entry s) = sockets s.
Proof. apply socket_log_fields. Qed.

Ltac socket_fields :=
  repeat (cbn [base state socket sockets set_base set_state set_socket set_sockets
               set_destroyed fst snd];
          rewrite ?log_base, ?log_state, ?log_socket, ?log_sockets).

Lemma finally_fields s :
  base (SocketDebugClient.finally s) = base s /\
  socket (SocketDebugClient.finally s) = socket s /\
  sockets (SocketDebugClient.finally s) = sockets s /\
  state (SocketDebugClient.finally s)
  = match state s with Connecting => Disconnected | other => other end.
Proof.
  unfold SocketDebugClient.finally.
  destruct (state s) eqn:E; cbn; rewrite ?E; auto.
Qed.

Lemma already_Connected :
  ErrorObject PlainError
    (js "already '" ++ js (SocketDebugClient.state_name Connected) ++ js "'")
  = new_Error "already 'Connected'".
Proof. reflexivity. Qed.

Lemma already_Connecting :
  ErrorObject PlainError
    (js "already '" ++ js (SocketDebugClient.state_name Connecting) ++ js "'")
  = new_Error "already 'Connecting'".
Proof. reflexivity. Qed.

Lemma disconnectAdapter_normal c : fst (disconnectAdapter c) = Normal tt.
Proof.
  unfold disconnectAdapter, bind, gets, modify, BaseDebugClient.log.
  cbn [fst snd]. destruct (connection c); [|reflexivity].
  destruct (logLevel c); reflexivity.
Qed.

(** What each step does to the connection state. *)
Lemma socket_perform_state a s :
  state s = Connected -> state (socket_perform a s) = Connected.
Proof.
  intros H. destruct a; cbn [socket_perform].
  - unfold SocketDebugClient.connectAdapter. rewrite H. cbn [snd].
    destruct (finally_fields s) as (_ & _ & _ & ->). rewrite H. reflexivity.
  - unfold SocketDebugClient.on_connect, SocketDebugClient.inherited.
    destruct (fst (connectAdapter n n (base s))); cbn [snd]; [|exact H].
    cbn [sockets set_base].
    destruct (sockets s !! n) as [[| |]|]; cbn [snd]; try exact H.
    destruct (finally_fields
      (set_state Connected
         (SocketDebugClient.log LogConnected
            (set_socket (Some n)
               (set_sockets (<[n:=Succeeded]> (sockets s))
                  (set_base (snd (connectAdapter n n (base s))) s))))))
      as (_ & _ & _ & ->).
    reflexivity.
  - unfold SocketDebugClient.on_error. cbv zeta.
    destruct (socket_log_fields (LogSocketError (ErrorObject PlainError message)) s)
      as (_ & Hst & _ & Hso & _).
    rewrite Hso.
    destruct (sockets s !! n) as [[| |]|]; try (rewrite Hst; exact H).
    destruct (finally_fields
      (set_sockets (<[n:=Failed (ErrorObject PlainError message)]> (sockets s))
         (SocketDebugClient.log (LogSocketError (ErrorObject PlainError message)) s)))
      as (_ & _ & _ & ->).
    cbn [state set_sockets]. rewrite Hst, H. reflexivity.
  - unfold SocketDebugClient.disconnectAdapter, SocketDebugClient.inherited.
    destruct (socket s); [|exact H].
    destruct (fst (disconnectAdapter (base s))); exact H.
  - unfold SocketDebugClient.sendRequest. rewrite H. exact H.
  - destruct (overridden a); exact H.
Qed.

(** X14.  Once a connection has been made, the state stays [Connected] whatever
    happens, [disconnectAdapter] included: it destroys the socket without
    setting the state back.  So [connectAdapter] is refused with "already
    'Connected'" for the rest of the client's life; a [SocketDebugClient]
    connects at most once. *)
Theorem socket_client_connects_once (s : SocketClient)
  (actions : list socket_action) :
  state s = Connected ->
  let s' := socket_perform_all actions s in
  state s' = Connected /\
  SocketDebugClient.connectAdapter s' = (Throw (new_Error "already 'Connected'"), s').
Proof.
  intros H s'.
  assert (Hs : state s' = Connected).
  { subst s'. revert s H. induction actions as [|a rest IH]; intros s H; [exact H|].
    cbn [socket_perform_all fold_left]. apply IH, socket_perform_state, H. }
  split; [exact Hs|].
  unfold SocketDebugClient.connectAdapter, SocketDebugClient.finally.
  rewrite Hs, already_Connected. reflexivity.
Qed.

Lemma socket_client_connects_once_witness :
  state socket_connected = Connected /\
  state socket_closed = Connected /\
  SocketDebugClient.connectAdapter socket_closed
  = (Throw (new_Error "already 'Connected'"), socket_closed).
Proof.
  split; [reflexivity|].
  exact (socket_client_connects_once socket_connected [DisconnectAdapter] eq_refl).
Defined.

Lemma connectAdapter_disconnected s :
  state s = Disconnected ->
  SocketDebugClient.connectAdapter s
  = (Normal (length (sockets s)),
     set_sockets (sockets s ++ [Waiting])
       (set_state Connecting (SocketDebugClient.log LogConnecting s))).
Proof.
  intros H. unfold SocketDebugClient.connectAdapter. rewrite H. cbv zeta.
  destruct (socket_log_fields LogConnecting s) as (_ & _ & _ & Hso & _).
  cbn [sockets set_state]. rewrite Hso. reflexivity.
Qed.

Lemma connectAdapter_connecting s :
  state s = Connecting ->
  SocketDebugClient.connectAdapter s
  = (Throw (new_Error "already 'Connecting'"), set_state Disconnected s).
Proof.
  intros H. unfold SocketDebugClient.connectAdapter, SocketDebugClient.finally.
  rewrite H, already_Connecting. reflexivity.
Qed.



Lemma on_connect_waiting n s :
  connection (base s) = None -> sockets s !! n = Some Waiting ->
  SocketDebugClient.on_connect n s
  = (Normal tt,
     set_state Connected
       (SocketDebugClient.log LogConnected
          (set_socket (Some n)
             (set_sockets (<[n := Succeeded]> (sockets s))
                (set_base (set_connection (Some (on_socket n)) (base s)) s))))).
Proof.
  intros Hk Hn. unfold SocketDebugClient.on_connect, SocketDebugClient.inherited.
  unfold connectAdapter, bind, gets, modify. rewrite Hk. cbn [fst snd sockets set_base].
  rewrite Hn. unfold SocketDebugClient.finally. reflexivity.
Qed.

Lemma on_error_waiting n message s :
  sockets s !! n = Some Waiting ->
  SocketDebugClient.on_error n message s
  = SocketDebugClient.finally
      (set_sockets (<[n := Failed (ErrorObject PlainError message)]> (sockets s))
         (SocketDebugClient.log (LogSocketError (ErrorObject PlainError message)) s)).
Proof.
  intros Hn. unfold SocketDebugClient.on_error. cbv zeta.
  rewrite log_sockets, Hn. reflexivity.
Qed.



(** X17.  [sendRequest] is refused with "not connected", and changes nothing,
    unless the state is [Connected] and the inherited connection is
    there; after [disconnectAdapter] the state still says [Connected] and
    it is the inherited check that refuses. *)
Theorem socket_sendRequest_needs_connection (s : SocketClient)
  (command : jsstring) (args : option value) :
  state s <> Connected \/ connection (base s) = None ->
  SocketDebugClient.sendRequest command args s = (Throw not_connected, s).
Proof.
  intros H. unfold SocketDebugClient.sendRequest.
  destruct (state s) eqn:Hs; try reflexivity.
  destruct H as [H|H]; [contradiction|].
  unfold SocketDebugClient.inherited.
  destruct (send_without_connection (base s) H command args Null None None None Null)
    as (-> & _).
  cbn [fst snd]. rewrite set_base_same. reflexivity.
Qed.

Lemma socket_sendRequest_needs_connection_witness :
  state socket_closed = Connected /\ connection (base socket_closed) = None /\
  SocketDebugClient.sendRequest (js "threads") None socket_closed
  = (Throw not_connected, socket_closed).
Proof.
  assert (H : connection (base socket_closed) = None) by reflexivity.
  split; [reflexivity|]. split; [exact H|].
  exact (socket_sendRequest_needs_connection socket_closed (js "threads") None
           (or_intror H)).
Defined.

(** *** The socket and the connection go together *)

Lemma socket_in_use_perform a s : socket_in_use s -> socket_in_use (socket_perform a s).
Proof.
  intros Hinv. destruct a; cbn [socket_perform].
  - unfold SocketDebugClient.connectAdapter.
    destruct (state s) eqn:Hst; cbn [snd].
    + intros n Hn. cbn in Hn.
      destruct (socket_log_fields LogConnecting s) as (_ & _ & Hso & _).
      rewrite Hso in Hn. destruct (Hinv n Hn) as [H _]. congruence.
    + intros n Hn. destruct (finally_fields s) as (_ & Hso & _).
      rewrite Hso in Hn. destruct (Hinv n Hn) as [H _]. congruence.
    + intros n Hn. destruct (finally_fields s) as (Hb & Hso & _ & Hfs).
      rewrite Hso in Hn. destruct (Hinv n Hn) as [_ H2].
      rewrite Hfs, Hb, Hst. split; [reflexivity | exact H2].
  - unfold SocketDebugClient.on_connect, SocketDebugClient.inherited.
    unfold connectAdapter at 1, bind, gets, modify.
    destruct (connection (base s)) as [k|] eqn:Hk; cbn [fst snd].
    + unfold connectAdapter, bind, gets, throw. rewrite Hk. cbn [snd].
      rewrite set_base_same. exact Hinv.
    + assert (Hnone : socket s = None).
      { destruct (socket s) as [m|] eqn:Hm; [|reflexivity].
        destruct (Hinv m Hm) as [_ H]. congruence. }
      unfold connectAdapter, bind, gets, modify. rewrite Hk. cbn [snd sockets set_base].
      destruct (sockets s !! n) as [[| |]|]; cbn [snd];
        try (intros m Hm; cbn in Hm; congruence).
      set (s2 := set_socket _ _).
      destruct (finally_fields (set_state Connected (SocketDebugClient.log LogConnected s2)))
        as (Hfb & Hfso & _ & Hfst).
      destruct (socket_log_fields LogConnected s2) as (Hlb & _ & Hlso & _).
      intros m Hm. rewrite Hfso in Hm. cbn [socket set_state] in Hm.
      rewrite Hlso in Hm. subst s2. cbn in Hm. injection Hm as <-.
      split; [rewrite Hfst; reflexivity|].
      rewrite Hfb. cbn [base set_state]. rewrite Hlb. reflexivity.
  - unfold SocketDebugClient.on_error. cbv zeta.
    set (e := ErrorObject PlainError message).
    destruct (socket_log_fields (LogSocketError e) s) as (Hlb & Hlst & Hlso & Hlss & _).
    set (s1 := SocketDebugClient.log (LogSocketError e) s) in *.
    assert (H1 : socket_in_use s1).
    { intros m Hm. rewrite Hlso in Hm. rewrite Hlst, Hlb. apply Hinv, Hm. }
    destruct (sockets s1 !! n) as [[| |]|]; try exact H1.
    destruct (finally_fields (set_sockets (<[n:=Failed e]> (sockets s1)) s1))
      as (Hfb & Hfso & _ & Hfst).
    intros m Hm. rewrite Hfso in Hm. cbn [socket set_sockets] in Hm.
    destruct (H1 m Hm) as [H2 H3].
    rewrite Hfst, Hfb. cbn [state base set_sockets]. rewrite H2. auto.
  - unfold SocketDebugClient.disconnectAdapter, SocketDebugClient.inherited.
    destruct (socket s) as [m|] eqn:Hm; [|exact Hinv].
    rewrite disconnectAdapter_normal. cbn [snd].
    intros m' Hm'. cbn in Hm'. discriminate.
  - unfold SocketDebugClient.sendRequest.
    destruct (state s) eqn:Hst; cbn [snd]; try exact Hinv.
    unfold SocketDebugClient.inherited. cbn [snd].
    intros m Hm. cbn [socket set_base] in Hm. destruct (Hinv m Hm) as [H1 H2].
    split; [exact H1|]. cbn [base set_base].
    pose proof (respects_sendRequest _ connection_send command args (base s)) as Hc.
    unfold unchanged in Hc. rewrite Hc. exact H2.
  - destruct (overridden a) eqn:Ho; [exact Hinv|].
    intros m Hm. cbn [socket set_base] in Hm. destruct (Hinv m Hm) as [H1 H2].
    split; [exact H1|]. cbn [base set_base].
    pose proof (respects_perform_connected _ connection_send a (base s)) as Hc.
    unfold unchanged in Hc. rewrite Hc; [exact H2|].
    destruct a; try exact I; discriminate.
Qed.



(** ** The table of pending requests *)

(** X19.  In every state a client can reach, each entry of the table of
    pending requests is filed under a sequence number that has been handed
    out, belongs to a promise that is still pending, and is the only entry
    of that promise: no response can settle a promise twice or settle the
    promise of another request. *)
Theorem pending_table_invariant (c : Client) (key : number) (p : nat) :
  reachable c -> pendingRequests c !! key = Some p ->
  (exists z, key = Int z /\ 1 <= z < nextSeq c) /\
  promises c !! p = Some Pending /\
  (forall key', pendingRequests c !! key' = Some p -> key' = key).
Proof.
  intros Hr Hp. split; [exact (pending_below_nextSeq c key p Hr Hp)|].
  exact (reachable_pending_sound c Hr key p Hp).
Qed.

Lemma pending_table_invariant_witness :
  reachable one_request_sent /\
  pendingRequests one_request_sent !! Int 1 = Some 0%nat /\
  promises one_request_sent !! 0%nat = Some Pending.
Proof.
  assert (Hp : pendingRequests one_request_sent !! Int 1 = Some 0%nat) by reflexivity.
  split; [exact one_request_sent_reachable|]. split; [exact Hp|].
  exact (proj1 (proj2 (pending_table_invariant one_request_sent (Int 1) 0%nat
                         one_request_sent_reachable Hp))).
Defined.

(** The callback of a pending request settles its own promise and no
    other. *)
Lemma pending_callback_others p response c q :
  q <> p ->
  promises (snd (BaseDebugClient.pending_callback p response c)) !! q
  = promises c !! q.
Proof.
  intros Hq. unfold BaseDebugClient.pending_callback, bind, lift.
  destruct (get response "success") as [success|e]; [|reflexivity].
  cbv beta iota.
  destruct (get response "command") as [command|e];
    [|destruct (truthy success); reflexivity].
  destruct (get response "request_seq") as [seq|e];
    [|destruct (truthy success); reflexivity].
  destruct (interpolations [command; seq]);
    [|destruct (truthy success); reflexivity].
  assert (Hsettle : forall s c0, promises c0 = promises c ->
            promises (snd (BaseDebugClient.settle p s c0)) !! q = promises c !! q).
  { intros s c0 H0. unfold BaseDebugClient.settle, modify. cbn [snd].
    destruct (promises c0 !! p) as [[| |]|]; rewrite <- ?H0; try reflexivity.
    cbn [promises set_promises]. apply list_lookup_insert_ne. congruence. }
  destruct (truthy success).
  - destruct (log_fields (LogReceivedResponse response) c) as (_ & _ & H3 & _).
    destruct (BaseDebugClient.log (LogReceivedResponse response) c)
      as [[[]|e] c1]; cbn [fst snd] in *; [|rewrite H3; reflexivity].
    destruct (get response "body") as [body|e]; cbn [fst snd];
      [|rewrite H3; reflexivity].
    apply Hsettle, H3.
  - destruct (log_fields (LogReceivedErrorResponse response) c) as (_ & _ & H3 & _).
    destruct (BaseDebugClient.log (LogReceivedErrorResponse response) c)
      as [[[]|e] c1]; cbn [fst snd] in *; [|rewrite H3; reflexivity].
    destruct (get response "message") as [message|e]; cbn [fst snd];
      [|rewrite H3; reflexivity].
    destruct (Error_message message) as [text|e]; cbn [fst snd];
      [|rewrite H3; reflexivity].
    apply Hsettle, H3.
Qed.

(** X20.  A response takes the entry of its request out of the table and
    settles the promise of that request; every other entry stays, and
    every other promise is as it was. *)
Theorem response_touches_only_its_request (c : Client) (S : Z) (p : nat)
  (response : value) :
  pendingRequests c !! Int S = Some p ->
  response_for response (Some (Num (Int S))) ->
  let c' := snd (BaseDebugClient.handleMessage response c) in
  pendingRequests c' = delete (Int S) (pendingRequests c) /\
  (forall key, key <> Int S -> pendingRequests c' !! key = pendingRequests c !! key) /\
  (forall q, q <> p -> promises c' !! q = promises c !! q).
Proof.
  intros Hp Hr. cbv zeta.
  rewrite (handleMessage_response response _ c Hr).
  cbn [BaseDebugClient.Map_get BaseDebugClient.Map_delete]. rewrite Hp.
  set (c0 := set_pendingRequests (delete (Int S) (pendingRequests c)) c).
  destruct (pending_callback_view p response c0) as (_ & Hpend & _).
  assert (Htable : pendingRequests (snd (BaseDebugClient.pending_callback p response c0))
                   = delete (Int S) (pendingRequests c)).
  { rewrite Hpend. reflexivity. }
  split; [exact Htable|]. split.
  - intros key Hkey. rewrite Htable. apply lookup_delete_ne. congruence.
  - intros q Hq. rewrite (pending_callback_others p response c0 q Hq). reflexivity.
Qed.

Lemma response_touches_only_its_request_witness :
  pendingRequests two_requests_sent !! Int 1 = Some 0%nat /\
  pendingRequests (snd (BaseDebugClient.handleMessage (success_response 1)
                          two_requests_sent)) !! Int 2
  = Some 1%nat /\
  promises (snd (BaseDebugClient.handleMessage (success_response 1)
                   two_requests_sent)) !! 1%nat
  = Some Pending.
Proof.
  assert (Hp : pendingRequests two_requests_sent !! Int 1 = Some 0%nat) by reflexivity.
  destruct (response_touches_only_its_request two_requests_sent 1 0%nat
              (success_response 1) Hp ltac:(split; reflexivity)) as (_ & Hk & Hq).
  split; [exact Hp|]. split.
  - rewrite (Hk (Int 2)) by discriminate. reflexivity.
  - rewrite (Hq 1%nat) by discriminate. reflexivity.
Defined.

(** ** The three type guards *)

Lemma is_string_exclusive v (a b : string) :
  js a <> js b -> is_string v a = true -> is_string v b = false.
Proof.
  intros Hne. destruct v as [[| | |t| |]|]; cbn [is_string]; try discriminate.
  unfold str_eqb. intros H. apply bool_decide_eq_true in H. subst t.
  apply bool_decide_eq_false. exact Hne.
Qed.

Lemma guard_type message (k : string) (b c : result bool) :
  Protocol.and_then (Protocol.check (get message "type") (fun t => is_string t k))
    (Protocol.and_then b c) = Normal true ->
  message <> Null /\ is_string (field message "type") k = true.
Proof.
  destruct message; cbn; try discriminate.
  destruct (is_string _ k); [|discriminate]. intros _. split; [discriminate|reflexivity].
Qed.

Lemma guard_other_type message (k : string) (b c : result bool) :
  message <> Null -> is_string (field message "type") k = false ->
  Protocol.and_then (Protocol.check (get message "type") (fun t => is_string t k))
    (Protocol.and_then b c) = Normal false.
Proof.
  intros Hn H. rewrite (get_field message "type" Hn). cbn. rewrite H. reflexivity.
Qed.

(** X21.  [isResponse], [isEvent] and [isRequest] accept disjoint sets of
    messages, so the order in which [handleMessage] asks them makes no
    difference: a message is treated as a response, an event or a request
    exactly when the guard of that name accepts it. *)
Theorem type_guards_are_exclusive (message : value) :
  (Protocol.isResponse message = Normal true ->
   Protocol.isEvent message = Normal false /\
   Protocol.isRequest message = Normal false) /\
  (Protocol.isEvent message = Normal true ->
   Protocol.isResponse message = Normal false /\
   Protocol.isRequest message = Normal false) /\
  (Protocol.isRequest message = Normal true ->
   Protocol.isResponse message = Normal false /\
   Protocol.isEvent message = Normal false) /\
  (classify message = Normal Response <-> Protocol.isResponse message = Normal true) /\
  (classify message = Normal Event <-> Protocol.isEvent message = Normal true) /\
  (classify message = Normal Request <-> Protocol.isRequest message = Normal true).
Proof.
  assert (H1 : Protocol.isResponse message = Normal true ->
               Protocol.isEvent message = Normal false /\
               Protocol.isRequest message = Normal false).
  { intros H. apply guard_type in H as [Hn Ht].
    split; apply guard_other_type; try exact Hn;
      apply (is_string_exclusive _ "response"); solve [exact Ht | discriminate]. }
  assert (H2 : Protocol.isEvent message = Normal true ->
               Protocol.isResponse message = Normal false /\
               Protocol.isRequest message = Normal false).
  { intros H. apply guard_type in H as [Hn Ht].
    split; apply guard_other_type; try exact Hn;
      apply (is_string_exclusive _ "event"); solve [exact Ht | discriminate]. }
  assert (H3 : Protocol.isRequest message = Normal true ->
               Protocol.isResponse message = Normal false /\
               Protocol.isEvent message = Normal false).
  { intros H. apply guard_type in H as [Hn Ht].
    split; apply guard_other_type; try exact Hn;
      apply (is_string_exclusive _ "request"); solve [exact Ht | discriminate]. }
  split; [exact H1|]. split; [exact H2|]. split; [exact H3|].
  unfold classify. split; [|split]; split.
  - destruct (Protocol.isResponse message) as [[|]|]; [reflexivity| |discriminate].
    destruct (Protocol.isEvent message) as [[|]|]; try discriminate.
    destruct (Protocol.isRequest message) as [[|]|]; discriminate.
  - intros H. rewrite H. reflexivity.
  - destruct (Protocol.isResponse message) as [[|]|]; try discriminate.
    destruct (Protocol.isEvent message) as [[|]|]; [reflexivity| |discriminate].
    destruct (Protocol.isRequest message) as [[|]|]; discriminate.
  - intros H. destruct (H2 H) as [-> _]. rewrite H. reflexivity.
  - destruct (Protocol.isResponse message) as [[|]|]; try discriminate.
    destruct (Protocol.isEvent message) as [[|]|]; try discriminate.
    destruct (Protocol.isRequest message) as [[|]|]; [reflexivity|discriminate..].
  - intros H. destruct (H3 H) as [-> ->]. rewrite H. reflexivity.
Qed.

Lemma type_guards_are_exclusive_witness :
  Protocol.isEvent stopped_event = Normal true /\
  Protocol.isResponse stopped_event = Normal false /\
  Protocol.isRequest stopped_event = Normal false.
Proof.
  assert (H : Protocol.isEvent stopped_event = Normal true) by reflexivity.
  split; [exact H|].
  exact (proj1 (proj2 (type_guards_are_exclusive stopped_event)) H).
Defined.

(** ** Replies that are not sent *)

(** X22.  The promise chain behind a reverse request ends in a rejection that
    nobody handles, with nothing written and no sequence number taken, in
    two cases: when the client is not connected at the time the handler's
    promise settles, whatever the outcome; and, connected or not, when the
    handler rejects with [undefined] or [null], because reading [message]
    of the reason throws inside the [catch] callback.  In both cases the
    request is never answered. *)
Theorem reply_is_not_sent (c : Client) (request : value) :
  (connection c = None ->
   (forall body, run_reply request (Fulfils body) c = (Throw not_connected, c)) /\
   (forall reason, exists e, run_reply request (Rejects reason) c = (Throw e, c))) /\
  (forall reason,
     reason = Thrown None \/ reason = Thrown (Some Null) ->
     exists e, e <> not_connected /\
               run_reply request (Rejects reason) c = (Throw e, c)).
Proof.
  split.
  - intros Hk.
    pose proof (send_without_connection c Hk) as Hsend.
    split.
    + intros body. unfold run_reply, try_catch.
      destruct (Hsend [] None request body None None Null) as (_ & -> & _).
      cbn [fst snd]. unfold bind, lift. cbn [message_of not_connected new_Error].
      destruct (Hsend [] None request None
                  (Some (Str (js "not connected"))) None Null) as (_ & _ & H & _).
      exact H.
    + intros reason. unfold run_reply, bind, lift.
      destruct (message_of reason) as [m|e]; [|exists e; reflexivity].
      exists not_connected.
      destruct (Hsend [] None request None m None Null) as (_ & _ & H & _).
      exact H.
  - intros reason [->| ->]; eexists; (split; [|reflexivity]); discriminate.
Qed.

Lemma reply_is_not_sent_witness :
  connection (new Off) = None /\
  run_reply runInTerminal_request (Fulfils terminal_answer) (new Off)
  = (Throw not_connected, new Off) /\
  fst (run_reply runInTerminal_request (Rejects (Thrown None)) serving)
  = Throw (ErrorObject TypeError (js "Cannot read properties of undefined")) /\
  written (snd (run_reply runInTerminal_request (Rejects (Thrown None)) serving)) = [].
Proof.
  destruct (reply_is_not_sent (new Off) runInTerminal_request) as [H1 _].
  destruct (reply_is_not_sent serving runInTerminal_request) as [_ H2].
  destruct (H2 (Thrown None) (or_introl eq_refl)) as (e & _ & He).
  assert (Ee : e = ErrorObject TypeError (js "Cannot read properties of undefined"))
    by (vm_compute in He; vm_compute; congruence).
  split; [reflexivity|]. split; [exact (proj1 (H1 eq_refl) terminal_answer)|].
  rewrite He, Ee. split; reflexivity.
Defined.

(** ** A transport that fails *)


